(** * Money-muling detection engine: a shallow embedding of
      [src/lib/detectionEngine.ts] and the properties of its detectors.

    The TypeScript engine works on JavaScript [Map]s and [Set]s, whose
    iteration order is insertion order.  That order decides the order
    in which the depth-first searches discover cycles and chains, hence
    the ring identifiers, so maps are modelled as insertion-ordered
    association lists with the [Map.prototype.set] discipline (an
    existing key keeps its position).

    Numbers: account scores only ever hold integers (sums of the
    integer awards, capped at 100), so the accumulator is in [Z];
    timestamps are [Date.getTime()] milliseconds in [Z]; the one-decimal
    roundings and the ring risk formula are in exact rationals [Q], and
    the double-precision evaluation of the risk formula is shown to
    round to the same tenths on every ring the engine can build.

    Text: a string holds the UTF-8 bytes of the text.  The parser
    looks for commas, quotes, line feeds, digits and white space, and
    the white space that [trim] strips is recognised in its encoded
    form; comparing two ids byte by byte gives the order of the host's
    comparison by code units, except between a character beyond U+FFFF
    and one from U+E000 to U+FFFF.  The amount of a row is the binary64
    value that [parseFloat] returns.

    Two users of the engine are embedded as well: the upload handler
    of the investigation page ([src/pages/Contact.tsx]) and the data
    helpers of the graph view ([src/components/GraphVisualization.tsx]). *)

From Stdlib Require Import List String Ascii Bool Arith ZArith QArith Qround Lia Lqa.
From Stdlib Require Import Permutation Sorted DecimalString DecimalNat.
From Stdlib Require Floats Uint63.
Import ListNotations.

Local Close Scope Q_scope.
Local Open Scope string_scope.
Local Open Scope list_scope.
Local Open Scope nat_scope.

(** ** JavaScript containers *)

Module JsSet.
(** [Set<string>]: insertion-ordered, no duplicates. *)
Definition t := list string.

Definition empty : t := [].

Fixpoint has (x : string) (s : t) : bool :=
  match s with
  | [] => false
  | y :: s' => if String.eqb x y then true else has x s'
  end.

Definition add (x : string) (s : t) : t :=
  if has x s then s else s ++ [x].

(** [new Set(iterable)]. *)
Definition of_list (l : list string) : t :=
  fold_left (fun s x => add x s) l empty.

Definition size (s : t) : nat := List.length s.
End JsSet.

Module JsMap.
(** [Map<string, V>]: insertion-ordered association list. *)
Definition t (V : Type) := list (string * V).

Definition empty {V} : t V := [].

Fixpoint get {V} (k : string) (m : t V) : option V :=
  match m with
  | [] => None
  | (k', v) :: m' => if String.eqb k k' then Some v else get k m'
  end.

Definition has {V} (k : string) (m : t V) : bool :=
  match get k m with Some _ => true | None => false end.

(** [m.set(k, v)]: overwrite in place, or append a new entry. *)
Fixpoint set {V} (k : string) (v : V) (m : t V) : t V :=
  match m with
  | [] => [(k, v)]
  | (k', v') :: m' =>
      if String.eqb k k' then (k', v) :: m' else (k', v') :: set k v m'
  end.

Definition keys {V} (m : t V) : list string := map fst m.

(** In-place mutation of the object stored under [k] (objects are
    shared by reference, so every alias sees the update). *)
Definition modify {V} (k : string) (f : V -> V) (m : t V) : t V :=
  match get k m with
  | Some v => set k (f v) m
  | None => m
  end.
End JsMap.

(** ** Array helpers *)

(** [a.slice(i, j)] for [0 <= i], [0 <= j]. *)
Definition slice {A} (i j : nat) (l : list A) : list A :=
  firstn (j - i) (skipn i l).

(** [a.slice(1, -1)]. *)
Definition slice_interior {A} (l : list A) : list A :=
  slice 1 (List.length l - 1) l.

(** [a.indexOf(x)] on an array that contains [x]. *)
Fixpoint indexOf (x : string) (l : list string) : nat :=
  match l with
  | [] => 0
  | y :: l' => if String.eqb x y then 0 else S (indexOf x l')
  end.

Definition includes (x : string) (l : list string) : bool := JsSet.has x l.

(** [a.join(sep)]. *)
Definition join (sep : string) (l : list string) : string := String.concat sep l.

(** [Array.prototype.sort] is stable; [gt a b] stands for
    [compare(a, b) > 0].  Insertion from the right keeps equal
    elements in their original order. *)
Section StableSort.
Context {A : Type} (gt : A -> A -> bool).

Fixpoint sort_insert (x : A) (l : list A) : list A :=
  match l with
  | [] => [x]
  | y :: l' => if gt x y then y :: sort_insert x l' else x :: y :: l'
  end.

Definition stable_sort (l : list A) : list A := fold_right sort_insert [] l.
End StableSort.

(** ** Data model *)

(** A JavaScript number as far as the engine's input is concerned. *)
Inductive JsNumber :=
| JsNaN
| JsInfinity (negative : bool)
| JsFinite (q : Q).

Record Transaction := mkTransaction {
  transaction_id : string;
  sender_id : string;
  receiver_id : string;
  amount : JsNumber;
  timestamp : Z  (* Date.getTime(), milliseconds *)
}.

Record GraphNode := mkGraphNode {
  id : string;
  outEdges : JsMap.t nat;   (* receiver -> count *)
  inEdges : JsMap.t nat;    (* sender -> count *)
  transactions : list Transaction;
  totalTxCount : nat
}.

(** ** Graph builder *)

Definition getOrCreate (k : string) (nodes : JsMap.t GraphNode) : JsMap.t GraphNode :=
  if JsMap.has k nodes then nodes
  else JsMap.set k (mkGraphNode k JsMap.empty JsMap.empty [] 0) nodes.

Definition count_or_0 (k : string) (m : JsMap.t nat) : nat :=
  match JsMap.get k m with Some n => n | None => 0 end.

Definition add_out (r : string) (n : GraphNode) : GraphNode :=
  mkGraphNode (id n) (JsMap.set r (count_or_0 r (outEdges n) + 1) (outEdges n))
              (inEdges n) (transactions n) (totalTxCount n).

Definition add_in (s : string) (n : GraphNode) : GraphNode :=
  mkGraphNode (id n) (outEdges n)
              (JsMap.set s (count_or_0 s (inEdges n) + 1) (inEdges n))
              (transactions n) (totalTxCount n).

Definition push_tx (tx : Transaction) (n : GraphNode) : GraphNode :=
  mkGraphNode (id n) (outEdges n) (inEdges n) (transactions n ++ [tx]) (totalTxCount n).

Definition incr_total (n : GraphNode) : GraphNode :=
  mkGraphNode (id n) (outEdges n) (inEdges n) (transactions n) (S (totalTxCount n)).

(** One iteration of the loop of [buildGraph].  [sender] and
    [receiver] are references into [nodes]; for a self-transfer they
    are the same object, which the keyed updates reproduce. *)
Definition buildGraph_step (nodes : JsMap.t GraphNode) (tx : Transaction)
  : JsMap.t GraphNode :=
  let nodes := getOrCreate (sender_id tx) nodes in
  let nodes := getOrCreate (receiver_id tx) nodes in
  let nodes := JsMap.modify (sender_id tx) (add_out (receiver_id tx)) nodes in
  let nodes := JsMap.modify (receiver_id tx) (add_in (sender_id tx)) nodes in
  let nodes := JsMap.modify (sender_id tx) (push_tx tx) nodes in
  let nodes := JsMap.modify (sender_id tx) incr_total nodes in
  JsMap.modify (receiver_id tx) incr_total nodes.

Definition buildGraph (txs : list Transaction) : JsMap.t GraphNode :=
  fold_left buildGraph_step txs JsMap.empty.

(** ** Cycle detection (length 3 to 5) *)

Record CycleState := mkCycleState {
  cycles : list (list string);
  allCycleStrings : JsSet.t
}.

(** [cycle.reduce((a, b) => (a < b ? a : b))]; the array is never
    empty where the engine calls it. *)
Definition reduce_min (cycle : list string) : string :=
  match cycle with
  | [] => ""
  | x :: xs => fold_left (fun a b => if String.ltb a b then a else b) xs x
  end.

(** Rotate so that the smallest account id comes first. *)
Definition normalize (cycle : list string) : list string :=
  let minIdx := indexOf (reduce_min cycle) cycle in
  skipn minIdx cycle ++ firstn minIdx cycle.

Definition cycle_key (cycle : list string) : string := join "," (normalize cycle).

Definition record_cycle (path : list string) (st : CycleState) : CycleState :=
  let key := cycle_key path in
  if JsSet.has key (allCycleStrings st) then st
  else mkCycleState (cycles st ++ [path]) (JsSet.add key (allCycleStrings st)).

(** The recursive closure [dfs] of [detectCycles].  The source pushes
    the neighbour on [path] and [visited], recurses, and pops both;
    here the extended values are passed to the call.  [depth] is the
    recursion budget: the guard [path.length < 5] is the source's. *)
Fixpoint cycle_dfs (depth : nat) (nodes : JsMap.t GraphNode)
    (start current : string) (path : list string) (visited : JsSet.t)
    (st : CycleState) : CycleState :=
  match JsMap.get current nodes with
  | None => st
  | Some node =>
      fold_left
        (fun st neighbor =>
           if String.eqb neighbor start && (3 <=? List.length path)
              && (List.length path <=? 5)
           then record_cycle path st
           else if negb (JsSet.has neighbor visited) && (List.length path <? 5)
           then match depth with
                | 0 => st
                | S d => cycle_dfs d nodes start neighbor (path ++ [neighbor])
                                   (JsSet.add neighbor visited) st
                end
           else st)
        (JsMap.keys (outEdges node)) st
  end.

Definition detectCycles (nodes : JsMap.t GraphNode) : list (list string) :=
  cycles
    (fold_left
       (fun st nodeId =>
          cycle_dfs 5 nodes nodeId nodeId [nodeId] (JsSet.of_list [nodeId]) st)
       (JsMap.keys nodes) (mkCycleState [] JsSet.empty)).

(** ** Smurfing detection (fan-in / fan-out in a 72 h window) *)

Definition SMURF_THRESHOLD : nat := 10.
Definition SMURF_WINDOW_MS : Z := 72 * 60 * 60 * 1000.

Inductive SmurfType := fan_in | fan_out.

Record SmurfResult := mkSmurfResult {
  smurf_type : SmurfType;
  smurf_account : string;
  counterparties : list string
}.

(** [if (!m.has(k)) m.set(k, []); m.get(k).push(tx)]. *)
Definition group_push (k : string) (tx : Transaction)
    (m : JsMap.t (list Transaction)) : JsMap.t (list Transaction) :=
  let m := if JsMap.has k m then m else JsMap.set k [] m in
  JsMap.modify k (fun l => l ++ [tx]) m.

Definition byReceiver (txs : list Transaction) : JsMap.t (list Transaction) :=
  fold_left (fun m tx => group_push (receiver_id tx) tx m) txs JsMap.empty.

Definition bySender (txs : list Transaction) : JsMap.t (list Transaction) :=
  fold_left (fun m tx => group_push (sender_id tx) tx m) txs JsMap.empty.

(** [(a, b) => a.timestamp.getTime() - b.timestamp.getTime()] is positive. *)
Definition later (a b : Transaction) : bool := (timestamp a - timestamp b >? 0)%Z.

Definition sort_by_time (txs : list Transaction) : list Transaction :=
  stable_sort later txs.

(** [sorted[i].timestamp.getTime()]. *)
Definition time_at (sorted : list Transaction) (i : nat) : Z :=
  match nth_error sorted i with
  | Some t => timestamp t
  | None => 0%Z
  end.

(** [while (sorted[right].time - sorted[left].time > window) left++]. *)
Fixpoint advance_left (fuel : nat) (window : Z) (sorted : list Transaction)
    (r l : nat) : nat :=
  match fuel with
  | 0 => l
  | S fuel' =>
      if (time_at sorted r - time_at sorted l >? window)%Z
      then advance_left fuel' window sorted r (S l)
      else l
  end.

(** The [for (right ...)] loop of one group; [rights] are the values
    of [right] still to visit and [l] is [left].  [Some] is the
    [break] with the unique counterparties of the first qualifying
    window. *)
Fixpoint smurf_scan (party : Transaction -> string) (sorted : list Transaction)
    (rights : list nat) (l : nat) : option (list string) :=
  match rights with
  | [] => None
  | r :: rest =>
      let l := advance_left (S r) SMURF_WINDOW_MS sorted r l in
      let window := slice l (r + 1) sorted in
      let unique := JsSet.of_list (map party window) in
      if SMURF_THRESHOLD <=? JsSet.size unique then Some unique
      else smurf_scan party sorted rest l
  end.

Definition smurf_group (party : Transaction -> string) (txs : list Transaction)
  : option (list string) :=
  let sorted := sort_by_time txs in
  smurf_scan party sorted (seq 0 (List.length sorted)) 0.

Definition smurf_pass (ty : SmurfType) (party : Transaction -> string)
    (groups : JsMap.t (list Transaction)) (results : list SmurfResult)
  : list SmurfResult :=
  fold_left
    (fun results entry =>
       match smurf_group party (snd entry) with
       | Some unique => results ++ [mkSmurfResult ty (fst entry) unique]
       | None => results
       end)
    groups results.

Definition detectSmurfing (txs : list Transaction) : list SmurfResult :=
  let results := smurf_pass fan_in sender_id (byReceiver txs) [] in
  smurf_pass fan_out receiver_id (bySender txs) results.

(** ** Shell network detection *)

Record ShellState := mkShellState {
  chains : list (list string);
  reportedChains : JsSet.t
}.

(** [nodes.get(id)?.totalTxCount || 0]. *)
Definition total_or_0 (nodes : JsMap.t GraphNode) (k : string) : nat :=
  match JsMap.get k nodes with
  | Some n => totalTxCount n
  | None => 0
  end.

Definition chain_key (path : list string) : string := join "→" path.

Definition record_chain (newPath : list string) (st : ShellState) : ShellState :=
  let key := chain_key newPath in
  if JsSet.has key (reportedChains st) then st
  else mkShellState (chains st ++ [newPath]) (JsSet.add key (reportedChains st)).

(** The recursive closure [dfs] of [detectShellNetworks].  The unused
    local [isIntermediate] of the source is left out.  [depth] is the
    recursion budget; the guard [newPath.length < 7] is the source's. *)
Fixpoint shell_dfs (depth : nat) (nodes : JsMap.t GraphNode)
    (current : string) (path : list string) (st : ShellState) : ShellState :=
  match JsMap.get current nodes with
  | None => st
  | Some node =>
      fold_left
        (fun st neighbor =>
           if includes neighbor path then st
           else
             let isLowActivity := totalTxCount node <=? 3 in
             if (0 <? List.length path) && negb isLowActivity then st
             else
               let newPath := path ++ [neighbor] in
               let st :=
                 if 3 <=? List.length newPath then
                   let intermediates := slice_interior newPath in
                   let allLowActivity :=
                     forallb (fun k => total_or_0 nodes k <=? 3) intermediates in
                   if allLowActivity then record_chain newPath st else st
                 else st in
               if List.length newPath <? 7 then
                 match depth with
                 | 0 => st
                 | S d => shell_dfs d nodes neighbor newPath st
                 end
               else st)
        (JsMap.keys (outEdges node)) st
  end.

Definition detectShellNetworks (nodes : JsMap.t GraphNode) : list (list string) :=
  chains
    (fold_left (fun st nodeId => shell_dfs 7 nodes nodeId [nodeId] st)
               (JsMap.keys nodes) (mkShellState [] JsSet.empty)).

(** ** False-positive control and velocity *)

Definition involves (account : string) (t : Transaction) : bool :=
  String.eqb (sender_id t) account || String.eqb (receiver_id t) account.

(** [Math.min(...times)] and [Math.max(...times)] on a non-empty array. *)
Definition min_of (times : list Z) : Z :=
  match times with
  | [] => 0%Z
  | t :: ts => fold_left Z.min ts t
  end.

Definition max_of (times : list Z) : Z :=
  match times with
  | [] => 0%Z
  | t :: ts => fold_left Z.max ts t
  end.

Definition MS_PER_DAY : Z := 1000 * 60 * 60 * 24.

Definition isMerchantLike (account : string) (nodes : JsMap.t GraphNode)
    (txs : list Transaction) : bool :=
  match JsMap.get account nodes with
  | None => false
  | Some _ =>
      let accountTxs := filter (involves account) txs in
      if List.length accountTxs <? 20 then false
      else
        let times := map timestamp accountTxs in
        let minTime := min_of times in
        let maxTime := max_of times in
        let spanDays := (inject_Z (maxTime - minTime) / inject_Z MS_PER_DAY)%Q in
        Qle_bool 30 spanDays
  end.

Fixpoint velocity_scan (sorted : list Transaction) (rights : list nat) (l : nat)
  : bool :=
  match rights with
  | [] => false
  | r :: rest =>
      let l := advance_left (S r) (24 * 60 * 60 * 1000) sorted r l in
      if 5 <=? r - l + 1 then true else velocity_scan sorted rest l
  end.

Definition hasHighVelocity (account : string) (txs : list Transaction) : bool :=
  let accountTxs := sort_by_time (filter (involves account) txs) in
  velocity_scan accountTxs (seq 0 (List.length accountTxs)) 0.

(** ** Main detection engine *)

Record SuspiciousAccount := mkSuspiciousAccount {
  account_id : string;
  suspicion_score : Q;
  detected_patterns : list string;
  ring_id : option string   (* [None] is [null] *)
}.

Record FraudRing := mkFraudRing {
  fr_ring_id : string;      (* the ring's [ring_id] *)
  member_accounts : list string;
  pattern_type : string;
  risk_score : Q
}.

(** The summary's [processing_time_seconds], a wall-clock reading, is
    left out. *)
Record DetectionResult := mkDetectionResult {
  suspicious_accounts : list SuspiciousAccount;
  fraud_rings : list FraudRing;
  total_accounts_analyzed : nat;
  suspicious_accounts_flagged : nat;
  fraud_rings_detected : nat
}.

(** The accumulators that the closures of [runDetection] share. *)
Record Engine := mkEngine {
  scores : JsMap.t Z;
  patterns : JsMap.t JsSet.t;
  ringMembership : JsMap.t string;
  fraudRings : list FraudRing;
  ringCounter : nat
}.

Definition engine0 : Engine := mkEngine JsMap.empty JsMap.empty JsMap.empty [] 1.

(** [String(n)] for a natural number. *)
Definition string_of_nat (n : nat) : string :=
  NilEmpty.string_of_uint (Nat.to_uint n).

Fixpoint zeros (n : nat) : string :=
  match n with
  | 0 => ""
  | S n' => String "0" (zeros n')
  end.

(** [s.padStart(3, "0")]. *)
Definition padStart3 (s : string) : string :=
  String.append (zeros (3 - String.length s)) s.

Definition ring_name (counter : nat) : string :=
  String.append "RING_" (padStart3 (string_of_nat counter)).

Definition addScore (account : string) (points : Z) (e : Engine) : Engine :=
  let old := match JsMap.get account (scores e) with Some s => s | None => 0%Z end in
  mkEngine (JsMap.set account (Z.min 100 (old + points)) (scores e))
           (patterns e) (ringMembership e) (fraudRings e) (ringCounter e).

Definition addPattern (account pattern : string) (e : Engine) : Engine :=
  let ps := if JsMap.has account (patterns e) then patterns e
            else JsMap.set account JsSet.empty (patterns e) in
  mkEngine (scores e) (JsMap.modify account (JsSet.add pattern) ps)
           (ringMembership e) (fraudRings e) (ringCounter e).

Definition setRing (account ringId : string) (e : Engine) : Engine :=
  mkEngine (scores e) (patterns e) (JsMap.set account ringId (ringMembership e))
           (fraudRings e) (ringCounter e).

Definition pushRing (r : FraudRing) (e : Engine) : Engine :=
  mkEngine (scores e) (patterns e) (ringMembership e) (fraudRings e ++ [r])
           (ringCounter e).

(** [ringCounter++]. *)
Definition bumpCounter (e : Engine) : Engine :=
  mkEngine (scores e) (patterns e) (ringMembership e) (fraudRings e)
           (S (ringCounter e)).

(** JavaScript truthiness of [string | undefined]. *)
Definition truthy (o : option string) : bool :=
  match o with
  | Some s => negb (String.eqb s "")
  | None => false
  end.

Definition Qmin100 (q : Q) : Q := if Qle_bool 100 q then 100%Q else q.

(** --- 1. Cycle detection --- *)
Definition cycle_step (e : Engine) (cycle : list string) : Engine :=
  let ringId := ring_name (ringCounter e) in
  let e := bumpCounter e in
  let cycleLength := List.length cycle in
  let e :=
    fold_left
      (fun e account =>
         let e := addScore account 45 e in
         let e := addPattern account
                    (String.append "cycle_length_" (string_of_nat cycleLength)) e in
         setRing account ringId e)
      cycle e in
  let members := JsSet.of_list cycle in
  pushRing
    (mkFraudRing ringId members "cycle"
       (Qmin100 (45 + (if 4 <=? cycleLength then 15 else 0))%Q))
    e.

(** --- 2. Smurfing detection --- *)
Definition smurf_step (e : Engine) (smurf : SmurfResult) : Engine :=
  let account := smurf_account smurf in
  let e := addScore account 30 e in
  let e := addPattern account
             (match smurf_type smurf with
              | fan_in => "fan_in_smurfing"
              | fan_out => "fan_out_smurfing"
              end) e in
  let existingRingId := JsMap.get account (ringMembership e) in
  if negb (truthy existingRingId) then
    let ringId := ring_name (ringCounter e) in
    let e := bumpCounter e in
    let e := setRing account ringId e in
    let members := account :: slice 0 20 (counterparties smurf) in
    pushRing
      (mkFraudRing ringId members
         (match smurf_type smurf with
          | fan_in => "smurfing_fan_in"
          | fan_out => "smurfing_fan_out"
          end)
         (Qmin100 (30 + inject_Z (Z.of_nat (List.length (counterparties smurf)))
                        * (15 # 10))%Q))
      e
  else e.

(** [chain[0]] and [chain[chain.length - 1]]; every reported chain has
    at least three accounts. *)
Definition chain_first (chain : list string) : string := hd "" chain.
Definition chain_last (chain : list string) : string := last chain "".

(** --- 3. Shell network detection --- *)
Definition shell_step (e : Engine) (chain : list string) : Engine :=
  let intermediates := slice_interior chain in
  let e :=
    fold_left
      (fun e account =>
         let e := addScore account 35 e in
         addPattern account "shell_intermediary" e)
      intermediates e in
  let e := addScore (chain_first chain) 20 e in
  let e := addScore (chain_last chain) 20 e in
  let e := addPattern (chain_first chain) "shell_chain" e in
  let e := addPattern (chain_last chain) "shell_chain" e in
  if negb (JsMap.has (chain_first chain) (ringMembership e)) then
    let ringId := ring_name (ringCounter e) in
    let e := bumpCounter e in
    let members := chain in
    let e := fold_left (fun e m => setRing m ringId e) members e in
    pushRing
      (mkFraudRing ringId members "shell_chain"
         (Qmin100 (35 + inject_Z (Z.of_nat (List.length chain)) * 5)%Q))
      e
  else e.

(** --- 4. Multiple pattern bonus + velocity --- *)
Definition bonus_step (txs : list Transaction) (e : Engine) (account : string)
  : Engine :=
  let e :=
    match JsMap.get account (patterns e) with
    | Some patternSet =>
        if 2 <=? JsSet.size patternSet then addScore account 15 e else e
    | None => e
    end in
  if hasHighVelocity account txs then
    let e := addScore account 10 e in
    addPattern account "high_velocity" e
  else e.

Definition accumulate (txs : list Transaction) : Engine :=
  let nodes := buildGraph txs in
  let allAccounts := JsMap.keys nodes in
  let e := fold_left cycle_step (detectCycles nodes) engine0 in
  let e := fold_left smurf_step (detectSmurfing txs) e in
  let e := fold_left shell_step (detectShellNetworks nodes) e in
  fold_left (bonus_step txs) allAccounts e.

(** [hay.includes(needle)]. *)
Definition str_includes (needle hay : string) : bool :=
  match String.index 0 needle hay with
  | Some _ => true
  | None => false
  end.

Definition isMalicious (p : string) : bool :=
  str_includes "cycle" p || str_includes "smurfing" p || str_includes "shell" p.

(** [Math.round(x)]: nearest integer, ties towards plus infinity. *)
Definition js_round (x : Q) : Z := Qfloor (x + (1 # 2))%Q.

(** [Math.round(x * 10) / 10]. *)
Definition round1 (x : Q) : Q := (inject_Z (js_round (x * 10)) / 10)%Q.

(** --- 5. False positive filter & build suspicious accounts --- *)
Definition emit_step (txs : list Transaction) (nodes : JsMap.t GraphNode)
    (e : Engine) (out : list SuspiciousAccount) (entry : string * Z)
  : list SuspiciousAccount :=
  let (account, score) := entry in
  if (score <=? 0)%Z then out
  else
    let patternSet :=
      match JsMap.get account (patterns e) with
      | Some s => s
      | None => JsSet.empty
      end in
    let hasMaliciousPattern := existsb isMalicious patternSet in
    if negb hasMaliciousPattern && isMerchantLike account nodes txs then out
    else
      out ++ [mkSuspiciousAccount account (round1 (inject_Z score)) patternSet
                (let r := JsMap.get account (ringMembership e) in
                 if truthy r then r else None)].

(** [(a, b) => b.suspicion_score - a.suspicion_score] is positive. *)
Definition lower_score (a b : SuspiciousAccount) : bool :=
  negb (Qle_bool (suspicion_score b - suspicion_score a) 0).

(** [Math.max(...scores)] on a non-empty array. *)
Definition Qmax_of (l : list Q) : Q :=
  match l with
  | [] => 0%Q
  | x :: xs => fold_left (fun a b => if Qle_bool a b then b else a) xs x
  end.

(** [scores.reduce((a, b) => a + b, 0)]. *)
Definition Qsum (l : list Q) : Q := fold_left Qplus l 0%Q.

(** [suspiciousAccounts.find(a => a.account_id === m)?.suspicion_score || 0]. *)
Definition member_score (accounts : list SuspiciousAccount) (m : string) : Q :=
  match find (fun a => String.eqb (account_id a) m) accounts with
  | Some a => suspicion_score a
  | None => 0%Q
  end.

Definition ring_formula (memberScores : list Q) : Q :=
  round1 (Qmax_of memberScores * (6 # 10)
          + (Qsum memberScores / inject_Z (Z.of_nat (List.length memberScores)))
            * (4 # 10))%Q.

(** Update of one ring's risk score from its members' scores. *)
Definition rescore_ring (accounts : list SuspiciousAccount) (ring : FraudRing)
  : FraudRing :=
  let memberScores := map (member_score accounts) (member_accounts ring) in
  if 0 <? List.length memberScores then
    mkFraudRing (fr_ring_id ring) (member_accounts ring) (pattern_type ring)
                (ring_formula memberScores)
  else ring.

Definition runDetection (txs : list Transaction) : DetectionResult :=
  let nodes := buildGraph txs in
  let allAccounts := JsMap.keys nodes in
  let e := accumulate txs in
  let suspiciousAccounts := fold_left (emit_step txs nodes e) (scores e) [] in
  let suspiciousAccounts := stable_sort lower_score suspiciousAccounts in
  let rings := map (rescore_ring suspiciousAccounts) (fraudRings e) in
  mkDetectionResult suspiciousAccounts rings
    (List.length allAccounts) (List.length suspiciousAccounts) (List.length rings).

(** ** CSV parser *)

Record ParseError := mkParseError {
  row : nat;
  message : string
}.

Record ParseResult := mkParseResult {
  parsed : list Transaction;      (* the [transactions] field *)
  errors : list ParseError
}.

Definition REQUIRED_COLUMNS : list string :=
  ["transaction_id"; "sender_id"; "receiver_id"; "amount"; "timestamp"].

Definition dquote : ascii := ascii_of_nat 34.
Definition newline : ascii := ascii_of_nat 10.

(** Strings hold the UTF-8 bytes of the text.  The characters that
    [trim] strips ([WhiteSpace] and [LineTerminator] of the language
    standard): those of one byte, U+0009 to U+000D and U+0020; of two
    bytes, U+00A0; of three bytes, U+1680, U+2000 to U+200A, U+2028,
    U+2029, U+202F, U+205F, U+3000 and U+FEFF. *)
Definition is_space (c : ascii) : bool :=
  let n := nat_of_ascii c in
  ((9 <=? n) && (n <=? 13)) || (n =? 32).

Definition is_space2 (c1 c2 : ascii) : bool :=
  (nat_of_ascii c1 =? 194) && (nat_of_ascii c2 =? 160).

Definition is_space3 (c1 c2 c3 : ascii) : bool :=
  let n1 := nat_of_ascii c1 in
  let n2 := nat_of_ascii c2 in
  let n3 := nat_of_ascii c3 in
  ((n1 =? 225) && (n2 =? 154) && (n3 =? 128))
  || ((n1 =? 226) && (n2 =? 128)
      && (((128 <=? n3) && (n3 <=? 138)) || (n3 =? 168) || (n3 =? 169)
          || (n3 =? 175)))
  || ((n1 =? 226) && (n2 =? 129) && (n3 =? 159))
  || ((n1 =? 227) && (n2 =? 128) && (n3 =? 128))
  || ((n1 =? 239) && (n2 =? 187) && (n3 =? 191)).

Definition is_digit (c : ascii) : bool :=
  let n := nat_of_ascii c in (48 <=? n) && (n <=? 57).

Definition digit_value (c : ascii) : Z := Z.of_nat (nat_of_ascii c - 48).

(** [s.trimStart()]. *)
Fixpoint trim_start (s : string) : string :=
  match s with
  | String c1 s1 =>
      if is_space c1 then trim_start s1
      else
        match s1 with
        | String c2 s2 =>
            if is_space2 c1 c2 then trim_start s2
            else
              match s2 with
              | String c3 s3 => if is_space3 c1 c2 c3 then trim_start s3 else s
              | EmptyString => s
              end
        | EmptyString => s
        end
  | EmptyString => EmptyString
  end.

(** The same on the reversed text: the bytes of a character come last
    byte first. *)
Fixpoint trim_start_rev (s : string) : string :=
  match s with
  | String c1 s1 =>
      if is_space c1 then trim_start_rev s1
      else
        match s1 with
        | String c2 s2 =>
            if is_space2 c2 c1 then trim_start_rev s2
            else
              match s2 with
              | String c3 s3 =>
                  if is_space3 c3 c2 c1 then trim_start_rev s3 else s
              | EmptyString => s
              end
        | EmptyString => s
        end
  | EmptyString => EmptyString
  end.

Fixpoint string_rev_onto (s acc : string) : string :=
  match s with
  | String c s' => string_rev_onto s' (String c acc)
  | EmptyString => acc
  end.

Definition string_rev (s : string) : string := string_rev_onto s "".

(** [s.trim()]. *)
Definition trim (s : string) : string :=
  string_rev (trim_start_rev (string_rev (trim_start s))).

(** [s.split(sep)] for a one-character separator. *)
Fixpoint split_at (sep : ascii) (s cur : string) : list string :=
  match s with
  | EmptyString => [string_rev cur]
  | String c s' =>
      if Ascii.eqb c sep then string_rev cur :: split_at sep s' ""
      else split_at sep s' (String c cur)
  end.

Definition split (sep : ascii) (s : string) : list string := split_at sep s "".

Definition lower_char (c : ascii) : ascii :=
  let n := nat_of_ascii c in
  if (65 <=? n) && (n <=? 90) then ascii_of_nat (n + 32) else c.

(** [s.toLowerCase()] on the ASCII letters.  The host also changes
    letters outside ASCII; the parser only compares the result with
    the five column names, and what the host makes of a text with such
    a letter is none of them (the two letters it turns into ASCII give
    [k] and [i] followed by a combining dot). *)
Fixpoint toLowerCase (s : string) : string :=
  match s with
  | String c s' => String (lower_char c) (toLowerCase s')
  | EmptyString => EmptyString
  end.

Definition strip_leading_quote (s : string) : string :=
  match s with
  | String c s' => if Ascii.eqb c dquote then s' else s
  | EmptyString => EmptyString
  end.

(** [s.replace(/^"|"$/g, "")]. *)
Definition strip_quotes (s : string) : string :=
  string_rev (strip_leading_quote (string_rev (strip_leading_quote s))).

(** The loop of [parseCSVLine]: [acc] is [result] reversed, [cur] is
    [current] reversed. *)
Fixpoint parseCSVLine_loop (line : string) (acc : list string) (cur : string)
    (inQuotes : bool) : list string :=
  match line with
  | EmptyString => rev (string_rev cur :: acc)
  | String ch rest =>
      if Ascii.eqb ch dquote then parseCSVLine_loop rest acc cur (negb inQuotes)
      else if Ascii.eqb ch "," && negb inQuotes
      then parseCSVLine_loop rest (string_rev cur :: acc) "" inQuotes
      else parseCSVLine_loop rest acc (String ch cur) inQuotes
  end.

Definition parseCSVLine (line : string) : list string :=
  parseCSVLine_loop line [] "" false.

(** *** [parseFloat] *)

(** Longest prefix of decimal digits: its value, its length, the rest. *)
Fixpoint take_digits (s : string) (val : Z) (len : nat) : Z * nat * string :=
  match s with
  | String c s' =>
      if is_digit c then take_digits s' (val * 10 + digit_value c)%Z (S len)
      else (val, len, s)
  | EmptyString => (val, len, s)
  end.

Definition pow10 (k : nat) : Z := (10 ^ Z.of_nat k)%Z.

(** The exponent part [e(+|-)?digits]; zero when it is absent or
    incomplete. *)
Definition exponent_part (s : string) : Z :=
  match s with
  | String c s' =>
      if Ascii.eqb c "e" || Ascii.eqb c "E" then
        match s' with
        | String sg s'' =>
            if Ascii.eqb sg "-" then
              let '(v, n, _) := take_digits s'' 0 0 in
              if n =? 0 then 0%Z else (- v)%Z
            else if Ascii.eqb sg "+" then
              let '(v, n, _) := take_digits s'' 0 0 in
              if n =? 0 then 0%Z else v
            else
              let '(v, n, _) := take_digits s' 0 0 in v
        | EmptyString => 0%Z
        end
      else 0%Z
  | EmptyString => 0%Z
  end.

Definition scale10 (q : Q) (e : Z) : Q :=
  if (0 <=? e)%Z then (q * inject_Z (10 ^ e))%Q
  else (q / inject_Z (10 ^ (- e)))%Q.

(** The integer nearest to [n / d] for [0 < d], the even one of two
    that are equally near. *)
Definition round_half_even (n d : Z) : Z :=
  let q := (n / d)%Z in
  let r := (n mod d)%Z in
  if (2 * r <? d)%Z then q
  else if (d <? 2 * r)%Z then (q + 1)%Z
  else if Z.even q then q else (q + 1)%Z.

(** [n / d < 2 ^ e] for [0 < d]. *)
Definition below_pow2 (n d e : Z) : bool :=
  if (0 <=? e)%Z then (n <? d * 2 ^ e)%Z else (n * 2 ^ (- e) <? d)%Z.

(** The Number value of a real [x >= 0]: the binary64 value nearest to
    it, the one with the even significand of two that are equally near,
    and [+Infinity] when that rounding reaches [2 ^ 1024].  With
    [2 ^ e <= x < 2 ^ (e + 1)] the values near [x] are the multiples
    of [2 ^ (e - 52)], and of [2 ^ -1074] below the normal range.  The
    sign of a zero is not kept. *)
Definition number_of (x : Q) : JsNumber :=
  let n := Qnum x in
  let d := Zpos (Qden x) in
  if (n <=? 0)%Z then JsFinite 0
  else
    let e0 := (Z.log2 n - Z.log2 d)%Z in
    let e := if below_pow2 n d e0 then (e0 - 1)%Z else e0 in
    let ulp := Z.max (e - 52) (-1074) in
    if (0 <=? ulp)%Z then
      let m := round_half_even n (d * 2 ^ ulp) in
      if (2 ^ 1024 <=? m * 2 ^ ulp)%Z then JsInfinity false
      else JsFinite (inject_Z (m * 2 ^ ulp))
    else
      let m := round_half_even (n * 2 ^ (- ulp)) d in
      JsFinite (Qred (m # Z.to_pos (2 ^ (- ulp)))).

(** An unsigned [StrDecimalLiteral]: the Number value of the longest
    prefix that is one, [JsNaN] when there is none. *)
Definition unsigned_literal (s : string) : JsNumber :=
  if String.prefix "Infinity" s then JsInfinity false
  else
    let '(iv, il, r1) := take_digits s 0 0 in
    let '(fv, fl, r2) :=
      match r1 with
      | String c r => if Ascii.eqb c "." then take_digits r 0 0 else (0%Z, 0, r1)
      | EmptyString => (0%Z, 0, r1)
      end in
    if (il =? 0) && (fl =? 0) then JsNaN
    else
      let mantissa := (inject_Z iv + inject_Z fv / inject_Z (pow10 fl))%Q in
      number_of (scale10 mantissa (exponent_part r2)).

Definition negate (x : JsNumber) : JsNumber :=
  match x with
  | JsNaN => JsNaN
  | JsInfinity b => JsInfinity (negb b)
  | JsFinite q => JsFinite (Qred (- q))
  end.

Definition parseFloat (s : string) : JsNumber :=
  match trim_start s with
  | String c s' =>
      if Ascii.eqb c "-" then negate (unsigned_literal s')
      else if Ascii.eqb c "+" then unsigned_literal s'
      else unsigned_literal (String c s')
  | EmptyString => JsNaN
  end.

Definition isNaN (x : JsNumber) : bool :=
  match x with JsNaN => true | _ => false end.

(** *** The timestamp format and the row loop *)

(** A mask where [d] stands for [\d] and every other character for
    itself; the match is anchored at both ends. *)
Fixpoint matches_mask (mask s : string) : bool :=
  match mask, s with
  | EmptyString, EmptyString => true
  | String m mask', String c s' =>
      (if Ascii.eqb m "d" then is_digit c else Ascii.eqb m c)
      && matches_mask mask' s'
  | _, _ => false
  end.

(** [/^\d{4}-\d{2}-\d{2} \d{2}:\d{2}:\d{2}$/.test(s)]. *)
Definition TIMESTAMP_REGEX_test (s : string) : bool :=
  matches_mask "dddd-dd-dd dd:dd:dd" s.

(** [s.replace(" ", "T")]: the first space only. *)
Fixpoint replace_space_T (s : string) : string :=
  match s with
  | String c s' => if Ascii.eqb c " " then String "T" s' else String c (replace_space_T s')
  | EmptyString => EmptyString
  end.

Definition or_empty (o : option string) : string :=
  match o with
  | Some s => s
  | None => ""
  end.

Definition is_empty (s : string) : bool :=
  match s with EmptyString => true | _ => false end.

Definition quoted (s : string) : string :=
  String dquote (String.append s (String dquote "")).

Section CsvParser.
(** [new Date(iso).getTime()] of the host, [None] for [NaN]: which
    out-of-range calendar fields a host accepts is its own affair. *)
Variable Date_getTime : string -> option Z.

(** One data row: [inl] is the error pushed before [continue]. *)
Definition parse_row (headers : list string) (rowNum : nat) (line : string)
  : ParseError + Transaction :=
  let cols := parseCSVLine line in
  let colIndex := fun name => indexOf name headers in
  let field := fun name => trim (or_empty (nth_error cols (colIndex name))) in
  let tid := field "transaction_id" in
  let sender := field "sender_id" in
  let receiver := field "receiver_id" in
  let amountStr := field "amount" in
  let timestampStr := field "timestamp" in
  let rowText := String.append "Row " (string_of_nat rowNum) in
  if is_empty tid || is_empty sender || is_empty receiver then
    inl (mkParseError rowNum
           (String.append rowText ": Missing required string fields."))
  else
    let amount := parseFloat amountStr in
    if isNaN amount then
      inl (mkParseError rowNum
             (String.append rowText
                (String.append ": Invalid amount "
                   (String.append (quoted amountStr) " — must be a number."))))
    else if negb (TIMESTAMP_REGEX_test timestampStr) then
      inl (mkParseError rowNum
             (String.append rowText
                (String.append ": Invalid timestamp "
                   (String.append (quoted timestampStr)
                      " — must be YYYY-MM-DD HH:MM:SS."))))
    else
      match Date_getTime (String.append (replace_space_T timestampStr) "Z") with
      | None =>
          inl (mkParseError rowNum
                 (String.append rowText
                    (String.append ": Could not parse timestamp "
                       (String.append (quoted timestampStr) "."))))
      | Some timestamp => inr (mkTransaction tid sender receiver amount timestamp)
      end.

(** The [for (let i = 1; ...)] loop; [i] is the index of [hd rows]. *)
Fixpoint parse_rows (headers : list string) (i : nat) (rows : list string)
    (res : ParseResult) : ParseResult :=
  match rows with
  | [] => res
  | l :: rows' =>
      let line := trim l in
      if is_empty line then parse_rows headers (S i) rows' res
      else
        match parse_row headers (i + 1) line with
        | inl err =>
            parse_rows headers (S i) rows'
              (mkParseResult (parsed res) (errors res ++ [err]))
        | inr t =>
            parse_rows headers (S i) rows'
              (mkParseResult (parsed res ++ [t]) (errors res))
        end
  end.

Definition parseCSV (csvText : string) : ParseResult :=
  let lines := split newline (trim csvText) in
  if List.length lines <? 2 then
    mkParseResult [] [mkParseError 0 "CSV file is empty or has no data rows."]
  else
    let headers :=
      map (fun h => strip_quotes (toLowerCase (trim h)))
          (split "," (hd "" lines)) in
    let errs :=
      fold_left
        (fun errs col =>
           if includes col headers then errs
           else errs ++ [mkParseError 0
                           (String.append "Missing required column: " (quoted col))])
        REQUIRED_COLUMNS [] in
    if 0 <? List.length errs then mkParseResult [] errs
    else parse_rows headers 1 (tl lines) (mkParseResult [] []).
End CsvParser.

(** A host clock for the examples: proleptic Gregorian UTC, fields
    taken as they are written (days from the civil date); the hour 24
    is read with minute and second 0, as the midnight that ends the
    day. *)
Definition field2 (s : string) (pos : nat) : Z :=
  let '(v, _, _) := take_digits (String.substring pos 2 s) 0 0 in v.

Definition days_from_civil (y m d : Z) : Z :=
  let y' := (if m <=? 2 then y - 1 else y)%Z in
  let era := (y' / 400)%Z in
  let yoe := (y' - era * 400)%Z in
  let mp := ((m + 9) mod 12)%Z in
  let doy := ((153 * mp + 2) / 5 + d - 1)%Z in
  let doe := (yoe * 365 + yoe / 4 - yoe / 100 + doy)%Z in
  (era * 146097 + doe - 719468)%Z.

Definition utc_getTime (iso : string) : option Z :=
  let '(y, _, _) := take_digits (String.substring 0 4 iso) 0 0 in
  let m := field2 iso 5 in
  let d := field2 iso 8 in
  let hh := field2 iso 11 in
  let mm := field2 iso 14 in
  let ss := field2 iso 17 in
  if ((1 <=? m) && (m <=? 12) && (1 <=? d) && (d <=? 31)
      && (((hh <=? 23) && (mm <=? 59) && (ss <=? 59))
          || ((hh =? 24) && (mm =? 0) && (ss =? 0))))%Z
  then Some ((((days_from_civil y m d * 24 + hh) * 60 + mm) * 60 + ss) * 1000)%Z
  else None.

Definition negative_amount_csv : string :=
  String.append "transaction_id,sender_id,receiver_id,amount,timestamp"
    (String newline "T1,A,B,-5,2024-01-15 10:00:00").

(** ** The upload handler of the investigation page
       ([src/pages/Contact.tsx], component [Investigation])

    The state cells that [processFile] writes, with the setters applied
    in the order of the source.  [file.text()] is the argument [text];
    the deferred callback that runs the engine is run to completion.
    The handler awaits the engine inside [try] and has a [catch] branch
    for an exception: the call is the parameter [runDetection_call],
    [inr] the value the promise resolves to and [inl] the text
    [String(err)] of what it throws.  [engine_call] is the call of the
    embedded engine, which always returns. *)

Module Investigation.
Inductive Status := idle | uploading | processing | done | error.

Record State := mkState {
  status : Status;
  transactions : list Transaction;
  result : option DetectionResult;     (* [None] is [null] *)
  parseErrors : list ParseError;
  fileName : string;
  graphKey : nat
}.


Definition setStatus (v : Status) (s : State) : State :=
  mkState v (transactions s) (result s) (parseErrors s) (fileName s) (graphKey s).

Definition setTransactions (v : list Transaction) (s : State) : State :=
  mkState (status s) v (result s) (parseErrors s) (fileName s) (graphKey s).

Definition setResult (v : option DetectionResult) (s : State) : State :=
  mkState (status s) (transactions s) v (parseErrors s) (fileName s) (graphKey s).

Definition setParseErrors (v : list ParseError) (s : State) : State :=
  mkState (status s) (transactions s) (result s) v (fileName s) (graphKey s).

Definition setFileName (v : string) (s : State) : State :=
  mkState (status s) (transactions s) (result s) (parseErrors s) v (graphKey s).




Section ProcessFile.
Variable Date_getTime : string -> option Z.
Variable runDetection_call : list Transaction -> string + DetectionResult.

End ProcessFile.

Definition reset (s : State) : State :=
  let s := setStatus idle s in
  let s := setTransactions [] s in
  let s := setResult None s in
  let s := setParseErrors [] s in
  setFileName "" s.
End Investigation.

(** ** Helpers of the graph view ([src/components/GraphVisualization.tsx]) *)

Module GraphVisualization.
(** [for (const acc of suspiciousAccounts) map.set(acc.account_id, acc)]. *)
Definition buildAccountMap (suspiciousAccounts : list SuspiciousAccount)
  : JsMap.t SuspiciousAccount :=
  fold_left (fun map acc => JsMap.set (account_id acc) acc map)
            suspiciousAccounts JsMap.empty.

Inductive EdgeType := cycle | smurfing | shell | normal.

Definition getEdgeType (sourceAcc : option SuspiciousAccount) : EdgeType :=
  match sourceAcc with
  | None => normal
  | Some acc =>
      let patterns := detected_patterns acc in
      if existsb (str_includes "cycle") patterns then cycle
      else if existsb (str_includes "fan") patterns then smurfing
      else if existsb (str_includes "shell") patterns then shell
      else normal
  end.

(** [acc?.suspicion_score ?? 0] for [acc = accMap.get(id)]. *)
Definition nodeScore (accMap : JsMap.t SuspiciousAccount) (id : string) : Q :=
  match JsMap.get id accMap with
  | Some acc => suspicion_score acc
  | None => 0%Q
  end.
(** The accounts of the drawn graph: [nodeSet] after the loop over
    [transactions.slice(0, 2000)], as [[...nodeSet]]. *)
Definition nodeSet (transactions : list Transaction) : JsSet.t :=
  fold_left
    (fun nodeSet tx => JsSet.add (receiver_id tx) (JsSet.add (sender_id tx) nodeSet))
    (slice 0 2000 transactions) JsSet.empty.

(** The [totalTx] shown for a node. *)
Definition totalTx (transactions : list Transaction) (id : string) : nat :=
  List.length
    (filter (fun t => String.eqb (sender_id t) id || String.eqb (receiver_id t) id)
            transactions).
End GraphVisualization.

(** ** Scenarios used below *)

Definition tx (i s r : string) (t : Z) : Transaction :=
  mkTransaction i s r (JsFinite 100) t.

Definition HOUR : Z := 60 * 60 * 1000.

(** Two triangles through the same account [A]. *)
Definition two_triangles : list Transaction :=
  [ tx "T1" "A" "B" 0; tx "T2" "B" "C" (100 * HOUR); tx "T3" "C" "A" (200 * HOUR);
    tx "T4" "A" "D" (300 * HOUR); tx "T5" "D" "E" (400 * HOUR);
    tx "T6" "E" "A" (500 * HOUR) ].

(** A two-hop path. *)
Definition two_hops : list Transaction :=
  [ tx "T1" "A" "B" 0; tx "T2" "B" "C" (100 * HOUR) ].

(** The chain A -> B -> C -> D, with A and D busy (four transactions
    each) and B, C with two transactions each. *)
Definition busy_ends : list Transaction :=
  [ tx "T1" "P1" "A" 0; tx "T2" "P2" "A" (100 * HOUR); tx "T3" "P3" "A" (200 * HOUR);
    tx "T4" "A" "B" (300 * HOUR); tx "T5" "B" "C" (400 * HOUR);
    tx "T6" "C" "D" (500 * HOUR);
    tx "T7" "D" "Q1" (600 * HOUR); tx "T8" "D" "Q2" (700 * HOUR);
    tx "T9" "D" "Q3" (800 * HOUR) ].

(** A text of one line per element. *)
Definition csv_text (lines : list string) : string :=
  String.concat (String newline "") lines.

(** An account id with a comma, [B,C], written in a quoted field,
    beside the ids [B] and [C]: the cycles A -> B,C -> D -> A and
    A -> B -> C -> D -> A. *)
Definition comma_ids_csv : string :=
  csv_text
    [ "transaction_id,sender_id,receiver_id,amount,timestamp";
      String.append "T1,A," (String.append (quoted "B,C") ",100,2024-01-01 00:00:00");
      String.append "T2," (String.append (quoted "B,C") ",D,100,2024-01-02 00:00:00");
      "T3,D,A,100,2024-01-03 00:00:00";
      "T4,A,B,100,2024-01-04 00:00:00";
      "T5,B,C,100,2024-01-05 00:00:00";
      "T6,C,D,100,2024-01-06 00:00:00" ].

Definition comma_ids : list Transaction :=
  [ tx "T1" "A" "B,C" 1704067200000; tx "T2" "B,C" "D" 1704153600000;
    tx "T3" "D" "A" 1704240000000; tx "T4" "A" "B" 1704326400000;
    tx "T5" "B" "C" 1704412800000; tx "T6" "C" "D" 1704499200000 ].

(** A file with a blank line, a row without receiver, a row whose
    timestamp has a T, and a row with month 13. *)
Definition mixed_rows_csv : string :=
  csv_text
    [ "transaction_id,sender_id,receiver_id,amount,timestamp";
      "T1,A,B,10,2024-01-15 10:00:00";
      "";
      "T2,A,,10,2024-01-15 11:00:00";
      "T3,B,C,10,2024-01-15T12:00:00";
      "T4,C,D,10,2024-13-15 12:00:00" ].


(** ** Vocabulary of the properties *)

(** The amount is below zero. *)
Definition amount_negative (x : JsNumber) : bool :=
  match x with
  | JsNaN => false
  | JsInfinity negative => negative
  | JsFinite q => negb (Qle_bool 0 q)
  end.

(** Total transaction count of an account: as sender plus as receiver. *)
Definition tx_count (account : string) (txs : list Transaction) : nat :=
  List.length (filter (fun t => String.eqb (sender_id t) account) txs)
  + List.length (filter (fun t => String.eqb (receiver_id t) account) txs).

(** What the output says about one account. *)
Definition account_view (a : SuspiciousAccount) : string * Q * list string :=
  (account_id a, Qred (suspicion_score a), detected_patterns a).

(** [l2] is [l1] read from another starting point. *)
Definition is_rotation (l1 l2 : list string) : Prop :=
  exists a b, l1 = a ++ b /\ l2 = b ++ a.

(** What the cycle search maintains: every recorded cycle is a simple
    path of 3 to 5 accounts, its key is in [allCycleStrings], and no
    key was recorded twice. *)
Definition cycle_inv (st : CycleState) : Prop :=
  Forall (fun c => NoDup c /\ 3 <= List.length c <= 5) (cycles st)
  /\ (forall c, In c (cycles st) -> In (cycle_key c) (allCycleStrings st))
  /\ NoDup (map cycle_key (cycles st)).

(** *** Smurfing *)

Definition incoming (account : string) (txs : list Transaction) : list Transaction :=
  filter (fun t => String.eqb (receiver_id t) account) txs.

Definition outgoing (account : string) (txs : list Transaction) : list Transaction :=
  filter (fun t => String.eqb (sender_id t) account) txs.

(** Any two transactions of [w] are at most 72 hours apart. *)
Definition within_window (w : list Transaction) : Prop :=
  forall t1 t2, In t1 w -> In t2 w -> (timestamp t1 - timestamp t2 <= SMURF_WINDOW_MS)%Z.

Definition distinct_count (l : list string) : nat :=
  List.length (nodup string_dec l).




Definition time_sorted (sorted : list Transaction) : Prop :=
  forall i j, i <= j -> j < List.length sorted ->
              (time_at sorted i <= time_at sorted j)%Z.


(** A group after more of its transactions were pushed. *)
Definition pushed (o : option (list Transaction)) (l : list Transaction)
  : option (list Transaction) :=
  match l with
  | [] => o
  | _ => Some (match o with Some g => g | None => [] end ++ l)
  end.

(** *** Scores *)

Definition score_of (account : string) (sc : JsMap.t Z) : Z :=
  match JsMap.get account sc with
  | Some s => s
  | None => 0%Z
  end.

(** The effect of one [addScore] on the score map. *)
Definition award (sc : JsMap.t Z) (aw : string * Z) : JsMap.t Z :=
  JsMap.set (fst aw) (Z.min 100 (score_of (fst aw) sc + snd aw)) sc.

(** The engine after the three detector passes, before the bonus loop. *)
Definition detectors (txs : list Transaction) : Engine :=
  let nodes := buildGraph txs in
  let e := fold_left cycle_step (detectCycles nodes) engine0 in
  let e := fold_left smurf_step (detectSmurfing txs) e in
  fold_left shell_step (detectShellNetworks nodes) e.

Definition cycle_awards (cycle : list string) : list (string * Z) :=
  map (fun a => (a, 45%Z)) cycle.

Definition smurf_awards (s : SmurfResult) : list (string * Z) :=
  [(smurf_account s, 30%Z)].

Definition shell_awards (chain : list string) : list (string * Z) :=
  map (fun a => (a, 35%Z)) (slice_interior chain)
  ++ [(chain_first chain, 20%Z); (chain_last chain, 20%Z)].

(** Multi-pattern bonus (two or more distinct tags from the
    detectors) and velocity award of one account. *)
Definition bonus_awards (txs : list Transaction) (ps : JsMap.t JsSet.t)
    (account : string) : list (string * Z) :=
  (match JsMap.get account ps with
   | Some patternSet => if 2 <=? JsSet.size patternSet then [(account, 15%Z)] else []
   | None => []
   end)
  ++ (if hasHighVelocity account txs then [(account, 10%Z)] else []).

(** Every pattern contribution of a run, in the order it is awarded. *)
Definition contributions (txs : list Transaction) : list (string * Z) :=
  let nodes := buildGraph txs in
  flat_map cycle_awards (detectCycles nodes)
  ++ flat_map smurf_awards (detectSmurfing txs)
  ++ flat_map shell_awards (detectShellNetworks nodes)
  ++ flat_map (bonus_awards txs (patterns (detectors txs))) (JsMap.keys nodes).

(** Sum of the contributions awarded to one account. *)
Definition awarded_to (account : string) (aws : list (string * Z)) : Z :=
  fold_right Z.add 0%Z
    (map snd (filter (fun aw => String.eqb (fst aw) account) aws)).

(** What the filter loop pushes for one entry of the score map. *)
Definition emission (txs : list Transaction) (nodes : JsMap.t GraphNode)
    (e : Engine) (entry : string * Z) : list SuspiciousAccount :=
  emit_step txs nodes e [] entry.

(** The pattern set of an account ([patterns.get(account) || new Set()]). *)
Definition tags_of (account : string) (e : Engine) : JsSet.t :=
  match JsMap.get account (patterns e) with
  | Some s => s
  | None => JsSet.empty
  end.

(** [ringMembership.get(account) || null]. *)
Definition ring_of (account : string) (e : Engine) : option string :=
  let r := JsMap.get account (ringMembership e) in
  if truthy r then r else None.

(** The account passes the false-positive filter. *)
Definition retained (txs : list Transaction) (account : string) (e : Engine)
  : bool :=
  existsb isMalicious (tags_of account e)
  || negb (isMerchantLike account (buildGraph txs) txs).

(** *** Rings *)

Definition is_smurf_ring (r : FraudRing) : bool :=
  String.eqb (pattern_type r) "smurfing_fan_in"
  || String.eqb (pattern_type r) "smurfing_fan_out".

(** The accounts whose ring id the creation of [r] wrote: the flagged
    account of a smurfing ring, every member of a cycle or shell ring. *)
Definition assigned_by (r : FraudRing) : list string :=
  if is_smurf_ring r then firstn 1 (member_accounts r) else member_accounts r.

(** The id of the last ring, in creation order, that assigned [account]. *)
Definition last_assigning (account : string) (rings : list FraudRing)
  : option string :=
  fold_left
    (fun cur r => if includes account (assigned_by r) then Some (fr_ring_id r) else cur)
    rings None.

(** Ring bookkeeping of the engine: membership is the last assignment,
    and the ring ids are RING_001, RING_002, ... in creation order. *)
Definition ring_inv (e : Engine) : Prop :=
  (forall a, JsMap.get a (ringMembership e) = last_assigning a (fraudRings e))
  /\ map fr_ring_id (fraudRings e)
     = map ring_name (seq 1 (List.length (fraudRings e)))
  /\ ringCounter e = S (List.length (fraudRings e)).

(** The number that a padded decimal string denotes. *)
Definition padded_value (s : string) : option nat :=
  option_map Nat.of_uint (NilEmpty.uint_of_string s).

(** The engine after the cycle pass, and after the smurfing pass. *)
Definition after_cycles (txs : list Transaction) : Engine :=
  fold_left cycle_step (detectCycles (buildGraph txs)) engine0.

Definition after_smurfing (txs : list Transaction) : Engine :=
  fold_left smurf_step (detectSmurfing txs) (after_cycles txs).

(** *** Shell chains *)

(** What the chain search maintains: every recorded chain is a simple
    path of three to seven accounts, and every account of it but the
    last (the start account included) is low-activity. *)
Definition chain_ok (nodes : JsMap.t GraphNode) (chain : list string) : Prop :=
  3 <= List.length chain <= 7 /\ NoDup chain
  /\ Forall (fun a => total_or_0 nodes a <= 3) (removelast chain).

(** *** Pattern tags and the false-positive filter *)

(** A cycle, smurfing or shell tag. *)
Definition structural_tag (p : string) : Prop :=
  p = "fan_in_smurfing" \/ p = "fan_out_smurfing"
  \/ p = "shell_intermediary" \/ p = "shell_chain"
  \/ exists n, p = String.append "cycle_length_" (string_of_nat n).

(** The tags the engine ever attaches. *)
Definition known_tag (p : string) : Prop :=
  structural_tag p \/ p = "high_velocity".

(** Scores never go below zero, tags are known ones, and a tagged
    account has a positive score. *)
Definition tag_inv (e : Engine) : Prop :=
  (forall a, (0 <= score_of a (scores e))%Z)
  /\ forall a p, In p (tags_of a e) ->
                 known_tag p /\ (0 < score_of a (scores e))%Z.



(** No emitted account has this id. *)
Definition suppressed (txs : list Transaction) (account : string) : Prop :=
  forall acc, In acc (suspicious_accounts (runDetection txs)) ->
              account_id acc <> account.


(** The sizes a ring can have: a cycle of 3 to 5 accounts, a chain of
    3 to 7, or a flagged account with its ten counterparties. *)
Definition ring_size_ok (r : FraudRing) : Prop :=
  In (List.length (member_accounts r)) [3; 4; 5; 6; 7; 11].

(** *** The risk expression in binary64

    Member scores are integers, so the only inexact operations of the
    source expression are the products with 0.6 and 0.4 and the mean. *)

Definition double_of_Z (z : Z) : PrimFloat.float :=
  PrimFloat.of_uint63 (Uint63.of_Z z).

(** The literals [0.6] and [0.4]: the doubles nearest to 6/10 and 4/10,
    which are the correctly rounded quotients. *)
Definition double_0_6 : PrimFloat.float :=
  PrimFloat.div (double_of_Z 6) (double_of_Z 10).
Definition double_0_4 : PrimFloat.float :=
  PrimFloat.div (double_of_Z 4) (double_of_Z 10).

(** [(max * 0.6 + (sum / n) * 0.4) * 10] in double precision. *)
Definition risk_expression_double (m s n : Z) : PrimFloat.float :=
  PrimFloat.mul
    (PrimFloat.add
       (PrimFloat.mul (double_of_Z m) double_0_6)
       (PrimFloat.mul (PrimFloat.div (double_of_Z s) (double_of_Z n)) double_0_4))
    (double_of_Z 10).

(** [Math.round(x)] is [k]: [k - 1/2 <= x < k + 1/2], both bounds
    being exact doubles. *)
Definition rounds_to (x : PrimFloat.float) (k : Z) : bool :=
  let upper := PrimFloat.div (double_of_Z (2 * k + 1)) (double_of_Z 2) in
  PrimFloat.leb (PrimFloat.sub upper (double_of_Z 1)) x && PrimFloat.ltb x upper.

(** Ten times [0.6 * m + 0.4 * s / n], rounded half up, in integers. *)
Definition exact_tenths (m s n : Z) : Z :=
  ((2 * (6 * m * n + 4 * s) + n) / (2 * n))%Z.

(** [f] holds of [lo], [lo + 1], ..., [lo + k - 1]. *)
Fixpoint upto (k : nat) (f : Z -> bool) (lo : Z) : bool :=
  match k with
  | 0 => true
  | S k' => f lo && upto k' f (lo + 1)%Z
  end.

(** For rings of [n] members: every maximum [m] in 0..100 and every
    sum [s] in [m .. n * m]. *)
Definition doubles_agree (n : Z) : bool :=
  upto 101
    (fun m =>
       upto (Z.to_nat ((n - 1) * m + 1))
            (fun s => rounds_to (risk_expression_double m s n) (exact_tenths m s n))
            m)
    0%Z.

(** The integer score a ring takes for a member. *)
Definition member_points (accounts : list SuspiciousAccount) (m : string) : Z :=
  Qfloor (member_score accounts m).

Definition Zsum (l : list Z) : Z := fold_left Z.add l 0%Z.

(** *** The graph *)

(** The node of an account, or the node [getOrCreate] would make. *)
Definition node_of (nodes : JsMap.t GraphNode) (a : string) : GraphNode :=
  match JsMap.get a nodes with
  | Some n => n
  | None => mkGraphNode a JsMap.empty JsMap.empty [] 0
  end.

(** What one transaction does to the node of account [a]. *)
Definition touch (t : Transaction) (a : string) (n : GraphNode) : GraphNode :=
  let n := if String.eqb (sender_id t) a then add_out (receiver_id t) n else n in
  let n := if String.eqb (receiver_id t) a then add_in (sender_id t) n else n in
  let n := if String.eqb (sender_id t) a then incr_total (push_tx t n) else n in
  if String.eqb (receiver_id t) a then incr_total n else n.

(** Sender and receiver of a transaction, in that order. *)
Definition ends (t : Transaction) : list string := [sender_id t; receiver_id t].

(** The transactions from [a] to [b]. *)
Definition transfers (a b : string) (txs : list Transaction) : list Transaction :=
  filter (fun t => String.eqb (sender_id t) a && String.eqb (receiver_id t) b) txs.

(** There is an edge from [a] to [b] in the node map. *)
Definition edge (nodes : JsMap.t GraphNode) (a b : string) : Prop :=
  exists node, JsMap.get a nodes = Some node /\ In b (JsMap.keys (outEdges node)).

(** Consecutive accounts of [path] are joined by edges. *)
Fixpoint is_path (nodes : JsMap.t GraphNode) (path : list string) : Prop :=
  match path with
  | a :: (b :: _) as rest => edge nodes a b /\ is_path nodes rest
  | _ => True
  end.


(** Some transaction goes from [a] to [b]. *)
Definition sends (txs : list Transaction) (a b : string) : Prop :=
  exists t, In t txs /\ sender_id t = a /\ receiver_id t = b.

(** Money can flow along [path]: every account sent to the next one. *)
Fixpoint flow (txs : list Transaction) (path : list string) : Prop :=
  match path with
  | a :: (b :: _) as rest => sends txs a b /\ flow txs rest
  | _ => True
  end.


(** *** Velocity *)

(** The transactions of [account] stamped within the 24 hours that
    start at [t0]. *)
Definition busy_day (account : string) (t0 : Z) (txs : list Transaction)
  : list Transaction :=
  filter (fun t => involves account t
                   && ((t0 <=? timestamp t)%Z
                       && (timestamp t <=? t0 + 24 * 60 * 60 * 1000)%Z))
         txs.


(** *** The evidence of a smurfing flag *)

(** The transactions a flag is about, and the side of them it counts. *)
Definition flag_group (s : SmurfResult) (txs : list Transaction) : list Transaction :=
  match smurf_type s with
  | fan_in => incoming (smurf_account s) txs
  | fan_out => outgoing (smurf_account s) txs
  end.

Definition flag_party (s : SmurfResult) : Transaction -> string :=
  match smurf_type s with
  | fan_in => sender_id
  | fan_out => receiver_id
  end.

(** The flag lists the distinct counterparties of some window of at
    most 72 hours of its group, and there are exactly ten of them. *)
Definition flag_evidence (txs : list Transaction) (s : SmurfResult) : Prop :=
  List.length (counterparties s) = SMURF_THRESHOLD
  /\ NoDup (counterparties s)
  /\ exists w,
       incl w (flag_group s txs) /\ within_window w
       /\ counterparties s = JsSet.of_list (map (flag_party s) w).


(** *** What the engine keeps about tags and rings *)

(** Every account with a positive score carries a tag. *)
Definition marked (e : Engine) : Prop :=
  forall a, (0 < score_of a (scores e))%Z -> tags_of a e <> [].

(** The account takes part in a transaction of the input. *)
Definition known_account (txs : list Transaction) (a : string) : Prop :=
  exists t, In t txs /\ (sender_id t = a \/ receiver_id t = a).


(** [e'] has every tag and every ring of [e]. *)
Definition extends (e e' : Engine) : Prop :=
  (forall a p, In p (tags_of a e) -> In p (tags_of a e'))
  /\ (forall r, In r (fraudRings e) -> In r (fraudRings e')).

(** Where a ring comes from: a detected cycle, a smurfing flag (the
    flagged account followed by its counterparties) or a shell chain. *)
Definition ring_origin (txs : list Transaction) (r : FraudRing) : Prop :=
  (pattern_type r = "cycle"
   /\ In (member_accounts r) (detectCycles (buildGraph txs)))
  \/ (exists s,
        In s (detectSmurfing txs)
        /\ member_accounts r = smurf_account s :: counterparties s
        /\ pattern_type r = match smurf_type s with
                            | fan_in => "smurfing_fan_in"
                            | fan_out => "smurfing_fan_out"
                            end)
  \/ (pattern_type r = "shell_chain"
      /\ In (member_accounts r) (detectShellNetworks (buildGraph txs))).


(** *** Text *)

(** The character occurs in the string. *)
Fixpoint has_char (c : ascii) (s : string) : bool :=
  match s with
  | String c' s' => Ascii.eqb c' c || has_char c s'
  | EmptyString => false
  end.

(** Number of occurrences of the character. *)
Fixpoint count_char (c : ascii) (s : string) : nat :=
  match s with
  | String c' s' => (if Ascii.eqb c' c then 1 else 0) + count_char c s'
  | EmptyString => 0
  end.


(** *** The shape of a CSV text *)

Definition csv_lines (csvText : string) : list string :=
  split newline (trim csvText).

(** The header names as the parser compares them. *)
Definition csv_headers (csvText : string) : list string :=
  map (fun h => strip_quotes (toLowerCase (trim h)))
      (split "," (hd "" (csv_lines csvText))).

Definition missing_columns (csvText : string) : list string :=
  filter (fun col => negb (includes col (csv_headers csvText))) REQUIRED_COLUMNS.

Definition missing_column_error (col : string) : ParseError :=
  mkParseError 0 (String.append "Missing required column: " (quoted col)).

(** The lines after the header that are not blank. *)
Definition data_lines (csvText : string) : list string :=
  filter (fun l => negb (is_empty (trim l))) (tl (csv_lines csvText)).



(** *** The cycles as the search comes upon them *)

(** [cycle_dfs] with every hit kept: the paths at which the search
    finds its way back to [start], in the order of the search, every
    rotation and repeat included. *)
Fixpoint cycle_hits (depth : nat) (nodes : JsMap.t GraphNode)
    (start current : string) (path : list string) (visited : JsSet.t)
  : list (list string) :=
  match JsMap.get current nodes with
  | None => []
  | Some node =>
      flat_map
        (fun neighbor =>
           if String.eqb neighbor start && (3 <=? List.length path)
              && (List.length path <=? 5)
           then [path]
           else if negb (JsSet.has neighbor visited) && (List.length path <? 5)
           then match depth with
                | 0 => []
                | S d => cycle_hits d nodes start neighbor (path ++ [neighbor])
                                    (JsSet.add neighbor visited)
                end
           else [])
        (JsMap.keys (outEdges node))
  end.

Definition found_cycles (nodes : JsMap.t GraphNode) : list (list string) :=
  flat_map
    (fun nodeId => cycle_hits 5 nodes nodeId nodeId [nodeId] (JsSet.of_list [nodeId]))
    (JsMap.keys nodes).

(** The first cycle of each key, the keys in [seen] apart. *)
Fixpoint first_of_each_key (seen : JsSet.t) (l : list (list string))
  : list (list string) :=
  match l with
  | [] => []
  | c :: l' =>
      if JsSet.has (cycle_key c) seen then first_of_each_key seen l'
      else c :: first_of_each_key (JsSet.add (cycle_key c) seen) l'
  end.

(** *** The rows of a CSV text *)

(** The data rows of a file: the lines after the header, trimmed,
    each with the number of its line (the header is line 1), the blank
    ones left out. *)
Definition numbered_rows (csvText : string) : list (nat * string) :=
  filter (fun r => negb (is_empty (snd r)))
         (combine (seq 2 (List.length (tl (csv_lines csvText))))
                  (map trim (tl (csv_lines csvText)))).

(** The text of a column in a row, as the parser takes it. *)
Definition field_of (csvText name line : string) : string :=
  trim (or_empty (nth_error (parseCSVLine line)
                            (indexOf name (csv_headers csvText)))).

(** What a row gives: its error or its transaction. *)
Definition error_of (o : ParseError + Transaction) : list ParseError :=
  match o with
  | inl e => [e]
  | inr _ => []
  end.

Definition transaction_of (o : ParseError + Transaction) : list Transaction :=
  match o with
  | inl _ => []
  | inr t => [t]
  end.

(** The messages about the timestamp of row [n]. *)
Definition invalid_timestamp (n : nat) (ts : string) : ParseError :=
  mkParseError n
    (String.append "Row "
       (String.append (string_of_nat n)
          (String.append ": Invalid timestamp "
             (String.append (quoted ts) " — must be YYYY-MM-DD HH:MM:SS.")))).

Definition unreadable_timestamp (n : nat) (ts : string) : ParseError :=
  mkParseError n
    (String.append "Row "
       (String.append (string_of_nat n)
          (String.append ": Could not parse timestamp "
             (String.append (quoted ts) ".")))).

(* ================================================================== *)
(** * Properties *)

(** ** Containers *)

Module JsSetFacts.
Import JsSet.

Lemma has_In x s : has x s = true <-> In x s.
Proof.
  induction s as [|y s IH]; simpl.
  - split; [discriminate | tauto].
  - destruct (String.eqb_spec x y) as [->|Hne].
    + split; auto.
    + rewrite IH. split; [auto | intros [E|H]; [congruence | exact H]].
Qed.

Lemma has_false x s : has x s = false <-> ~ In x s.
Proof.
  rewrite <- has_In. destruct (has x s); split; intros; congruence.
Qed.

Lemma has_app x s1 s2 : has x (s1 ++ s2) = has x s1 || has x s2.
Proof.
  induction s1 as [|y s1 IH]; simpl; [reflexivity|].
  destruct (String.eqb x y); auto.
Qed.

Lemma In_add x y s : In x (add y s) <-> x = y \/ In x s.
Proof.
  unfold add. destruct (has y s) eqn:E.
  - apply has_In in E. split; [auto | intros [->|H]; auto].
  - rewrite in_app_iff. simpl. split; intros H.
    + destruct H as [H | [H | []]]; auto.
    + destruct H as [->|H]; auto.
Qed.

Lemma has_add x y s : has x (add y s) = String.eqb x y || has x s.
Proof.
  destruct (has x (add y s)) eqn:E.
  - apply has_In, In_add in E. destruct E as [->|H].
    + now rewrite String.eqb_refl.
    + apply has_In in H. rewrite H. now rewrite orb_true_r.
  - apply has_false in E. rewrite In_add in E.
    destruct (String.eqb_spec x y) as [->|Hne]; [tauto|].
    simpl. symmetry. apply has_false. tauto.
Qed.

Lemma NoDup_add x s : NoDup s -> NoDup (add x s).
Proof.
  intros H. unfold add. destruct (has x s) eqn:E; [exact H|].
  apply has_false in E.
  apply NoDup_rev in H. rewrite <- (rev_involutive (s ++ [x])).
  apply NoDup_rev. rewrite rev_app_distr. simpl. constructor; [|exact H].
  now rewrite <- in_rev.
Qed.

Lemma of_list_acc l : forall s,
  NoDup s ->
  NoDup (fold_left (fun s x => add x s) l s)
  /\ forall x, In x (fold_left (fun s x => add x s) l s) <-> In x s \/ In x l.
Proof.
  induction l as [|y l IH]; intros s Hs; simpl.
  - split; [exact Hs | intros x; tauto].
  - destruct (IH (add y s) (NoDup_add y s Hs)) as [Hn Hi]. split; [exact Hn|].
    intros x. rewrite Hi, In_add.
    split; intros H; repeat destruct H as [H|H]; subst; auto.
Qed.

Lemma NoDup_of_list l : NoDup (of_list l).
Proof. apply of_list_acc. constructor. Qed.

Lemma In_of_list x l : In x (of_list l) <-> In x l.
Proof.
  unfold of_list. destruct (of_list_acc l empty (NoDup_nil _)) as [_ H].
  rewrite H. simpl. tauto.
Qed.
End JsSetFacts.

Module JsMapFacts.
Import JsMap.

Lemma get_set_eq {V} k (v : V) m : get k (set k v m) = Some v.
Proof.
  induction m as [|[k' v'] m IH]; simpl.
  - now rewrite String.eqb_refl.
  - destruct (String.eqb k k') eqn:E; simpl; rewrite E; auto.
Qed.

Lemma get_set_neq {V} k k' (v : V) m : k <> k' -> get k (set k' v m) = get k m.
Proof.
  intros Hne. induction m as [|[k0 v0] m IH]; simpl.
  - apply String.eqb_neq in Hne. now rewrite Hne.
  - destruct (String.eqb_spec k' k0) as [->|Hk]; simpl.
    + destruct (String.eqb_spec k k0); [congruence | reflexivity].
    + destruct (String.eqb k k0); auto.
Qed.

Lemma get_set {V} k k' (v : V) m :
  get k (set k' v m) = if String.eqb k k' then Some v else get k m.
Proof.
  destruct (String.eqb_spec k k') as [->|Hne].
  - apply get_set_eq.
  - now apply get_set_neq.
Qed.

Lemma get_In_keys {V} k (m : t V) : get k m <> None <-> In k (keys m).
Proof.
  induction m as [|[k' v'] m IH]; simpl.
  - split; [congruence | tauto].
  - destruct (String.eqb_spec k k') as [->|Hne].
    + split; [auto | congruence].
    + rewrite IH. split; [auto | intros [E|H]; [congruence | exact H]].
Qed.

Lemma has_In_keys {V} k (m : t V) : has k m = true <-> In k (keys m).
Proof.
  rewrite <- get_In_keys. unfold has.
  destruct (get k m); split; intros; congruence.
Qed.

Lemma keys_set {V} k (v : V) m :
  keys (set k v m) = if has k m then keys m else keys m ++ [k].
Proof.
  unfold has. induction m as [|[k' v'] m IH]; simpl; [reflexivity|].
  destruct (String.eqb_spec k k') as [->|Hne]; simpl; [reflexivity|].
  rewrite IH. destruct (get k m); reflexivity.
Qed.

Lemma In_keys_set {V} x k (v : V) m :
  In x (keys (set k v m)) <-> x = k \/ In x (keys m).
Proof.
  rewrite keys_set. destruct (has k m) eqn:E.
  - apply has_In_keys in E. split; [auto | intros [->|H]; auto].
  - rewrite in_app_iff. simpl. split; intros H.
    + destruct H as [H | [H | []]]; auto.
    + destruct H as [->|H]; auto.
Qed.

Lemma NoDup_keys_set {V} k (v : V) m : NoDup (keys m) -> NoDup (keys (set k v m)).
Proof.
  intros H. rewrite keys_set. destruct (has k m) eqn:E; [exact H|].
  assert (Hn : ~ In k (keys m)).
  { rewrite <- has_In_keys. congruence. }
  apply NoDup_rev in H. rewrite <- (rev_involutive (keys m ++ [k])).
  apply NoDup_rev. rewrite rev_app_distr. simpl. constructor; [|exact H].
  now rewrite <- in_rev.
Qed.

Lemma get_modify {V} k k' (f : V -> V) m :
  get k (modify k' f m)
  = if String.eqb k k' then option_map f (get k m) else get k m.
Proof.
  unfold modify. destruct (String.eqb_spec k k') as [->|Hne].
  - destruct (get k' m) eqn:E; simpl; [apply get_set_eq | exact E].
  - destruct (get k' m); [now apply get_set_neq | reflexivity].
Qed.

Lemma keys_modify {V} k (f : V -> V) m : keys (modify k f m) = keys m.
Proof.
  unfold modify. destruct (get k m) eqn:E; [|reflexivity].
  rewrite keys_set. unfold has. now rewrite E.
Qed.

Lemma In_get {V} k (v : V) m : NoDup (keys m) -> In (k, v) m -> get k m = Some v.
Proof.
  induction m as [|[k' v'] m IH]; simpl; intros Hn Hin; [tauto|].
  inversion Hn as [|? ? Hnotin Hn']; subst.
  destruct Hin as [E|Hin].
  - inversion E; subst. now rewrite String.eqb_refl.
  - destruct (String.eqb_spec k k') as [->|Hne]; [|auto].
    exfalso. apply Hnotin. change (In (fst (k', v)) (map fst m)).
    now apply in_map.
Qed.

Lemma get_In {V} k (v : V) m : get k m = Some v -> In (k, v) m.
Proof.
  induction m as [|[k' v'] m IH]; simpl; [discriminate|].
  destruct (String.eqb_spec k k') as [->|Hne]; intros H.
  - inversion H; auto.
  - auto.
Qed.
End JsMapFacts.

(** ** The CSV parser *)

Lemma parse_row_valid Date_getTime headers rowNum line t :
  parse_row Date_getTime headers rowNum line = inr t ->
  isNaN (amount t) = false
  /\ transaction_id t <> "" /\ sender_id t <> "" /\ receiver_id t <> "".
Proof.
  unfold parse_row. cbv zeta.
  set (field := fun name => trim (or_empty (nth_error (parseCSVLine line)
                                               (indexOf name headers)))).
  change (trim (or_empty (nth_error (parseCSVLine line)
                            (indexOf "transaction_id" headers))))
    with (field "transaction_id").
  change (trim (or_empty (nth_error (parseCSVLine line)
                            (indexOf "sender_id" headers))))
    with (field "sender_id").
  change (trim (or_empty (nth_error (parseCSVLine line)
                            (indexOf "receiver_id" headers))))
    with (field "receiver_id").
  destruct (is_empty (field "transaction_id")) eqn:E1; [discriminate|].
  destruct (is_empty (field "sender_id")) eqn:E2; [discriminate|].
  destruct (is_empty (field "receiver_id")) eqn:E3; [discriminate|].
  cbn [orb].
  destruct (isNaN (parseFloat _)) eqn:E4; [discriminate|].
  destruct (TIMESTAMP_REGEX_test _); cbn [negb]; [|discriminate].
  destruct (Date_getTime _); [|discriminate].
  intros H. inversion H; subst; clear H. cbn [amount transaction_id sender_id receiver_id].
  repeat split; try assumption; intros E; rewrite E in *; discriminate.
Qed.

Lemma parse_rows_valid Date_getTime (P : Transaction -> Prop) headers :
  (forall rowNum line t,
      parse_row Date_getTime headers rowNum line = inr t -> P t) ->
  forall rows i res,
    Forall P (parsed res) ->
    Forall P (parsed (parse_rows Date_getTime headers i rows res)).
Proof.
  intros HP rows. induction rows as [|l rows IH]; intros i res Hres; simpl.
  - exact Hres.
  - destruct (is_empty (trim l)); [now apply IH|].
    destruct (parse_row Date_getTime headers (i + 1) (trim l)) as [err|t] eqn:E.
    + now apply IH.
    + apply IH. simpl. apply Forall_app. split; [exact Hres|].
      constructor; [|constructor]. eapply HP, E.
Qed.

(** C9 (as amended): whatever the CSV text, every Transaction in the
    parse result has an amount that is a number (not NaN) and non-empty
    transaction, sender and receiver ids.  The parser checks nothing
    about the sign of the amount. *)
Theorem parseCSV_amount_is_a_number Date_getTime csvText :
  Forall (fun t => isNaN (amount t) = false
                   /\ transaction_id t <> "" /\ sender_id t <> ""
                   /\ receiver_id t <> "")
         (parsed (parseCSV Date_getTime csvText)).
Proof.
  unfold parseCSV.
  destruct (List.length (split newline (trim csvText)) <? 2); [constructor|].
  match goal with |- context [0 <? List.length ?e] =>
    destruct (0 <? List.length e) end; [constructor|].
  apply parse_rows_valid; [|constructor].
  intros rowNum line t. apply parse_row_valid.
Qed.

(** C9 fails as stated: a well-formed row with amount -5 is emitted as
    a Transaction with a negative amount, and no error is reported. *)
Lemma parseCSV_emits_negative_amount :
  exists t,
    In t (parsed (parseCSV utc_getTime negative_amount_csv))
    /\ amount_negative (amount t) = true
    /\ errors (parseCSV utc_getTime negative_amount_csv) = [].
Proof.
  exists (mkTransaction "T1" "A" "B" (JsFinite (-5)) 1705312800000).
  vm_compute. repeat split. now left.
Qed.

(** The amount is the double nearest to the decimal written: an
    integer beyond 2^53 is rounded, a value beyond the largest double
    is [Infinity] and one below half the smallest is zero. *)
Example parseFloat_rounds_to_binary64 :
  parseFloat "9007199254740993" = JsFinite 9007199254740992
  /\ parseFloat "0.1" = JsFinite (3602879701896397 # 36028797018963968)
  /\ parseFloat "1.7976931348623157e308"
     = JsFinite (inject_Z ((2 ^ 53 - 1) * 2 ^ 971))
  /\ parseFloat "1e400" = JsInfinity false
  /\ parseFloat "-1e400" = JsInfinity true
  /\ parseFloat "1e-400" = JsFinite 0
  /\ parseFloat "12abc" = JsFinite 12
  /\ parseFloat "abc" = JsNaN.
Proof.
  do 7 (split; [vm_compute; reflexivity|]). vm_compute. reflexivity.
Qed.

(** ** Scenarios of the shell-chain detector *)

(** C2 at the input A -> B -> C (one transaction per hop): the detector
    reports the chain [A; B; C], which has three accounts and two hops. *)
Theorem shell_chain_of_two_hops :
  detectShellNetworks (buildGraph two_hops) = [["A"; "B"; "C"]]
  /\ tx_count "B" two_hops = 2.
Proof. vm_compute. split; reflexivity. Qed.

(** C3 at the chain A -> B -> C -> D with A and D busy (four
    transactions each) and B, C with two each: the only chain reported
    is [B; C; D]; A is not flagged at all, B scores 20 as an end point,
    C scores 35 as the intermediary and D scores 20. *)
Theorem shell_chain_busy_ends :
  map (fun a => tx_count a busy_ends) ["A"; "B"; "C"; "D"] = [4; 2; 2; 4]
  /\ detectShellNetworks (buildGraph busy_ends) = [["B"; "C"; "D"]]
  /\ map account_view (suspicious_accounts (runDetection busy_ends))
     = [("C", 35%Q, ["shell_intermediary"]);
        ("B", 20%Q, ["shell_chain"]);
        ("D", 20%Q, ["shell_chain"])].
Proof. vm_compute. repeat split; reflexivity. Qed.

(** ** The order on account ids *)

Module StringOrder.
Lemma ascii_compare_N a b :
  Ascii.compare a b = N.compare (N_of_ascii a) (N_of_ascii b).
Proof. reflexivity. Qed.

Lemma ascii_compare_lt_trans a b c :
  Ascii.compare a b = Lt -> Ascii.compare b c = Lt -> Ascii.compare a c = Lt.
Proof.
  rewrite !ascii_compare_N, !N.compare_lt_iff. apply N.lt_trans.
Qed.

Lemma compare_lt_trans s1 : forall s2 s3,
  String.compare s1 s2 = Lt -> String.compare s2 s3 = Lt ->
  String.compare s1 s3 = Lt.
Proof.
  induction s1 as [|a s1 IH]; intros [|b s2] [|c s3]; simpl;
    try discriminate; auto.
  destruct (Ascii.compare a b) eqn:Eab; try discriminate;
    destruct (Ascii.compare b c) eqn:Ebc; try discriminate; intros H1 H2.
  - apply Ascii.compare_eq_iff in Eab, Ebc. subst.
    replace (Ascii.compare c c) with Eq; [eauto|].
    symmetry. rewrite ascii_compare_N. apply N.compare_refl.
  - apply Ascii.compare_eq_iff in Eab. subst. now rewrite Ebc.
  - apply Ascii.compare_eq_iff in Ebc. subst. now rewrite Eab.
  - now rewrite (ascii_compare_lt_trans a b c).
Qed.

Lemma ltb_trans s1 s2 s3 :
  String.ltb s1 s2 = true -> String.ltb s2 s3 = true -> String.ltb s1 s3 = true.
Proof.
  unfold String.ltb. intros H1 H2.
  destruct (String.compare s1 s2) eqn:E1; try discriminate.
  destruct (String.compare s2 s3) eqn:E2; try discriminate.
  now rewrite (compare_lt_trans s1 s2 s3).
Qed.

Lemma ltb_asym s1 s2 : String.ltb s1 s2 = true -> String.ltb s2 s1 = false.
Proof.
  unfold String.ltb. rewrite (String.compare_antisym s1 s2).
  destruct (String.compare s2 s1); simpl; congruence.
Qed.

(** Neither is below the other: they are the same string. *)
Lemma ltb_total s1 s2 :
  String.ltb s1 s2 = false -> String.ltb s2 s1 = false -> s1 = s2.
Proof.
  unfold String.ltb. intros H1 H2.
  apply String.compare_eq_iff.
  rewrite (String.compare_antisym s2 s1) in H2.
  destruct (String.compare s1 s2); simpl in *; congruence.
Qed.

(** Not below a lower bound of [b]: not below [b]'s predecessors. *)
Lemma ltb_neg_trans x a b :
  String.ltb x a = false -> String.ltb a b = false -> String.ltb x b = false.
Proof.
  intros H1 H2. destruct (String.ltb x b) eqn:E; [|reflexivity].
  destruct (String.ltb b a) eqn:Eba.
  - now rewrite (ltb_trans x b a E Eba) in H1.
  - rewrite (ltb_total a b H2 Eba) in H1. congruence.
Qed.
End StringOrder.

(** ** The cycle detector *)

Lemma fold_left_inv {A B} (P : A -> Prop) (f : A -> B -> A) l :
  (forall a b, P a -> P (f a b)) -> forall a, P a -> P (fold_left f l a).
Proof.
  intros Hf. induction l as [|b l IH]; simpl; auto.
Qed.

Lemma fold_left_pointwise {A B} (f g : A -> B -> A) l :
  (forall a b, f a b = g a b) -> forall a, fold_left f l a = fold_left g l a.
Proof.
  intros Hfg. induction l as [|b l IH]; simpl; intros a; [reflexivity|].
  now rewrite Hfg, IH.
Qed.

Section ReduceMin.
Import StringOrder.

Let pick (a b : string) : string := if String.ltb a b then a else b.

Lemma fold_min_spec xs : forall acc,
  let m := fold_left pick xs acc in
  In m (acc :: xs)
  /\ String.ltb acc m = false
  /\ forall x, In x xs -> String.ltb x m = false.
Proof.
  induction xs as [|b xs IH]; intros acc; simpl.
  - repeat split; auto.
    + destruct (String.ltb acc acc) eqn:E; [|reflexivity].
      now rewrite (ltb_asym _ _ E) in E.
    + tauto.
  - destruct (IH (pick acc b)) as (Hin & Hacc & Hall).
    unfold pick in *. destruct (String.ltb acc b) eqn:E.
    + repeat split.
      * destruct Hin as [Hin|Hin]; auto.
      * exact Hacc.
      * intros x [<-|Hx]; [|auto].
        apply (ltb_neg_trans _ acc); [now apply ltb_asym | exact Hacc].
    + repeat split.
      * destruct Hin as [Hin|Hin]; auto.
      * apply (ltb_neg_trans _ b); assumption.
      * intros x [<-|Hx]; auto.
Qed.

Lemma reduce_min_spec l :
  l <> [] ->
  In (reduce_min l) l /\ forall x, In x l -> String.ltb x (reduce_min l) = false.
Proof.
  destruct l as [|a xs]; [congruence|]. intros _. unfold reduce_min.
  destruct (fold_min_spec xs a) as (Hin & Hacc & Hall).
  split; [exact Hin|]. intros x [<-|Hx]; auto.
Qed.

(** The minimum only depends on the set of elements. *)
Lemma reduce_min_same_elements l1 l2 :
  l1 <> [] -> (forall x, In x l1 <-> In x l2) -> reduce_min l1 = reduce_min l2.
Proof.
  intros Hne Hsame.
  assert (Hne2 : l2 <> []).
  { destruct l1 as [|a l1]; [congruence|]. intros ->.
    apply (proj1 (Hsame a)). now left. }
  destruct (reduce_min_spec l1 Hne) as [Hin1 Hmin1].
  destruct (reduce_min_spec l2 Hne2) as [Hin2 Hmin2].
  apply ltb_total.
  - apply Hmin2. now apply Hsame.
  - apply Hmin1. now apply Hsame.
Qed.
End ReduceMin.

Lemma indexOf_app_first m p q : ~ In m p -> indexOf m (p ++ m :: q) = List.length p.
Proof.
  induction p as [|y p IH]; simpl; intros Hn.
  - now rewrite String.eqb_refl.
  - destruct (String.eqb_spec m y) as [->|Hne]; [tauto|].
    f_equal. apply IH. tauto.
Qed.

(** Rotating to the first occurrence of the minimum. *)
Lemma normalize_at m p q :
  reduce_min (p ++ m :: q) = m -> ~ In m p -> normalize (p ++ m :: q) = m :: q ++ p.
Proof.
  intros Hmin Hn. unfold normalize. rewrite Hmin, indexOf_app_first by exact Hn.
  rewrite skipn_app, firstn_app, Nat.sub_diag, skipn_all, firstn_all. simpl.
  now rewrite app_nil_r.
Qed.

Lemma normalize_rotation l1 l2 :
  NoDup l1 -> l1 <> [] -> is_rotation l1 l2 -> normalize l1 = normalize l2.
Proof.
  intros Hnd Hne (a & b & -> & ->).
  assert (Hsame : forall x, In x (a ++ b) <-> In x (b ++ a)).
  { intros x. rewrite !in_app_iff. tauto. }
  pose proof (reduce_min_same_elements _ _ Hne Hsame) as Hmin.
  destruct (reduce_min_spec _ Hne) as [Hin _].
  remember (reduce_min (a ++ b)) as m eqn:Hm.
  symmetry in Hm, Hmin.
  apply in_app_or in Hin. destruct Hin as [Hin|Hin].
  - apply in_split in Hin. destruct Hin as (p & q & ->).
    assert (E1 : (p ++ m :: q) ++ b = p ++ m :: (q ++ b))
      by now rewrite <- app_assoc.
    assert (E2 : b ++ p ++ m :: q = (b ++ p) ++ m :: q)
      by now rewrite <- app_assoc.
    rewrite E1 in *. rewrite E2 in *.
    pose proof (NoDup_remove_2 _ _ _ Hnd) as Hnot.
    rewrite !in_app_iff in Hnot.
    rewrite (normalize_at m p (q ++ b)); [|exact Hm|tauto].
    rewrite (normalize_at m (b ++ p) q); [|exact Hmin|rewrite in_app_iff; tauto].
    now rewrite !app_assoc.
  - apply in_split in Hin. destruct Hin as (p & q & ->).
    assert (E1 : a ++ p ++ m :: q = (a ++ p) ++ m :: q) by now rewrite <- app_assoc.
    assert (E2 : (p ++ m :: q) ++ a = p ++ m :: (q ++ a)) by now rewrite <- app_assoc.
    rewrite E1 in *. rewrite E2 in *.
    pose proof (NoDup_remove_2 _ _ _ Hnd) as Hnot.
    rewrite !in_app_iff in Hnot.
    rewrite (normalize_at m (a ++ p) q); [|exact Hm|rewrite in_app_iff; tauto].
    rewrite (normalize_at m p (q ++ a)); [|exact Hmin|tauto].
    now rewrite !app_assoc.
Qed.

Lemma NoDup_snoc {A} (x : A) l : NoDup l -> ~ In x l -> NoDup (l ++ [x]).
Proof.
  intros Hnd Hn. apply NoDup_rev in Hnd. rewrite <- (rev_involutive (_ ++ _)).
  apply NoDup_rev. rewrite rev_app_distr. simpl.
  constructor; [|exact Hnd]. now rewrite <- in_rev.
Qed.

Lemma record_cycle_inv path st :
  NoDup path -> 3 <= List.length path <= 5 ->
  cycle_inv st -> cycle_inv (record_cycle path st).
Proof.
  intros Hnd Hlen (Hall & Hkeys & Huniq). unfold record_cycle.
  destruct (JsSet.has (cycle_key path) (allCycleStrings st)) eqn:E.
  - now repeat split.
  - apply JsSetFacts.has_false in E. repeat split; simpl.
    + apply Forall_app. split; [exact Hall|].
      apply Forall_cons; [now split | apply Forall_nil].
    + intros c Hc. apply JsSetFacts.In_add.
      apply in_app_or in Hc. destruct Hc as [Hc|[<-|[]]]; auto.
    + rewrite map_app. simpl.
      apply NoDup_snoc; [exact Huniq|].
      intros Hin. apply in_map_iff in Hin.
      destruct Hin as (c & Hk & Hc). apply E. rewrite <- Hk. now apply Hkeys.
Qed.

(** One unfolding of the search. *)
Lemma cycle_dfs_eq depth nodes start current path visited st :
  cycle_dfs depth nodes start current path visited st
  = match JsMap.get current nodes with
    | None => st
    | Some node =>
        fold_left
          (fun st neighbor =>
             if String.eqb neighbor start && (3 <=? List.length path)
                && (List.length path <=? 5)
             then record_cycle path st
             else if negb (JsSet.has neighbor visited) && (List.length path <? 5)
             then match depth with
                  | 0 => st
                  | S d => cycle_dfs d nodes start neighbor (path ++ [neighbor])
                                     (JsSet.add neighbor visited) st
                  end
             else st)
          (JsMap.keys (outEdges node)) st
    end.
Proof. destruct depth; reflexivity. Qed.

Lemma cycle_dfs_inv nodes start depth : forall current path visited st,
  NoDup path -> (forall x, In x path -> In x visited) ->
  cycle_inv st -> cycle_inv (cycle_dfs depth nodes start current path visited st).
Proof.
  induction depth as [|d IH]; intros current path visited st Hnd Hvis Hst;
    rewrite cycle_dfs_eq;
    destruct (JsMap.get current nodes) as [node|]; auto;
    apply fold_left_inv; auto; clear Hst st; intros st neighbor Hst;
    (destruct (String.eqb neighbor start && (3 <=? List.length path)
               && (List.length path <=? 5)) eqn:E;
     [ apply andb_prop in E; destruct E as [E E5]; apply andb_prop in E;
       destruct E as [_ E3]; apply Nat.leb_le in E3, E5;
       apply record_cycle_inv; auto | ]);
    destruct (negb (JsSet.has neighbor visited) && (List.length path <? 5)) eqn:E2;
    auto.
  apply andb_prop in E2. destruct E2 as [Hnew _].
  apply negb_true_iff, JsSetFacts.has_false in Hnew.
  apply IH; auto.
  - apply NoDup_snoc; auto.
  - intros x Hx. apply JsSetFacts.In_add.
    apply in_app_or in Hx. destruct Hx as [Hx|[<-|[]]]; auto.
Qed.

Lemma detectCycles_inv nodes :
  Forall (fun c => NoDup c /\ 3 <= List.length c <= 5) (detectCycles nodes)
  /\ NoDup (map cycle_key (detectCycles nodes)).
Proof.
  unfold detectCycles.
  assert (H : cycle_inv
    (fold_left
       (fun st nodeId =>
          cycle_dfs 5 nodes nodeId nodeId [nodeId] (JsSet.of_list [nodeId]) st)
       (JsMap.keys nodes) (mkCycleState [] JsSet.empty))).
  { apply fold_left_inv.
    - intros st nodeId Hst. apply cycle_dfs_inv; [| |exact Hst].
      + repeat constructor. simpl. tauto.
      + intros x Hx. now apply JsSetFacts.In_of_list.
    - split; [constructor|]. split; [simpl; tauto | constructor]. }
  destruct H as (H1 & _ & H3). now split.
Qed.

(** The recursion budget of the cycle search is never what stops it:
    with [5 <= depth + path.length] a larger budget changes nothing. *)
Lemma cycle_dfs_budget nodes start depth : forall current path visited st,
  5 <= depth + List.length path ->
  cycle_dfs (S depth) nodes start current path visited st
  = cycle_dfs depth nodes start current path visited st.
Proof.
  induction depth as [|d IH]; intros current path visited st Hlen;
    rewrite (cycle_dfs_eq (S _)), (cycle_dfs_eq _ nodes start current);
    (destruct (JsMap.get current nodes); [|reflexivity]);
    apply fold_left_pointwise; intros st' neighbor;
    (destruct (_ && _ && _); [reflexivity|]);
    destruct (List.length path <? 5) eqn:E;
    rewrite ?andb_false_r, ?andb_true_r; try reflexivity;
    destruct (negb _); try reflexivity.
  - apply Nat.ltb_lt in E. simpl in Hlen. lia.
  - apply IH. rewrite length_app. simpl. lia.
Qed.

Lemma NoDup_map_outer {A B C} (f : A -> B) (g : B -> C) l :
  NoDup (map (fun x => g (f x)) l) -> NoDup (map f l).
Proof.
  induction l as [|x l IH]; simpl; intros H; [constructor|].
  inversion H as [|? ? Hn Hd]; subst. constructor; [|auto].
  intros Hin. apply Hn. apply in_map_iff in Hin. destruct Hin as (y & Hy & Hin).
  apply in_map_iff. exists y. split; [now rewrite Hy | exact Hin].
Qed.

Lemma distinct_keys_no_rotation cs :
  Forall (fun c => NoDup c /\ 3 <= List.length c <= 5) cs ->
  NoDup (map cycle_key cs) ->
  ForallOrdPairs (fun c1 c2 => ~ is_rotation c1 c2) cs.
Proof.
  induction cs as [|c cs IH]; intros Hall Hnd; [constructor|].
  inversion Hall as [|? ? [Hc Hlen] Hall']; subst.
  inversion Hnd as [|? ? Hn Hnd']; subst.
  constructor; [|auto].
  apply Forall_forall. intros c2 Hc2 Hrot. apply Hn.
  apply in_map_iff. exists c2. split; [|exact Hc2].
  unfold cycle_key. f_equal. symmetry. apply normalize_rotation; auto.
  intros ->. simpl in Hlen. lia.
Qed.

(** Every cycle reported by the cycle detector is made of 3 to 5
    distinct accounts; no reported cycle is a rotation of another one;
    and no two reported cycles share a canonical form (the rotation
    that puts the smallest account id first). *)
Lemma detectCycles_bounded_and_rotation_free nodes :
  Forall (fun c => NoDup c /\ 3 <= List.length c <= 5) (detectCycles nodes)
  /\ ForallOrdPairs (fun c1 c2 => ~ is_rotation c1 c2 /\ ~ is_rotation c2 c1)
       (detectCycles nodes)
  /\ NoDup (map normalize (detectCycles nodes)).
Proof.
  destruct (detectCycles_inv nodes) as [Hall Hkeys]. split; [exact Hall|]. split.
  - pose proof (distinct_keys_no_rotation _ Hall Hkeys) as H.
    induction H as [|c cs Hc Hcs IH]; [constructor|].
    inversion Hall; subst. inversion Hkeys; subst.
    constructor; [|auto].
    apply Forall_forall. intros c2 Hc2.
    split; [exact (proj1 (Forall_forall _ _) Hc c2 Hc2)|].
    intros (a & b & -> & ->). apply (proj1 (Forall_forall _ _) Hc _ Hc2).
    now exists b, a.
  - exact (NoDup_map_outer normalize (join ",") _ Hkeys).
Qed.

(** ** The cycles the search finds and the ones it keeps *)

Lemma fold_left_flat_map {A B C} (g : A -> C -> A) (h : B -> list C) l :
  forall a,
    fold_left (fun a b => fold_left g (h b) a) l a = fold_left g (flat_map h l) a.
Proof.
  induction l as [|b l IH]; intros a; simpl; [reflexivity|].
  now rewrite fold_left_app, IH.
Qed.

Lemma cycle_dfs_hits depth nodes start : forall current path visited st,
  cycle_dfs depth nodes start current path visited st
  = fold_left (fun st c => record_cycle c st)
              (cycle_hits depth nodes start current path visited) st.
Proof.
  induction depth as [|d IH]; intros current path visited st;
    rewrite cycle_dfs_eq; cbn [cycle_hits];
    (destruct (JsMap.get current nodes) as [node|]; [|reflexivity]);
    rewrite <- fold_left_flat_map; apply fold_left_pointwise;
    intros st' neighbor;
    (destruct (_ && _ && _); [reflexivity|]);
    (destruct (_ && _); [|reflexivity]).
  - reflexivity.
  - apply IH.
Qed.

Lemma record_all l : forall st,
  cycles (fold_left (fun st c => record_cycle c st) l st)
  = cycles st ++ first_of_each_key (allCycleStrings st) l.
Proof.
  induction l as [|c l IH]; intros st; simpl; [now rewrite app_nil_r|].
  rewrite IH. unfold record_cycle. cbv zeta.
  destruct (JsSet.has (cycle_key c) (allCycleStrings st)); [reflexivity|].
  cbn [cycles allCycleStrings]. now rewrite <- app_assoc.
Qed.

(** The detector reports the cycles the search finds, in the order it
    finds them, each one unless an earlier one has its key. *)
Lemma detectCycles_first_of_each_key nodes :
  detectCycles nodes = first_of_each_key JsSet.empty (found_cycles nodes).
Proof.
  unfold detectCycles, found_cycles.
  rewrite (fold_left_pointwise _
             (fun st nodeId =>
                fold_left (fun st c => record_cycle c st)
                  (cycle_hits 5 nodes nodeId nodeId [nodeId] (JsSet.of_list [nodeId]))
                  st))
    by (intros st nodeId; apply cycle_dfs_hits).
  rewrite fold_left_flat_map, record_all. reflexivity.
Qed.

Lemma first_of_each_key_In c l : forall seen,
  In c (first_of_each_key seen l) ->
  In c l /\ JsSet.has (cycle_key c) seen = false.
Proof.
  induction l as [|x l IH]; intros seen H; simpl in H; [contradiction|].
  destruct (JsSet.has (cycle_key x) seen) eqn:E.
  - destruct (IH _ H) as (H1 & H2). split; [now right | exact H2].
  - destruct H as [->|H]; [split; [now left | exact E]|].
    destruct (IH _ H) as (H1 & H2). split; [now right|].
    rewrite JsSetFacts.has_add in H2. now apply orb_false_iff in H2.
Qed.

(** A found cycle is kept exactly when no cycle found before it has
    its key. *)
Lemma first_of_each_key_kept c l1 l2 : forall seen,
  JsSet.has (cycle_key c) seen = false ->
  (forall c', In c' l1 -> cycle_key c' <> cycle_key c) ->
  exists k1 k2,
    first_of_each_key seen (l1 ++ c :: l2) = k1 ++ c :: k2
    /\ incl k1 l1 /\ incl k2 l2.
Proof.
  induction l1 as [|x l1 IH]; intros seen Hseen Hnew; simpl.
  - rewrite Hseen. exists [], (first_of_each_key (JsSet.add (cycle_key c) seen) l2).
    split; [reflexivity|]. split; [intros y []|].
    intros y Hy. now apply first_of_each_key_In in Hy.
  - assert (Hx : cycle_key x <> cycle_key c) by (apply Hnew; now left).
    assert (Hnew' : forall c', In c' l1 -> cycle_key c' <> cycle_key c)
      by (intros c' Hc'; apply Hnew; now right).
    destruct (JsSet.has (cycle_key x) seen).
    + destruct (IH seen Hseen Hnew') as (k1 & k2 & E & H1 & H2).
      exists k1, k2. split; [exact E|]. split; [|exact H2].
      intros y Hy. right. now apply H1.
    + destruct (IH (JsSet.add (cycle_key x) seen)) as (k1 & k2 & E & H1 & H2).
      * rewrite JsSetFacts.has_add, Hseen, orb_false_r.
        apply String.eqb_neq. congruence.
      * exact Hnew'.
      * exists (x :: k1), k2. split; [simpl; now rewrite E|]. split; [|exact H2].
        intros y [->|Hy]; [now left | right; now apply H1].
Qed.

Lemma first_of_each_key_dropped c l1 l2 c' : forall seen,
  In c' l1 -> cycle_key c' = cycle_key c ->
  first_of_each_key seen (l1 ++ c :: l2) = first_of_each_key seen (l1 ++ l2).
Proof.
  induction l1 as [|x l1 IH]; intros seen Hin Hk; [contradiction|].
  simpl. destruct (JsSet.has (cycle_key x) seen) eqn:E.
  - destruct Hin as [->|Hin]; [|now apply IH].
    clear IH. revert seen E. induction l1 as [|y l1 IH]; intros seen E; simpl.
    + now rewrite <- Hk, E.
    + destruct (JsSet.has (cycle_key y) seen); [now apply IH|].
      f_equal. apply IH. rewrite JsSetFacts.has_add, E. apply orb_true_r.
  - f_equal. destruct Hin as [->|Hin]; [|now apply IH].
    clear IH.
    assert (E' : JsSet.has (cycle_key c') (JsSet.add (cycle_key c') seen) = true)
      by (rewrite JsSetFacts.has_add, String.eqb_refl; reflexivity).
    revert E'. generalize (JsSet.add (cycle_key c') seen). clear E seen.
    induction l1 as [|y l1 IH]; intros seen E; simpl.
    + now rewrite <- Hk, E.
    + destruct (JsSet.has (cycle_key y) seen); [now apply IH|].
      f_equal. apply IH. rewrite JsSetFacts.has_add, E. apply orb_true_r.
Qed.

(** [sends txs a b] by a transaction of a listed scenario. *)
Ltac sends_among l :=
  lazymatch l with
  | ?t :: ?rest =>
      first [ solve [exists t; split; [simpl; auto 10 | split; reflexivity]]
            | sends_among rest ]
  end.

Ltac sends_by txs := let l := eval unfold txs in txs in sends_among l.

(** C8 at a file with the account ids [A], [B], [C], [D] and [B,C] (a
    quoted field): money goes round A -> B,C -> D -> A and round
    A -> B -> C -> D -> A, two cycles of three and of four distinct
    accounts that are not rotations of one another and whose canonical
    forms differ; both forms are joined to the key [A,B,C,D], so the
    search, which finds both, keeps the first and drops the second as
    a repeat.  The cycle through B and C is not reported, in no
    rotation, and the run has no cycle ring for it. *)
Theorem detectCycles_drops_a_cycle_with_a_colliding_key :
  parseCSV utc_getTime comma_ids_csv = mkParseResult comma_ids []
  /\ flow comma_ids ["A"; "B,C"; "D"; "A"]
  /\ flow comma_ids ["A"; "B"; "C"; "D"; "A"]
  /\ found_cycles (buildGraph comma_ids)
     = [ ["A"; "B,C"; "D"]; ["A"; "B"; "C"; "D"];
         ["B,C"; "D"; "A"]; ["D"; "A"; "B,C"]; ["D"; "A"; "B"; "C"];
         ["B"; "C"; "D"; "A"]; ["C"; "D"; "A"; "B"] ]
  /\ normalize ["A"; "B,C"; "D"] = ["A"; "B,C"; "D"]
  /\ normalize ["A"; "B"; "C"; "D"] = ["A"; "B"; "C"; "D"]
  /\ cycle_key ["A"; "B,C"; "D"] = "A,B,C,D"
  /\ cycle_key ["A"; "B"; "C"; "D"] = "A,B,C,D"
  /\ detectCycles (buildGraph comma_ids) = [["A"; "B,C"; "D"]]
  /\ map member_accounts
       (filter (fun r => String.eqb (pattern_type r) "cycle")
               (fraud_rings (runDetection comma_ids)))
     = [["A"; "B,C"; "D"]].
Proof.
  split; [vm_compute; reflexivity|].
  split; [cbn [flow]; repeat split; sends_by comma_ids|].
  split; [cbn [flow]; repeat split; sends_by comma_ids|].
  repeat split; vm_compute; reflexivity.
Qed.

(** ** Sorting *)

Section StableSortFacts.
Context {A : Type} (gt : A -> A -> bool).

Lemma sort_insert_perm x l : Permutation (sort_insert gt x l) (x :: l).
Proof.
  induction l as [|y l IH]; simpl; [reflexivity|].
  destruct (gt x y); [|reflexivity].
  rewrite IH. apply perm_swap.
Qed.

Lemma stable_sort_perm l : Permutation (stable_sort gt l) l.
Proof.
  induction l as [|x l IH]; simpl; [reflexivity|].
  rewrite sort_insert_perm. now constructor.
Qed.

Lemma stable_sort_In x l : In x (stable_sort gt l) <-> In x l.
Proof.
  split; apply Permutation_in;
    [apply stable_sort_perm | symmetry; apply stable_sort_perm].
Qed.

Lemma stable_sort_length l : List.length (stable_sort gt l) = List.length l.
Proof. apply Permutation_length, stable_sort_perm. Qed.
End StableSortFacts.

Lemma sort_insert_time x l :
  StronglySorted (fun a b => (timestamp a <= timestamp b)%Z) l ->
  StronglySorted (fun a b => (timestamp a <= timestamp b)%Z)
                        (sort_insert later x l).
Proof.
  induction l as [|y l IH]; simpl; intros Hs.
  - repeat constructor.
  - inversion Hs as [|? ? Hs' Hy]; subst. unfold later at 1.
    destruct (timestamp x - timestamp y >? 0)%Z eqn:E.
    + constructor; [auto|].
      apply (Permutation_Forall (Permutation_sym (sort_insert_perm later x l))).
      constructor; [lia | exact Hy].
    + constructor; [exact Hs|]. constructor; [lia|].
      eapply Forall_impl; [|exact Hy]. simpl. intros; lia.
Qed.

Lemma sort_by_time_sorted l :
  StronglySorted (fun a b => (timestamp a <= timestamp b)%Z) (sort_by_time l).
Proof.
  induction l as [|x l IH]; simpl; [constructor|]. now apply sort_insert_time.
Qed.

Lemma strongly_sorted_time l :
  StronglySorted (fun a b => (timestamp a <= timestamp b)%Z) l ->
  time_sorted l.
Proof.
  induction 1 as [|x l Hs IH Hx]; intros i j Hij Hj; simpl in Hj; [lia|].
  destruct i as [|i], j as [|j]; unfold time_at; simpl; try lia.
  - destruct (nth_error l j) as [t|] eqn:E.
    + apply nth_error_In in E. exact (proj1 (Forall_forall _ _) Hx t E).
    + apply nth_error_None in E. lia.
  - apply (IH i j); lia.
Qed.

Lemma sort_by_time_time_sorted l : time_sorted (sort_by_time l).
Proof. apply strongly_sorted_time, sort_by_time_sorted. Qed.

(** ** The sliding window *)

Lemma In_slice {A} a b (l : list A) x :
  In x (slice a b l) <-> exists i, a <= i < b /\ nth_error l i = Some x.
Proof.
  unfold slice. split.
  - intros H. apply In_nth_error in H. destruct H as [k Hk].
    rewrite nth_error_firstn in Hk.
    destruct (k <? b - a) eqn:E; [|discriminate]. apply Nat.ltb_lt in E.
    rewrite nth_error_skipn in Hk. exists (a + k). split; [lia | exact Hk].
  - intros (i & Hi & Hx). apply (nth_error_In _ (i - a)).
    rewrite nth_error_firstn.
    replace (i - a <? b - a) with true by (symmetry; apply Nat.ltb_lt; lia).
    rewrite nth_error_skipn. now replace (a + (i - a)) with i by lia.
Qed.

Lemma distinct_count_incl l1 l2 :
  incl l1 l2 -> distinct_count l1 <= distinct_count l2.
Proof.
  intros H. unfold distinct_count. apply NoDup_incl_length.
  - apply NoDup_nodup.
  - intros x Hx. apply nodup_In. apply H. now apply nodup_In in Hx.
Qed.

Lemma size_of_list l : JsSet.size (JsSet.of_list l) = distinct_count l.
Proof.
  unfold JsSet.size, distinct_count. apply Nat.le_antisymm; apply NoDup_incl_length.
  - apply JsSetFacts.NoDup_of_list.
  - intros x Hx. apply nodup_In. now apply JsSetFacts.In_of_list.
  - apply NoDup_nodup.
  - intros x Hx. apply JsSetFacts.In_of_list. now apply nodup_In in Hx.
Qed.

Section Window.
Variable window : Z.
Hypothesis window_nonneg : (0 <= window)%Z.
Variable sorted : list Transaction.

(** The [while] loop stops by its own condition, with [left] on the
    earliest transaction that is still within the window of
    [sorted[right]]. *)
Lemma advance_left_spec fuel : forall r l,
  l <= r -> r - l < fuel ->
  (forall i, i < l -> (time_at sorted r - time_at sorted i > window)%Z) ->
  let l' := advance_left fuel window sorted r l in
  l <= l' <= r
  /\ (time_at sorted r - time_at sorted l' <= window)%Z
  /\ (forall i, i < l' -> (time_at sorted r - time_at sorted i > window)%Z).
Proof.
  induction fuel as [|fuel IH]; intros r l Hlr Hfuel Hold; [lia|]. simpl.
  destruct (time_at sorted r - time_at sorted l >? window)%Z eqn:E.
  - assert (Hlt : l < r).
    { destruct (Nat.eq_dec l r) as [->|]; [|lia].
      rewrite Z.sub_diag in E. lia. }
    destruct (IH r (S l)) as (H1 & H2 & H3); try lia.
    + intros i Hi. destruct (Nat.eq_dec i l) as [->|]; [lia|]. apply Hold. lia.
    + repeat split; auto; lia.
  - repeat split; auto; lia.
Qed.
End Window.

Lemma SMURF_WINDOW_nonneg : (0 <= SMURF_WINDOW_MS)%Z.
Proof. unfold SMURF_WINDOW_MS. lia. Qed.

Section SmurfScan.
Variable party : Transaction -> string.
Variable sorted : list Transaction.
Hypothesis sorted_by_time : time_sorted sorted.

Let T := time_at sorted.
Let too_old (r l : nat) : Prop :=
  forall i, i < l -> (T r - T i > SMURF_WINDOW_MS)%Z.

Lemma too_old_next r l : S r < List.length sorted -> too_old r l -> too_old (S r) l.
Proof.
  intros Hr Hold i Hi. specialize (Hold i Hi).
  assert (T r <= T (S r))%Z by (apply sorted_by_time; lia). lia.
Qed.


(** A [break] happens the first time the count reaches ten, so with
exactly ten counterparties: moving [right] by one adds at most one. *)
Lemma smurf_scan_ten k : forall r0 l0 u,
  smurf_scan party sorted (seq r0 k) l0 = Some u ->
  l0 <= r0 -> r0 + k <= List.length sorted -> too_old r0 l0 ->
  distinct_count (map party (slice l0 r0 sorted)) < SMURF_THRESHOLD ->
  List.length u = SMURF_THRESHOLD.
Proof.
  induction k as [|k IH]; intros r0 l0 u Hscan Hl Hn Hold Hprev; [discriminate|].
  cbn [smurf_scan seq] in Hscan.
  destruct (advance_left_spec SMURF_WINDOW_MS SMURF_WINDOW_nonneg sorted
              (S r0) r0 l0 Hl ltac:(lia) Hold) as (Hl' & Hin & Hold').
  set (l' := advance_left (S r0) SMURF_WINDOW_MS sorted r0 l0) in *.
  destruct (SMURF_THRESHOLD <=? _) eqn:E.
  - apply Nat.leb_le in E. inversion Hscan; subst u; clear Hscan.
    fold (JsSet.size (JsSet.of_list (map party (slice l' (r0 + 1) sorted)))).
    apply Nat.le_antisymm; [|exact E].
    rewrite size_of_list.
    destruct (nth_error sorted r0) as [x0|] eqn:Hx0;
      [|apply nth_error_None in Hx0; lia].
    apply Nat.le_trans
      with (distinct_count (party x0 :: map party (slice l0 r0 sorted))).
    + apply distinct_count_incl. intros p Hp. apply in_map_iff in Hp.
      destruct Hp as (x & <- & Hx). apply In_slice in Hx.
      destruct Hx as (i & Hi & Hnth).
      destruct (Nat.eq_dec i r0) as [->|Hne].
      * left. congruence.
      * right. apply in_map. apply In_slice. exists i. split; [lia | exact Hnth].
    + unfold distinct_count in *. cbn [nodup].
      destruct (in_dec string_dec _ _); simpl; lia.
  - apply Nat.leb_gt in E. rewrite size_of_list in E.
    destruct k as [|k]; [discriminate|].
    apply (IH (S r0) l' u Hscan); try lia.
    + apply too_old_next; [lia | exact Hold'].
    + now rewrite Nat.add_1_r in E.
Qed.
End SmurfScan.


Lemma time_at_nth sorted i x : nth_error sorted i = Some x -> time_at sorted i = timestamp x.
Proof. unfold time_at. now intros ->. Qed.


Lemma smurf_group_ten party group u :
  smurf_group party group = Some u -> List.length u = SMURF_THRESHOLD.
Proof.
  unfold smurf_group. intros H.
  apply (smurf_scan_ten party _ (sort_by_time_time_sorted group) _ 0 0 u H);
    try lia.
  unfold slice, distinct_count, SMURF_THRESHOLD. simpl. lia.
Qed.

(** ** Grouping by account *)

Lemma pushed_app o l1 l2 : pushed (pushed o l1) l2 = pushed o (l1 ++ l2).
Proof.
  destruct l1 as [|x l1]; simpl; [reflexivity|].
  destruct l2 as [|y l2]; simpl; [now rewrite app_nil_r|].
  destruct (l1 ++ y :: l2) eqn:E.
  - destruct l1; discriminate.
  - rewrite <- E. destruct o; simpl; now rewrite <- ?app_assoc.
Qed.

Lemma get_group_push k k' t m :
  JsMap.get k (group_push k' t m)
  = pushed (JsMap.get k m) (if String.eqb k k' then [t] else []).
Proof.
  unfold group_push. rewrite JsMapFacts.get_modify.
  destruct (String.eqb_spec k k') as [->|Hne].
  - unfold JsMap.has. destruct (JsMap.get k' m) eqn:E; simpl.
    + now rewrite E.
    + now rewrite JsMapFacts.get_set_eq.
  - destruct (JsMap.has k' m); [reflexivity|]. simpl.
    now apply JsMapFacts.get_set_neq.
Qed.

Lemma NoDup_keys_group_push k t m :
  NoDup (JsMap.keys m) -> NoDup (JsMap.keys (group_push k t m)).
Proof.
  intros H. unfold group_push. rewrite JsMapFacts.keys_modify.
  destruct (JsMap.has k m); [exact H|]. now apply JsMapFacts.NoDup_keys_set.
Qed.

Lemma group_fold (key : Transaction -> string) txs : forall m,
  NoDup (JsMap.keys m) ->
  let m' := fold_left (fun m t => group_push (key t) t m) txs m in
  NoDup (JsMap.keys m')
  /\ forall k, JsMap.get k m'
               = pushed (JsMap.get k m)
                        (filter (fun t => String.eqb (key t) k) txs).
Proof.
  induction txs as [|t txs IH]; intros m Hm; simpl.
  - split; [exact Hm | reflexivity].
  - destruct (IH (group_push (key t) t m) (NoDup_keys_group_push _ _ _ Hm))
      as [Hnd Hget].
    split; [exact Hnd|]. intros k. rewrite Hget, get_group_push, pushed_app.
    rewrite (String.eqb_sym k (key t)).
    now destruct (String.eqb (key t) k).
Qed.

Lemma byReceiver_spec txs :
  NoDup (JsMap.keys (byReceiver txs))
  /\ forall k, JsMap.get k (byReceiver txs) = pushed None (incoming k txs).
Proof. exact (group_fold receiver_id txs JsMap.empty (NoDup_nil _)). Qed.

Lemma bySender_spec txs :
  NoDup (JsMap.keys (bySender txs))
  /\ forall k, JsMap.get k (bySender txs) = pushed None (outgoing k txs).
Proof. exact (group_fold sender_id txs JsMap.empty (NoDup_nil _)). Qed.

(** ** Counting the flags *)



Lemma smurf_pass_ten ty party groups : forall results,
  Forall (fun s => List.length (counterparties s) = SMURF_THRESHOLD) results ->
  Forall (fun s => List.length (counterparties s) = SMURF_THRESHOLD)
         (smurf_pass ty party groups results).
Proof.
  unfold smurf_pass. induction groups as [|[k g] groups IH]; intros results H;
    simpl; [exact H|].
  apply IH. destruct (smurf_group party g) as [u|] eqn:E; [|exact H].
  apply Forall_app. split; [exact H|]. constructor; [|constructor].
  simpl. eapply smurf_group_ten, E.
Qed.

(** Every flag carries exactly ten counterparties. *)
Lemma detectSmurfing_ten txs :
  Forall (fun s => List.length (counterparties s) = SMURF_THRESHOLD)
         (detectSmurfing txs).
Proof. unfold detectSmurfing. do 2 apply smurf_pass_ten. constructor. Qed.






(** ** Score accumulation *)

Lemma score_of_award a sc aw :
  score_of a (award sc aw)
  = if String.eqb a (fst aw) then Z.min 100 (score_of a sc + snd aw)
    else score_of a sc.
Proof.
  unfold award, score_of at 1. rewrite JsMapFacts.get_set.
  destruct (String.eqb_spec a (fst aw)) as [->|Hne]; reflexivity.
Qed.

Lemma NoDup_keys_award sc aw : NoDup (JsMap.keys sc) -> NoDup (JsMap.keys (award sc aw)).
Proof. apply JsMapFacts.NoDup_keys_set. Qed.

Lemma NoDup_keys_awards aws : forall sc,
  NoDup (JsMap.keys sc) -> NoDup (JsMap.keys (fold_left award aws sc)).
Proof.
  induction aws as [|aw aws IH]; simpl; intros sc H; [exact H|].
  apply IH. now apply NoDup_keys_award.
Qed.

(** The per-addition cap is the clamp of the total, the awards being
    non-negative. *)
Lemma score_of_awards a aws : forall sc,
  Forall (fun aw => (0 <= snd aw)%Z) aws ->
  (0 <= score_of a sc <= 100)%Z ->
  score_of a (fold_left award aws sc)
  = Z.min 100 (score_of a sc + awarded_to a aws).
Proof.
  unfold awarded_to.
  induction aws as [|aw aws IH]; simpl; intros sc Hpos Hsc.
  - lia.
  - inversion Hpos as [|? ? Hp Hpos']; subst.
    assert (Hrest : (0 <= fold_right Z.add 0
                           (map snd (filter (fun aw => String.eqb (fst aw) a) aws)))%Z).
    { clear -Hpos'. induction aws as [|x aws IH]; simpl; [lia|].
      inversion Hpos'; subst. destruct (String.eqb (fst x) a); simpl; [|auto].
      specialize (IH H2). lia. }
    rewrite IH; [|exact Hpos'|].
    + rewrite score_of_award, (String.eqb_sym a (fst aw)).
      destruct (String.eqb (fst aw) a); simpl; lia.
    + rewrite score_of_award. destruct (String.eqb a (fst aw)); lia.
Qed.


(** A loop whose body is a sequence of awards as far as the scores go. *)
Lemma scores_fold {X} (f : Engine -> X -> Engine) (g : X -> list (string * Z)) l :
  (forall e x, scores (f e x) = fold_left award (g x) (scores e)) ->
  forall e, scores (fold_left f l e) = fold_left award (flat_map g l) (scores e).
Proof.
  intros Hf. induction l as [|x l IH]; simpl; intros e; [reflexivity|].
  now rewrite IH, Hf, fold_left_app.
Qed.

Lemma scores_cycle_members ringId tag cycle : forall e,
  scores (fold_left
            (fun e account =>
               setRing account ringId (addPattern account tag (addScore account 45 e)))
            cycle e)
  = fold_left award (cycle_awards cycle) (scores e).
Proof.
  induction cycle as [|a cycle IH]; intros e; simpl; [reflexivity|].
  now rewrite IH.
Qed.

Lemma scores_cycle_step e cycle :
  scores (cycle_step e cycle) = fold_left award (cycle_awards cycle) (scores e).
Proof.
  unfold cycle_step. cbv zeta. cbn [scores pushRing].
  now rewrite scores_cycle_members.
Qed.

Lemma scores_smurf_step e s :
  scores (smurf_step e s) = fold_left award (smurf_awards s) (scores e).
Proof.
  unfold smurf_step, smurf_awards. cbv zeta.
  destruct (negb (truthy _)); reflexivity.
Qed.

Lemma scores_fold_setRing ringId l : forall e,
  scores (fold_left (fun e m => setRing m ringId e) l e) = scores e.
Proof.
  induction l as [|m l IH]; simpl; intros e; [reflexivity|]. now rewrite IH.
Qed.

Lemma scores_shell_step e chain :
  scores (shell_step e chain) = fold_left award (shell_awards chain) (scores e).
Proof.
  unfold shell_step, shell_awards. cbv zeta. rewrite fold_left_app.
  set (e1 := fold_left _ (slice_interior chain) e).
  assert (H1 : scores e1
               = fold_left award (map (fun a => (a, 35%Z)) (slice_interior chain))
                           (scores e)).
  { subst e1. generalize (slice_interior chain). intros l. revert e.
    induction l as [|a l IH]; intros e; simpl; [reflexivity|]. now rewrite IH. }
  rewrite <- H1.
  destruct (negb (JsMap.has _ _)); cbn [scores pushRing];
    rewrite ?scores_fold_setRing; reflexivity.
Qed.

Lemma get_patterns_addPattern a b p e :
  JsMap.get a (patterns (addPattern b p e))
  = if String.eqb a b
    then Some (JsSet.add p (match JsMap.get a (patterns e) with
                            | Some s => s
                            | None => JsSet.empty
                            end))
    else JsMap.get a (patterns e).
Proof.
  unfold addPattern. cbn [patterns]. rewrite JsMapFacts.get_modify.
  destruct (String.eqb_spec a b) as [->|Hne].
  - unfold JsMap.has. destruct (JsMap.get b (patterns e)) eqn:E; simpl.
    + now rewrite E.
    + now rewrite JsMapFacts.get_set_eq.
  - destruct (JsMap.has b (patterns e)); [reflexivity|].
    now apply JsMapFacts.get_set_neq.
Qed.

Lemma scores_bonus_step txs e b :
  scores (bonus_step txs e b)
  = fold_left award (bonus_awards txs (patterns e) b) (scores e).
Proof.
  unfold bonus_step, bonus_awards. rewrite fold_left_app.
  destruct (JsMap.get b (patterns e)) as [ps|];
    [destruct (2 <=? JsSet.size ps)|];
    destruct (hasHighVelocity b txs); reflexivity.
Qed.

Lemma patterns_bonus_step txs e a b :
  a <> b -> JsMap.get a (patterns (bonus_step txs e b)) = JsMap.get a (patterns e).
Proof.
  intros Hne. apply String.eqb_neq in Hne. unfold bonus_step.
  assert (H : patterns
                match JsMap.get b (patterns e) with
                | Some patternSet =>
                    if 2 <=? JsSet.size patternSet then addScore b 15 e else e
                | None => e
                end = patterns e).
  { destruct (JsMap.get b (patterns e)) as [ps|]; [|reflexivity].
    now destruct (2 <=? JsSet.size ps). }
  destruct (hasHighVelocity b txs); [|now rewrite H].
  rewrite get_patterns_addPattern, Hne. cbn [patterns addScore]. now rewrite H.
Qed.

Lemma flat_map_pointwise {A B} (f g : A -> list B) l :
  (forall x, In x l -> f x = g x) -> flat_map f l = flat_map g l.
Proof.
  induction l as [|x l IH]; simpl; intros H; [reflexivity|].
  rewrite (H x) by now left. f_equal. apply IH. intros y Hy. apply H. now right.
Qed.

Lemma scores_bonus_loop txs accts : forall e,
  NoDup accts ->
  scores (fold_left (bonus_step txs) accts e)
  = fold_left award (flat_map (bonus_awards txs (patterns e)) accts) (scores e).
Proof.
  induction accts as [|b accts IH]; intros e Hnd; simpl; [reflexivity|].
  inversion Hnd as [|? ? Hnotin Hnd']; subst.
  rewrite IH by exact Hnd'. rewrite fold_left_app, scores_bonus_step.
  f_equal. apply flat_map_pointwise. intros a Ha.
  unfold bonus_awards. rewrite patterns_bonus_step; [reflexivity|].
  intros ->. contradiction.
Qed.

(** *** The graph's node map *)

Lemma keys_getOrCreate k nodes :
  NoDup (JsMap.keys nodes) -> NoDup (JsMap.keys (getOrCreate k nodes)).
Proof.
  intros H. unfold getOrCreate. destruct (JsMap.has k nodes); [exact H|].
  now apply JsMapFacts.NoDup_keys_set.
Qed.

Lemma NoDup_keys_buildGraph txs : NoDup (JsMap.keys (buildGraph txs)).
Proof.
  unfold buildGraph. apply fold_left_inv; [|constructor].
  intros nodes t H. unfold buildGraph_step.
  rewrite !JsMapFacts.keys_modify. now do 2 apply keys_getOrCreate.
Qed.

Lemma accumulate_eq txs :
  accumulate txs
  = fold_left (bonus_step txs) (JsMap.keys (buildGraph txs)) (detectors txs).
Proof. reflexivity. Qed.

Lemma scores_detectors txs :
  scores (detectors txs)
  = fold_left award
      (flat_map cycle_awards (detectCycles (buildGraph txs))
       ++ flat_map smurf_awards (detectSmurfing txs)
       ++ flat_map shell_awards (detectShellNetworks (buildGraph txs)))
      JsMap.empty.
Proof.
  unfold detectors. cbv zeta.
  rewrite (scores_fold shell_step shell_awards _ scores_shell_step).
  rewrite (scores_fold smurf_step smurf_awards _ scores_smurf_step).
  rewrite (scores_fold cycle_step cycle_awards _ scores_cycle_step).
  now rewrite !fold_left_app.
Qed.

Lemma scores_accumulate txs :
  scores (accumulate txs) = fold_left award (contributions txs) JsMap.empty.
Proof.
  rewrite accumulate_eq, scores_bonus_loop by apply NoDup_keys_buildGraph.
  rewrite scores_detectors. unfold contributions. cbv zeta.
  now rewrite !fold_left_app.
Qed.

Lemma contributions_nonneg txs :
  Forall (fun aw => (0 < snd aw)%Z) (contributions txs).
Proof.
  unfold contributions. cbv zeta. repeat (apply Forall_app; split);
    apply Forall_forall; intros aw Haw; apply in_flat_map in Haw;
    destruct Haw as (x & _ & Haw).
  - apply in_map_iff in Haw. destruct Haw as (a & <- & _). simpl. lia.
  - destruct Haw as [<-|[]]. simpl. lia.
  - apply in_app_or in Haw. destruct Haw as [Haw|[<-|[<-|[]]]]; simpl; try lia.
    apply in_map_iff in Haw. destruct Haw as (a & <- & _). simpl. lia.
  - apply in_app_or in Haw. destruct Haw as [Haw|Haw].
    + destruct (JsMap.get x _) as [ps|]; [|destruct Haw].
      destruct (2 <=? JsSet.size ps); [|destruct Haw].
      destruct Haw as [<-|[]]. simpl. lia.
    + destruct (hasHighVelocity x txs); [|destruct Haw].
      destruct Haw as [<-|[]]. simpl. lia.
Qed.

(** The accumulated score is the clamped sum of the contributions. *)
Lemma final_score txs a :
  score_of a (scores (accumulate txs))
  = Z.min 100 (awarded_to a (contributions txs)).
Proof.
  rewrite scores_accumulate, score_of_awards.
  - reflexivity.
  - eapply Forall_impl; [|apply contributions_nonneg]. simpl. intros; lia.
  - unfold score_of. simpl. lia.
Qed.

Lemma NoDup_keys_scores txs : NoDup (JsMap.keys (scores (accumulate txs))).
Proof. rewrite scores_accumulate. apply NoDup_keys_awards. constructor. Qed.

(** ** The emitted accounts *)

Lemma emit_step_app txs nodes e out entry :
  emit_step txs nodes e out entry = out ++ emission txs nodes e entry.
Proof.
  unfold emission, emit_step. destruct entry as [a s].
  destruct (s <=? 0)%Z; [now rewrite app_nil_r|].
  destruct (negb _ && _); [now rewrite app_nil_r | reflexivity].
Qed.

Lemma emit_fold txs nodes e entries : forall out,
  fold_left (emit_step txs nodes e) entries out
  = out ++ flat_map (emission txs nodes e) entries.
Proof.
  induction entries as [|entry entries IH]; intros out; simpl.
  - now rewrite app_nil_r.
  - now rewrite IH, emit_step_app, app_assoc.
Qed.

Lemma emission_spec txs e a s acc :
  In acc (emission txs (buildGraph txs) e (a, s))
  <-> (0 < s)%Z /\ retained txs a e = true
      /\ acc = mkSuspiciousAccount a (round1 (inject_Z s)) (tags_of a e) (ring_of a e).
Proof.
  unfold emission, emit_step, retained, tags_of, ring_of.
  destruct (s <=? 0)%Z eqn:Es.
  - apply Z.leb_le in Es. split; [intros [] | intros (H & _); lia].
  - apply Z.leb_gt in Es.
    destruct (existsb isMalicious _); simpl.
    + split; [intros [<-|[]]; auto | intros (_ & _ & ->); now left].
    + destruct (isMerchantLike a (buildGraph txs) txs); simpl.
      * split; [intros [] | intros (_ & H & _); discriminate].
      * split; [intros [<-|[]]; auto | intros (_ & _ & ->); now left].
Qed.

(** The emitted accounts are the entries of the score map with a
    positive score that pass the filter. *)
Lemma In_suspicious_accounts txs acc :
  In acc (suspicious_accounts (runDetection txs))
  <-> exists s,
        JsMap.get (account_id acc) (scores (accumulate txs)) = Some s
        /\ (0 < s)%Z
        /\ retained txs (account_id acc) (accumulate txs) = true
        /\ acc = mkSuspiciousAccount (account_id acc) (round1 (inject_Z s))
                   (tags_of (account_id acc) (accumulate txs))
                   (ring_of (account_id acc) (accumulate txs)).
Proof.
  unfold runDetection. cbv zeta. cbn [suspicious_accounts].
  rewrite stable_sort_In, emit_fold. simpl. rewrite in_flat_map. split.
  - intros ([a s] & Hin & Hacc). apply emission_spec in Hacc.
    destruct Hacc as (Hs & Hret & ->). cbn [account_id].
    exists s. repeat split; auto.
    apply JsMapFacts.In_get; [apply NoDup_keys_scores | exact Hin].
  - intros (s & Hget & Hs & Hret & Hacc).
    exists (account_id acc, s). split; [now apply JsMapFacts.get_In|].
    apply emission_spec. auto.
Qed.

Lemma js_round_integer z : js_round (inject_Z z * 10) = (z * 10)%Z.
Proof.
  unfold js_round, Qfloor, Qplus, Qmult, inject_Z. simpl.
  replace (z * 10 * 2 + 1)%Z with (1 + (z * 10) * 2)%Z by lia.
  rewrite Z.div_add by lia. reflexivity.
Qed.

(** Rounding an integer score to one decimal leaves it as it is. *)
Lemma round1_integer z : (round1 (inject_Z z) == inject_Z z)%Q.
Proof.
  unfold round1. rewrite js_round_integer. unfold Qeq, Qdiv, Qmult, Qinv, inject_Z.
  simpl. lia.
Qed.

(** The score of an emitted account. *)
Lemma emitted_score txs acc :
  In acc (suspicious_accounts (runDetection txs)) ->
  let total := awarded_to (account_id acc) (contributions txs) in
  (0 < Z.min 100 total)%Z
  /\ suspicion_score acc = round1 (inject_Z (Z.min 100 total)).
Proof.
  intros Hacc. apply In_suspicious_accounts in Hacc.
  destruct Hacc as (s & Hget & Hs & _ & ->). cbn [account_id suspicion_score].
  pose proof (final_score txs (account_id acc)) as Hfinal.
  unfold score_of in Hfinal. rewrite Hget in Hfinal.
  cbv zeta. rewrite <- Hfinal. now split.
Qed.

Lemma emitted_score_bounds txs acc :
  In acc (suspicious_accounts (runDetection txs)) ->
  (0 <= suspicion_score acc)%Q /\ (suspicion_score acc <= 100)%Q.
Proof.
  intros Hacc. destruct (emitted_score txs acc Hacc) as [Hpos ->].
  rewrite round1_integer. split.
  - change 0%Q with (inject_Z 0). rewrite <- Zle_Qle. lia.
  - change 100%Q with (inject_Z 100). rewrite <- Zle_Qle. lia.
Qed.

(** C5: the suspicion score of every emitted account is the sum of the
    pattern contributions awarded to it (45 per cycle membership, 30 per
    smurfing flag, 35 per shell chain it is interior to, 20 per shell
    chain it starts or ends, 15 for the multi-pattern bonus, 10 for
    velocity), clamped to [0, 100] and rounded to one decimal; it lies
    between 0 and 100. *)
Theorem suspicion_score_is_clamped_sum txs :
  Forall
    (fun acc =>
       let total := awarded_to (account_id acc) (contributions txs) in
       (suspicion_score acc
        == round1 (inject_Z (Z.max 0 (Z.min 100 total))))%Q
       /\ (suspicion_score acc == inject_Z (Z.max 0 (Z.min 100 total)))%Q
       /\ (0 <= suspicion_score acc)%Q /\ (suspicion_score acc <= 100)%Q)
    (suspicious_accounts (runDetection txs)).
Proof.
  apply Forall_forall. intros acc Hacc. cbv zeta.
  destruct (emitted_score txs acc Hacc) as [Hpos Hscore].
  destruct (emitted_score_bounds txs acc Hacc) as [H0 H100].
  replace (Z.max 0 (Z.min 100 (awarded_to (account_id acc) (contributions txs))))
    with (Z.min 100 (awarded_to (account_id acc) (contributions txs))) by lia.
  rewrite Hscore at 1 2. split; [reflexivity|]. split; [apply round1_integer|].
  now split.
Qed.

(** ** Ring identifiers *)

Lemma uint_of_zeros k d :
  NilEmpty.uint_of_string (String.append (zeros k) (NilEmpty.string_of_uint d))
  = Some (Nat.iter k Decimal.D0 d).
Proof.
  induction k as [|k IH]; simpl.
  - apply NilEmpty.usu.
  - now rewrite IH.
Qed.

Lemma of_uint_zeros k d : Nat.of_uint (Nat.iter k Decimal.D0 d) = Nat.of_uint d.
Proof.
  induction k as [|k IH]; simpl; [reflexivity|]. exact IH.
Qed.

Lemma padded_value_padStart3 n : padded_value (padStart3 (string_of_nat n)) = Some n.
Proof.
  unfold padded_value, padStart3, string_of_nat.
  rewrite uint_of_zeros. simpl. rewrite of_uint_zeros.
  f_equal. apply DecimalNat.Unsigned.of_to.
Qed.

Lemma ring_name_inj n m : ring_name n = ring_name m -> n = m.
Proof.
  unfold ring_name. simpl. intros H. injection H as H.
  apply (f_equal padded_value) in H. rewrite !padded_value_padStart3 in H.
  congruence.
Qed.

Lemma ring_name_truthy n : truthy (Some (ring_name n)) = true.
Proof. reflexivity. Qed.

Lemma NoDup_ring_names l : NoDup l -> NoDup (map ring_name l).
Proof.
  induction 1 as [|x l Hx Hl IH]; simpl; constructor; [|exact IH].
  intros Hin. apply in_map_iff in Hin. destruct Hin as (y & Hy & Hin).
  apply ring_name_inj in Hy. now subst.
Qed.

(** ** Ring assignment *)

Lemma last_assigning_snoc a rings r :
  last_assigning a (rings ++ [r])
  = if includes a (assigned_by r) then Some (fr_ring_id r)
    else last_assigning a rings.
Proof. unfold last_assigning. now rewrite fold_left_app. Qed.

Lemma get_ring_fold_setRing a ringId l : forall e,
  JsMap.get a (ringMembership (fold_left (fun e m => setRing m ringId e) l e))
  = if includes a l then Some ringId else JsMap.get a (ringMembership e).
Proof.
  induction l as [|m l IH]; intros e; simpl; [reflexivity|].
  rewrite IH. cbn [ringMembership setRing]. rewrite JsMapFacts.get_set.
  unfold includes. cbn [JsSet.has].
  destruct (JsSet.has a l), (String.eqb a m); reflexivity.
Qed.

Lemma get_ring_cycle_members a ringId tag cycle : forall e,
  JsMap.get a
    (ringMembership
       (fold_left
          (fun e account =>
             setRing account ringId (addPattern account tag (addScore account 45 e)))
          cycle e))
  = if includes a cycle then Some ringId else JsMap.get a (ringMembership e).
Proof.
  induction cycle as [|m l IH]; intros e; simpl; [reflexivity|].
  rewrite IH. cbn [ringMembership setRing addPattern addScore].
  rewrite JsMapFacts.get_set.
  unfold includes. cbn [JsSet.has].
  destruct (JsSet.has a l), (String.eqb a m); reflexivity.
Qed.

Lemma rings_cycle_members ringId tag cycle : forall e,
  let e' := fold_left
              (fun e account =>
                 setRing account ringId (addPattern account tag (addScore account 45 e)))
              cycle e in
  fraudRings e' = fraudRings e /\ ringCounter e' = ringCounter e.
Proof.
  induction cycle as [|m l IH]; intros e; simpl; [now split|].
  destruct (IH (setRing m ringId (addPattern m tag (addScore m 45 e)))) as [H1 H2].
  now rewrite H1, H2.
Qed.

Lemma rings_fold_setRing ringId l : forall e,
  let e' := fold_left (fun e m => setRing m ringId e) l e in
  fraudRings e' = fraudRings e /\ ringCounter e' = ringCounter e.
Proof.
  induction l as [|m l IH]; intros e; simpl; [now split|].
  destruct (IH (setRing m ringId e)) as [H1 H2]. now rewrite H1, H2.
Qed.

Lemma includes_of_list a l : includes a (JsSet.of_list l) = includes a l.
Proof.
  unfold includes. destruct (JsSet.has a l) eqn:E.
  - apply JsSetFacts.has_In. apply JsSetFacts.In_of_list. now apply JsSetFacts.has_In.
  - apply JsSetFacts.has_false. rewrite JsSetFacts.In_of_list.
    now apply JsSetFacts.has_false.
Qed.

(** What pushing the next ring does to the bookkeeping. *)
Lemma ring_inv_push e e' r :
  ring_inv e ->
  fraudRings e' = fraudRings e ++ [r] ->
  ringCounter e' = S (ringCounter e) ->
  fr_ring_id r = ring_name (ringCounter e) ->
  (forall a, JsMap.get a (ringMembership e')
             = if includes a (assigned_by r) then Some (fr_ring_id r)
               else JsMap.get a (ringMembership e)) ->
  ring_inv e'.
Proof.
  intros (Hmem & Hids & Hctr) Hrings Hcounter Hid Hget. repeat split.
  - intros a. rewrite Hget, Hrings, last_assigning_snoc, Hmem. reflexivity.
  - rewrite Hrings, map_app, length_app, seq_app, map_app, <- Hids. simpl.
    now rewrite Hid, Hctr.
  - rewrite Hcounter, Hrings, length_app, Hctr. simpl. lia.
Qed.

Lemma ring_inv_engine0 : ring_inv engine0.
Proof. repeat split. Qed.

Lemma ring_inv_cycle_step e cycle : ring_inv e -> ring_inv (cycle_step e cycle).
Proof.
  intros Hinv. unfold cycle_step. cbv zeta.
  set (ringId := ring_name (ringCounter e)).
  set (tag := String.append "cycle_length_" (string_of_nat (List.length cycle))).
  destruct (rings_cycle_members ringId tag cycle (bumpCounter e)) as [Hr Hc].
  cbv zeta in Hr, Hc.
  eapply ring_inv_push; [exact Hinv| | | |]; cbn [fraudRings ringCounter pushRing
    ringMembership fr_ring_id].
  - now rewrite Hr.
  - now rewrite Hc.
  - reflexivity.
  - intros a. rewrite get_ring_cycle_members.
    unfold assigned_by, is_smurf_ring. cbn [pattern_type member_accounts].
    cbn [String.eqb Ascii.eqb Bool.eqb orb andb]. now rewrite includes_of_list.
Qed.

Lemma ring_inv_smurf_step e s : ring_inv e -> ring_inv (smurf_step e s).
Proof.
  intros Hinv. unfold smurf_step. cbv zeta.
  destruct (negb (truthy _)); [|exact Hinv].
  eapply ring_inv_push; [exact Hinv| | | |]; cbn [fraudRings ringCounter pushRing
    ringMembership fr_ring_id setRing bumpCounter addPattern addScore];
    try reflexivity.
  intros a. rewrite JsMapFacts.get_set.
  unfold assigned_by, is_smurf_ring. cbn [pattern_type member_accounts].
  destruct (smurf_type s); cbn [String.eqb Ascii.eqb Bool.eqb orb andb firstn];
    unfold includes; cbn [JsSet.has]; now destruct (String.eqb a (smurf_account s)).
Qed.

Lemma ring_inv_scores_only e e' :
  ringMembership e' = ringMembership e -> fraudRings e' = fraudRings e ->
  ringCounter e' = ringCounter e -> ring_inv e -> ring_inv e'.
Proof.
  unfold ring_inv. intros -> -> ->. auto.
Qed.

Lemma shell_marks_frame (l : list string) : forall e,
  let e' := fold_left
              (fun e account => addPattern account "shell_intermediary"
                                  (addScore account 35 e)) l e in
  ringMembership e' = ringMembership e /\ fraudRings e' = fraudRings e
  /\ ringCounter e' = ringCounter e.
Proof.
  induction l as [|a l IH]; intros e; simpl; [now repeat split|].
  destruct (IH (addPattern a "shell_intermediary" (addScore a 35 e)))
    as (H1 & H2 & H3).
  now rewrite H1, H2, H3.
Qed.

Lemma ring_inv_shell_step e chain : ring_inv e -> ring_inv (shell_step e chain).
Proof.
  intros Hinv. unfold shell_step. cbv zeta.
  destruct (shell_marks_frame (slice_interior chain) e) as (H1 & H2 & H3).
  cbv zeta in H1, H2, H3.
  set (e1 := fold_left _ (slice_interior chain) e) in *.
  set (e2 := addPattern (chain_last chain) "shell_chain"
               (addPattern (chain_first chain) "shell_chain"
                  (addScore (chain_last chain) 20
                     (addScore (chain_first chain) 20 e1)))).
  assert (Hinv2 : ring_inv e2).
  { apply (ring_inv_scores_only e); auto. }
  destruct (negb (JsMap.has (chain_first chain) (ringMembership e2)));
    [|exact Hinv2].
  destruct (rings_fold_setRing (ring_name (ringCounter e2)) chain (bumpCounter e2))
    as [Hr Hc].
  cbv zeta in Hr, Hc.
  eapply ring_inv_push; [exact Hinv2| | | |]; cbn [fraudRings ringCounter pushRing
    ringMembership fr_ring_id].
  - now rewrite Hr.
  - now rewrite Hc.
  - reflexivity.
  - intros a. rewrite get_ring_fold_setRing. reflexivity.
Qed.

Lemma ring_inv_bonus_step txs e a : ring_inv e -> ring_inv (bonus_step txs e a).
Proof.
  intros Hinv. unfold bonus_step.
  destruct (hasHighVelocity a txs);
    (destruct (JsMap.get a (patterns e)) as [ps|];
     [destruct (2 <=? JsSet.size ps)|]); exact Hinv.
Qed.

Lemma ring_inv_detectors txs : ring_inv (detectors txs).
Proof.
  unfold detectors. cbv zeta.
  apply fold_left_inv; [intros; now apply ring_inv_shell_step|].
  apply fold_left_inv; [intros; now apply ring_inv_smurf_step|].
  apply fold_left_inv; [intros; now apply ring_inv_cycle_step|].
  apply ring_inv_engine0.
Qed.

Lemma ring_inv_accumulate txs : ring_inv (accumulate txs).
Proof.
  rewrite accumulate_eq.
  apply fold_left_inv; [intros; now apply ring_inv_bonus_step|].
  apply ring_inv_detectors.
Qed.

Lemma last_assigning_Some a rings : forall ringId,
  last_assigning a rings = Some ringId ->
  exists r, In r rings /\ fr_ring_id r = ringId /\ In a (assigned_by r).
Proof.
  induction rings as [|r rings IH] using rev_ind; intros ringId H.
  - discriminate.
  - rewrite last_assigning_snoc in H.
    destruct (includes a (assigned_by r)) eqn:E.
    + inversion H; subst. exists r. repeat split.
      * apply in_or_app. right. now left.
      * now apply JsSetFacts.has_In.
    + destruct (IH ringId H) as (r0 & Hin & Hid & Ha).
      exists r0. repeat split; auto. apply in_or_app. now left.
Qed.

Lemma assigned_by_members a r : In a (assigned_by r) -> In a (member_accounts r).
Proof.
  unfold assigned_by. destruct (is_smurf_ring r); [|auto].
  destruct (member_accounts r); simpl; tauto.
Qed.

Lemma ring_ids_truthy e a ringId :
  ring_inv e -> JsMap.get a (ringMembership e) = Some ringId ->
  truthy (Some ringId) = true.
Proof.
  intros (Hmem & Hids & _) Hget. rewrite Hmem in Hget.
  apply last_assigning_Some in Hget. destruct Hget as (r & Hin & <- & _).
  assert (H : In (fr_ring_id r) (map fr_ring_id (fraudRings e)))
    by now apply in_map.
  rewrite Hids in H. apply in_map_iff in H. destruct H as (n & <- & _).
  apply ring_name_truthy.
Qed.

Lemma ring_of_last_assigning e a :
  ring_inv e -> ring_of a e = last_assigning a (fraudRings e).
Proof.
  intros Hinv. unfold ring_of. cbv zeta.
  destruct (JsMap.get a (ringMembership e)) as [ringId|] eqn:E.
  - rewrite (ring_ids_truthy e a ringId Hinv E). rewrite <- E. apply Hinv.
  - simpl. rewrite <- E. apply Hinv.
Qed.

Lemma last_assigning_rescore a accounts rings :
  last_assigning a (map (rescore_ring accounts) rings) = last_assigning a rings.
Proof.
  unfold last_assigning. generalize (@None string).
  induction rings as [|r rings IH]; intros cur; simpl; [reflexivity|].
  rewrite IH. f_equal. unfold rescore_ring.
  destruct (0 <? List.length _); reflexivity.
Qed.

Lemma fraud_rings_runDetection txs :
  fraud_rings (runDetection txs)
  = map (rescore_ring (suspicious_accounts (runDetection txs)))
        (fraudRings (accumulate txs)).
Proof. reflexivity. Qed.

(** The smurfing pass leaves every ring id that is already set. *)
Lemma smurf_step_keeps_ring e s a ringId :
  ring_inv e -> JsMap.get a (ringMembership e) = Some ringId ->
  JsMap.get a (ringMembership (smurf_step e s)) = Some ringId.
Proof.
  intros Hinv Hget. unfold smurf_step. cbv zeta.
  cbn [ringMembership addPattern addScore].
  destruct (truthy (JsMap.get (smurf_account s) (ringMembership e))) eqn:E;
    cbn [negb]; [exact Hget|].
  cbn [ringMembership pushRing setRing bumpCounter].
  rewrite JsMapFacts.get_set_neq; [exact Hget|].
  intros ->. rewrite Hget, (ring_ids_truthy e _ _ Hinv Hget) in E. discriminate.
Qed.

Lemma smurf_pass_keeps_ring smurfs a ringId : forall e,
  ring_inv e -> JsMap.get a (ringMembership e) = Some ringId ->
  JsMap.get a (ringMembership (fold_left smurf_step smurfs e)) = Some ringId.
Proof.
  induction smurfs as [|s smurfs IH]; intros e Hinv Hget; simpl; [exact Hget|].
  apply IH; [now apply ring_inv_smurf_step | now apply smurf_step_keeps_ring].
Qed.

Lemma ring_inv_after_cycles txs : ring_inv (after_cycles txs).
Proof.
  unfold after_cycles.
  apply fold_left_inv; [intros; now apply ring_inv_cycle_step|].
  apply ring_inv_engine0.
Qed.

(** In the output the ring id is the last assignment. *)
Lemma ring_id_last_assigning txs :
  Forall
    (fun acc =>
       ring_id acc
       = last_assigning (account_id acc) (fraud_rings (runDetection txs)))
    (suspicious_accounts (runDetection txs)).
Proof.
  apply Forall_forall. intros acc Hacc.
  apply In_suspicious_accounts in Hacc. destruct Hacc as (s & _ & _ & _ & ->).
  cbn [ring_id account_id].
  rewrite fraud_rings_runDetection, last_assigning_rescore.
  apply ring_of_last_assigning, ring_inv_accumulate.
Qed.

(** C1 (as amended): in the output the ring id of every account is the
    id of the last ring, in creation order, that assigned it (a cycle
    ring and a shell-chain ring assign all their members, a smurfing
    ring assigns the flagged account only); and the smurfing pass never
    changes a ring id that the cycle pass has set. *)
Theorem ring_id_is_last_assignment txs :
  Forall
    (fun acc =>
       ring_id acc
       = last_assigning (account_id acc) (fraud_rings (runDetection txs)))
    (suspicious_accounts (runDetection txs))
  /\ forall a ringId,
       JsMap.get a (ringMembership (after_cycles txs)) = Some ringId ->
       JsMap.get a (ringMembership (after_smurfing txs)) = Some ringId.
Proof.
  split.
  - apply ring_id_last_assigning.
  - intros a ringId. apply smurf_pass_keeps_ring, ring_inv_after_cycles.
Qed.

Lemma ring_id_is_last_assignment_witness :
  JsMap.get "A" (ringMembership (after_smurfing two_triangles)) = Some "RING_002".
Proof.
  apply (proj2 (ring_id_is_last_assignment two_triangles) "A" "RING_002").
  vm_compute. reflexivity.
Defined.

(** C1 fails as stated: with two triangles through the account A, the
    first ring (RING_001) contains A, yet A ends with ring id RING_002. *)
Lemma ring_id_reassigned :
  exists acc ring1,
    nth_error (suspicious_accounts (runDetection two_triangles)) 0 = Some acc
    /\ nth_error (fraud_rings (runDetection two_triangles)) 0 = Some ring1
    /\ account_id acc = "A"
    /\ fr_ring_id ring1 = "RING_001" /\ pattern_type ring1 = "cycle"
    /\ In "A" (member_accounts ring1)
    /\ ring_id acc = Some "RING_002".
Proof.
  eexists. eexists. vm_compute. repeat split. now left.
Qed.

Lemma NoDup_map_injective {A B} (f : A -> B) l x y :
  NoDup (map f l) -> In x l -> In y l -> f x = f y -> x = y.
Proof.
  induction l as [|z l IH]; simpl; intros Hnd Hx Hy Hxy; [tauto|].
  inversion Hnd as [|? ? Hn Hnd']; subst.
  destruct Hx as [->|Hx], Hy as [->|Hy]; auto.
  - exfalso. apply Hn. rewrite Hxy. now apply in_map.
  - exfalso. apply Hn. rewrite <- Hxy. now apply in_map.
Qed.

Lemma NoDup_ring_ids e : ring_inv e -> NoDup (map fr_ring_id (fraudRings e)).
Proof.
  intros (_ & Hids & _). rewrite Hids. apply NoDup_ring_names, seq_NoDup.
Qed.

Lemma rescore_ring_same accounts r :
  fr_ring_id (rescore_ring accounts r) = fr_ring_id r
  /\ member_accounts (rescore_ring accounts r) = member_accounts r
  /\ pattern_type (rescore_ring accounts r) = pattern_type r.
Proof.
  unfold rescore_ring. destruct (0 <? List.length _); repeat split.
Qed.

(** Ring ids are unique within a run. *)
Lemma NoDup_fraud_ring_ids txs :
  NoDup (map fr_ring_id (fraud_rings (runDetection txs))).
Proof.
  rewrite fraud_rings_runDetection, map_map.
  rewrite (map_ext _ fr_ring_id)
    by (intros r; apply (rescore_ring_same _ r)).
  apply NoDup_ring_ids, ring_inv_accumulate.
Qed.

(** C10: every emitted account that carries a ring id is listed among
    the members of the fraud ring bearing that id: such a ring exists,
    and every ring with that id (there is only one) lists the account. *)
Theorem ring_id_names_a_ring_with_the_account txs :
  Forall
    (fun acc =>
       forall ringId,
         ring_id acc = Some ringId ->
         (exists ring,
             In ring (fraud_rings (runDetection txs))
             /\ fr_ring_id ring = ringId
             /\ In (account_id acc) (member_accounts ring))
         /\ (forall ring,
               In ring (fraud_rings (runDetection txs)) ->
               fr_ring_id ring = ringId ->
               In (account_id acc) (member_accounts ring)))
    (suspicious_accounts (runDetection txs)).
Proof.
  apply Forall_forall. intros acc Hacc ringId Hring.
  pose proof (ring_id_last_assigning txs) as Hlast.
  rewrite Forall_forall in Hlast. rewrite (Hlast acc Hacc) in Hring.
  apply last_assigning_Some in Hring. destruct Hring as (r & Hin & Hid & Ha).
  apply assigned_by_members in Ha.
  split; [now exists r|].
  intros ring Hin' Hid'.
  assert (ring = r) as ->; [|exact Ha].
  apply (NoDup_map_injective fr_ring_id (fraud_rings (runDetection txs)));
    auto using NoDup_fraud_ring_ids. congruence.
Qed.

Lemma two_triangles_account_A :
  exists acc,
    In acc (suspicious_accounts (runDetection two_triangles))
    /\ account_id acc = "A" /\ ring_id acc = Some "RING_002".
Proof.
  eexists. vm_compute. split; [left; reflexivity|]. split; reflexivity.
Qed.

Lemma ring_id_names_a_ring_with_the_account_witness :
  exists ring,
    In ring (fraud_rings (runDetection two_triangles))
    /\ fr_ring_id ring = "RING_002"
    /\ In "A" (member_accounts ring).
Proof.
  pose proof (ring_id_names_a_ring_with_the_account two_triangles) as H.
  rewrite Forall_forall in H.
  destruct two_triangles_account_A as (acc & Hin & Hid & Hring).
  rewrite <- Hid. exact (proj1 (H acc Hin "RING_002" Hring)).
Defined.

(** ** The shell-chain detector *)

Lemma shell_dfs_eq depth nodes current path st :
  shell_dfs depth nodes current path st
  = match JsMap.get current nodes with
    | None => st
    | Some node =>
        fold_left
          (fun st neighbor =>
             if includes neighbor path then st
             else
               let isLowActivity := totalTxCount node <=? 3 in
               if (0 <? List.length path) && negb isLowActivity then st
               else
                 let newPath := path ++ [neighbor] in
                 let st :=
                   if 3 <=? List.length newPath then
                     let intermediates := slice_interior newPath in
                     let allLowActivity :=
                       forallb (fun k => total_or_0 nodes k <=? 3) intermediates in
                     if allLowActivity then record_chain newPath st else st
                   else st in
                 if List.length newPath <? 7 then
                   match depth with
                   | 0 => st
                   | S d => shell_dfs d nodes neighbor newPath st
                   end
                 else st)
          (JsMap.keys (outEdges node)) st
    end.
Proof. destruct depth; reflexivity. Qed.

Lemma record_chain_ok nodes newPath st :
  chain_ok nodes newPath ->
  Forall (chain_ok nodes) (chains st) ->
  Forall (chain_ok nodes) (chains (record_chain newPath st)).
Proof.
  intros Hok Hst. unfold record_chain.
  destruct (JsSet.has _ _); [exact Hst|]. simpl.
  apply Forall_app. split; [exact Hst|]. now constructor.
Qed.

Lemma shell_visit_ok nodes path neighbor st :
  List.length path <= 6 ->
  NoDup (path ++ [neighbor]) ->
  Forall (fun a => total_or_0 nodes a <= 3) path ->
  Forall (chain_ok nodes) (chains st) ->
  Forall (chain_ok nodes)
    (chains
       (if 3 <=? List.length (path ++ [neighbor])
        then if forallb (fun k => total_or_0 nodes k <=? 3)
                        (slice_interior (path ++ [neighbor]))
             then record_chain (path ++ [neighbor]) st
             else st
        else st)).
Proof.
  intros Hlen Hnd Hlow Hst.
  destruct (3 <=? List.length (path ++ [neighbor])) eqn:E3; [|exact Hst].
  destruct (forallb _ _); [|exact Hst].
  apply record_chain_ok; [|exact Hst].
  apply Nat.leb_le in E3.
  repeat split; [exact E3 | | exact Hnd |].
  - rewrite length_app. simpl. lia.
  - now rewrite removelast_last.
Qed.

Lemma shell_dfs_ok nodes depth : forall current p st,
  List.length (p ++ [current]) <= 6 ->
  NoDup (p ++ [current]) ->
  Forall (fun a => total_or_0 nodes a <= 3) p ->
  Forall (chain_ok nodes) (chains st) ->
  Forall (chain_ok nodes) (chains (shell_dfs depth nodes current (p ++ [current]) st)).
Proof.
  induction depth as [|d IH]; intros current p st Hlen Hnd Hlow Hst;
    rewrite shell_dfs_eq;
    destruct (JsMap.get current nodes) as [node|] eqn:Hnode; auto;
    apply (fold_left_inv (fun st => Forall (chain_ok nodes) (chains st))); auto;
    clear Hst st; intros st neighbor Hst; cbv zeta;
    destruct (includes neighbor (p ++ [current])) eqn:Einc; auto;
    destruct ((0 <? List.length (p ++ [current]))
              && negb (totalTxCount node <=? 3)) eqn:Eprune; auto;
    assert (Hnd' : NoDup ((p ++ [current]) ++ [neighbor]))
      by (apply NoDup_snoc; [exact Hnd | now apply JsSetFacts.has_false]);
    assert (Hlow' : Forall (fun a => total_or_0 nodes a <= 3) (p ++ [current]))
      by (apply Forall_app; split; [exact Hlow|];
          constructor; [|constructor];
          unfold total_or_0; rewrite Hnode;
          rewrite length_app, Nat.add_comm in Eprune; simpl in Eprune;
          apply negb_false_iff in Eprune; now apply Nat.leb_le);
    pose proof (shell_visit_ok nodes _ neighbor st Hlen Hnd' Hlow' Hst) as Hst';
    destruct (List.length ((p ++ [current]) ++ [neighbor]) <? 7) eqn:E7; auto.
  apply Nat.ltb_lt in E7. apply IH; auto. lia.
Qed.

Lemma detectShellNetworks_ok nodes :
  Forall (chain_ok nodes) (detectShellNetworks nodes).
Proof.
  unfold detectShellNetworks.
  apply (fold_left_inv (fun st => Forall (chain_ok nodes) (chains st)));
    [|constructor].
  intros st nodeId Hst. apply (shell_dfs_ok nodes 7 nodeId [] st); auto.
  - simpl. lia.
  - repeat constructor. simpl. tauto.
Qed.

(** The recursion budget of the chain search is never what stops it. *)
Lemma shell_dfs_budget nodes depth : forall current path st,
  6 <= depth + List.length path ->
  shell_dfs (S depth) nodes current path st = shell_dfs depth nodes current path st.
Proof.
  induction depth as [|d IH]; intros current path st Hlen;
    rewrite (shell_dfs_eq (S _)), (shell_dfs_eq _ nodes current);
    (destruct (JsMap.get current nodes); [|reflexivity]);
    apply fold_left_pointwise; intros st' neighbor; cbv zeta;
    (destruct (includes neighbor path); [reflexivity|]);
    (destruct (_ && _); [reflexivity|]);
    destruct (List.length (path ++ [neighbor]) <? 7) eqn:E; try reflexivity.
  - apply Nat.ltb_lt in E. rewrite length_app in E. simpl in *. lia.
  - apply IH. rewrite length_app. simpl. lia.
Qed.

(** *** Total transaction counts in the graph *)

Lemma get_getOrCreate a k nodes :
  JsMap.get a (getOrCreate k nodes)
  = if String.eqb a k
    then match JsMap.get a nodes with
         | Some n => Some n
         | None => Some (mkGraphNode k JsMap.empty JsMap.empty [] 0)
         end
    else JsMap.get a nodes.
Proof.
  unfold getOrCreate, JsMap.has.
  destruct (String.eqb_spec a k) as [->|Hne].
  - destruct (JsMap.get k nodes) eqn:E; [exact E | apply JsMapFacts.get_set_eq].
  - destruct (JsMap.get k nodes); [reflexivity | now apply JsMapFacts.get_set_neq].
Qed.

Lemma total_buildGraph_step nodes t a :
  total_or_0 (buildGraph_step nodes t) a
  = total_or_0 nodes a
    + (if String.eqb (sender_id t) a then 1 else 0)
    + (if String.eqb (receiver_id t) a then 1 else 0).
Proof.
  unfold total_or_0, buildGraph_step.
  rewrite !JsMapFacts.get_modify, !get_getOrCreate.
  rewrite (String.eqb_sym a (sender_id t)), (String.eqb_sym a (receiver_id t)).
  destruct (String.eqb (sender_id t) a), (String.eqb (receiver_id t) a);
    destruct (JsMap.get a nodes); simpl; lia.
Qed.

Lemma total_fold_buildGraph txs a : forall nodes,
  total_or_0 (fold_left buildGraph_step txs nodes) a
  = total_or_0 nodes a + tx_count a txs.
Proof.
  unfold tx_count.
  induction txs as [|t txs IH]; intros nodes; simpl; [lia|].
  rewrite IH, total_buildGraph_step.
  destruct (String.eqb (sender_id t) a), (String.eqb (receiver_id t) a);
    simpl; lia.
Qed.

(** The node's counter is the account's total transaction count. *)
Lemma total_buildGraph txs a : total_or_0 (buildGraph txs) a = tx_count a txs.
Proof. unfold buildGraph. now rewrite total_fold_buildGraph. Qed.

Lemma removelast_interior {A} (l : list A) :
  incl (slice_interior l) (removelast l).
Proof.
  destruct l as [|x l]; [intros y []|].
  unfold slice_interior, slice. cbn [List.length skipn].
  replace (S (List.length l) - 1 - 1) with (pred (List.length l)) by lia.
  rewrite <- removelast_firstn_len.
  destruct l as [|z l]; [intros y []|].
  intros y Hy. right. exact Hy.
Qed.

(** What does hold of every reported chain: it has three to seven
    accounts (at least two hops), all distinct, and every account of the chain
    but the last, the first account included, has at most three
    transactions in the whole dataset. *)
Lemma shell_chains_valid txs :
  Forall
    (fun chain =>
       3 <= List.length chain <= 7 /\ NoDup chain
       /\ Forall (fun a => tx_count a txs <= 3) (slice_interior chain)
       /\ tx_count (chain_first chain) txs <= 3)
    (detectShellNetworks (buildGraph txs)).
Proof.
  eapply Forall_impl; [|apply detectShellNetworks_ok].
  intros chain (Hlen & Hnd & Hlow).
  assert (Hlow' : forall a, In a (removelast chain) -> tx_count a txs <= 3).
  { intros a Ha. rewrite <- total_buildGraph.
    exact (proj1 (Forall_forall _ _) Hlow a Ha). }
  split; [exact Hlen|]. split; [exact Hnd|]. split.
  - apply Forall_forall. intros a Ha. now apply Hlow', removelast_interior.
  - apply Hlow'. destruct chain as [|x [|y l]]; simpl in Hlen; try lia.
    now left.
Qed.

(** ** Ring risk scores *)

Lemma round1_compat x y : (x == y)%Q -> (round1 x == round1 y)%Q.
Proof.
  intros H. unfold round1, js_round.
  assert (E : Qfloor (x * 10 + (1 # 2)) = Qfloor (y * 10 + (1 # 2)))
    by (apply Qfloor_comp; now rewrite H).
  now rewrite E.
Qed.

Lemma round1_bounds x :
  (0 <= x)%Q -> (x <= 100)%Q -> (0 <= round1 x)%Q /\ (round1 x <= 100)%Q.
Proof.
  intros H0 H100. unfold round1, js_round.
  assert (Hlo : (0 <= Qfloor (x * 10 + (1 # 2)))%Z).
  { change 0%Z with (Qfloor 0). apply Qfloor_resp_le. lra. }
  assert (Hhi : (Qfloor (x * 10 + (1 # 2)) <= 1000)%Z).
  { change 1000%Z with (Qfloor (1000 + (1 # 2))). apply Qfloor_resp_le. lra. }
  generalize dependent (Qfloor (x * 10 + (1 # 2))). intros k Hlo Hhi.
  unfold Qle, Qdiv, Qmult, Qinv, inject_Z. simpl. lia.
Qed.

Lemma Qmin100_id q : (q <= 100)%Q -> (Qmin100 q == q)%Q.
Proof.
  intros H. unfold Qmin100. destruct (Qle_bool 100 q) eqn:E; [|reflexivity].
  apply Qle_bool_iff in E. now apply Qle_antisym.
Qed.

Section QmaxOf.
Let pick (a b : Q) : Q := if Qle_bool a b then b else a.

Lemma fold_max_spec xs : forall acc,
  let m := fold_left pick xs acc in
  In m (acc :: xs) /\ (acc <= m)%Q /\ forall x, In x xs -> (x <= m)%Q.
Proof.
  induction xs as [|b xs IH]; intros acc; simpl.
  - repeat split; auto; [apply Qle_refl | tauto].
  - destruct (IH (pick acc b)) as (Hin & Hacc & Hall).
    unfold pick in *. destruct (Qle_bool acc b) eqn:E.
    + apply Qle_bool_iff in E. repeat split.
      * destruct Hin as [Hin|Hin]; auto.
      * now apply Qle_trans with b.
      * intros x [<-|Hx]; auto.
    + assert (Hba : (b <= acc)%Q).
      { apply Qlt_le_weak, Qnot_le_lt. intros H. apply Qle_bool_iff in H.
        congruence. }
      repeat split.
      * destruct Hin as [Hin|Hin]; auto.
      * exact Hacc.
      * intros x [<-|Hx]; auto. now apply Qle_trans with acc.
Qed.

Lemma Qmax_of_spec l :
  l <> [] -> In (Qmax_of l) l /\ forall x, In x l -> (x <= Qmax_of l)%Q.
Proof.
  destruct l as [|a xs]; [congruence|]. intros _. unfold Qmax_of.
  destruct (fold_max_spec xs a) as (Hin & Hacc & Hall).
  split; [exact Hin|]. intros x [<-|Hx]; auto.
Qed.
End QmaxOf.

Lemma fold_Qplus_bounds l : forall acc (B : Z),
  (0 <= acc)%Q -> (acc <= inject_Z B)%Q ->
  (forall x, In x l -> (0 <= x)%Q /\ (x <= 100)%Q) ->
  (0 <= fold_left Qplus l acc)%Q
  /\ (fold_left Qplus l acc <= inject_Z (B + 100 * Z.of_nat (List.length l)))%Q.
Proof.
  induction l as [|x l IH]; intros acc B H0 HB Hl.
  - cbn [fold_left List.length]. split; [exact H0|].
    now replace (B + 100 * Z.of_nat 0)%Z with B by lia.
  - destruct (Hl x (or_introl eq_refl)) as [Hx0 Hx100].
    destruct (IH (acc + x)%Q (B + 100)%Z) as [H1 H2].
    + lra.
    + rewrite inject_Z_plus. change (inject_Z 100) with 100%Q. lra.
    + intros y Hy. apply Hl. now right.
    + cbn [fold_left List.length]. split; [exact H1|].
      replace (B + 100 * Z.of_nat (S (List.length l)))%Z
        with (B + 100 + 100 * Z.of_nat (List.length l))%Z by lia.
      exact H2.
Qed.

(** The weighted score of a non-empty list of scores within [0, 100]
    is within [0, 100]. *)
Lemma ring_formula_bounds ms :
  ms <> [] ->
  (forall x, In x ms -> (0 <= x)%Q /\ (x <= 100)%Q) ->
  (0 <= ring_formula ms)%Q /\ (ring_formula ms <= 100)%Q.
Proof.
  intros Hne Hms. unfold ring_formula.
  destruct (Qmax_of_spec ms Hne) as [Hin _].
  destruct (Hms _ Hin) as [Hm0 Hm100].
  destruct (fold_Qplus_bounds ms 0 0 (Qle_refl 0) (Qle_refl 0) Hms) as [Hs0 Hs].
  fold (Qsum ms) in Hs0, Hs.
  set (n := inject_Z (Z.of_nat (List.length ms))).
  assert (Hn : (0 < n)%Q).
  { subst n. change 0%Q with (inject_Z 0). rewrite <- Zlt_Qlt.
    destruct ms; [congruence | simpl; lia]. }
  assert (Hmean100 : (Qsum ms / n <= 100)%Q).
  { apply Qle_shift_div_r; [exact Hn|].
    replace (0 + 100 * Z.of_nat (List.length ms))%Z
      with (100 * Z.of_nat (List.length ms))%Z in Hs by lia.
    rewrite inject_Z_mult in Hs. exact Hs. }
  assert (Hmean0 : (0 <= Qsum ms / n)%Q).
  { apply Qle_shift_div_l; [exact Hn|]. lra. }
  apply round1_bounds; lra.
Qed.

Lemma fold_left_inv_in {A B} (P : A -> Prop) (f : A -> B -> A) l :
  (forall a b, In b l -> P a -> P (f a b)) -> forall a, P a -> P (fold_left f l a).
Proof.
  induction l as [|b l IH]; simpl; intros Hf a Ha; [exact Ha|].
  apply IH; [intros; apply Hf; auto | apply Hf; auto].
Qed.

(** *** Ring sizes *)

Lemma length_of_list_NoDup l : NoDup l -> List.length (JsSet.of_list l) = List.length l.
Proof.
  intros H. fold (JsSet.size (JsSet.of_list l)). rewrite size_of_list.
  unfold distinct_count. now rewrite nodup_fixed_point.
Qed.

Lemma sizes_cycle_step e cycle :
  NoDup cycle -> 3 <= List.length cycle <= 5 ->
  Forall ring_size_ok (fraudRings e) ->
  Forall ring_size_ok (fraudRings (cycle_step e cycle)).
Proof.
  intros Hnd Hlen He. unfold cycle_step. cbv zeta. cbn [fraudRings pushRing].
  match goal with |- context [fold_left ?f cycle (bumpCounter e)] =>
    destruct (rings_cycle_members (ring_name (ringCounter e))
                (String.append "cycle_length_" (string_of_nat (List.length cycle)))
                cycle (bumpCounter e)) as [Hr _] end.
  cbv zeta in Hr. rewrite Hr. cbn [fraudRings bumpCounter].
  apply Forall_app. split; [exact He|]. constructor; [|constructor].
  unfold ring_size_ok. cbn [member_accounts].
  rewrite (length_of_list_NoDup cycle Hnd).
  assert (H : In (List.length cycle) (seq 3 3)) by (apply in_seq; lia).
  simpl in H. simpl. tauto.
Qed.

Lemma sizes_smurf_step e s :
  List.length (counterparties s) = SMURF_THRESHOLD ->
  Forall ring_size_ok (fraudRings e) ->
  Forall ring_size_ok (fraudRings (smurf_step e s)).
Proof.
  intros Hten He. unfold smurf_step. cbv zeta.
  destruct (negb (truthy _)); [|exact He].
  cbn [fraudRings pushRing setRing bumpCounter addPattern addScore].
  apply Forall_app. split; [exact He|]. constructor; [|constructor].
  unfold ring_size_ok, slice. cbn [member_accounts List.length skipn].
  rewrite length_firstn, Hten. unfold SMURF_THRESHOLD. simpl. tauto.
Qed.

Lemma sizes_shell_step e chain :
  3 <= List.length chain <= 7 ->
  Forall ring_size_ok (fraudRings e) ->
  Forall ring_size_ok (fraudRings (shell_step e chain)).
Proof.
  intros Hlen He. unfold shell_step. cbv zeta.
  destruct (shell_marks_frame (slice_interior chain) e) as (_ & H2 & _).
  cbv zeta in H2.
  set (e1 := fold_left _ (slice_interior chain) e) in *.
  set (e2 := addPattern (chain_last chain) "shell_chain"
               (addPattern (chain_first chain) "shell_chain"
                  (addScore (chain_last chain) 20
                     (addScore (chain_first chain) 20 e1)))).
  assert (H2' : fraudRings e2 = fraudRings e) by exact H2.
  destruct (negb (JsMap.has (chain_first chain) (ringMembership e2)));
    [|now rewrite H2'].
  destruct (rings_fold_setRing (ring_name (ringCounter e2)) chain (bumpCounter e2))
    as [Hr _].
  cbv zeta in Hr. cbn [fraudRings pushRing]. rewrite Hr.
  cbn [fraudRings bumpCounter]. rewrite H2'.
  apply Forall_app. split; [exact He|]. constructor; [|constructor].
  unfold ring_size_ok. cbn [member_accounts].
  assert (H : In (List.length chain) (seq 3 5)) by (apply in_seq; lia).
  simpl in H. simpl. tauto.
Qed.

Lemma sizes_bonus_step txs e a :
  Forall ring_size_ok (fraudRings e) ->
  Forall ring_size_ok (fraudRings (bonus_step txs e a)).
Proof.
  intros He. unfold bonus_step.
  destruct (hasHighVelocity a txs);
    (destruct (JsMap.get a (patterns e)) as [ps|];
     [destruct (2 <=? JsSet.size ps)|]); exact He.
Qed.

(** Every ring has 3 to 7 or 11 entries in its member list. *)
Lemma ring_sizes txs : Forall ring_size_ok (fraudRings (accumulate txs)).
Proof.
  rewrite accumulate_eq.
  apply fold_left_inv; [intros; now apply sizes_bonus_step|].
  unfold detectors. cbv zeta.
  apply fold_left_inv_in.
  { intros e chain Hin. apply sizes_shell_step.
    exact (proj1 (proj1 (Forall_forall _ _) (detectShellNetworks_ok _) chain Hin)). }
  apply fold_left_inv_in.
  { intros e s Hin. apply sizes_smurf_step.
    exact (proj1 (Forall_forall _ _) (detectSmurfing_ten txs) s Hin). }
  apply fold_left_inv_in; [|constructor].
  intros e cycle Hin.
  destruct (proj1 (Forall_forall _ _) (proj1 (detectCycles_inv _)) cycle Hin)
    as [Hnd Hlen].
  now apply sizes_cycle_step.
Qed.

Lemma rings_have_members txs :
  Forall (fun r => member_accounts r <> []) (fraudRings (accumulate txs)).
Proof.
  eapply Forall_impl; [|apply ring_sizes].
  intros r Hr E. unfold ring_size_ok in Hr. rewrite E in Hr. simpl in Hr.
  intuition discriminate.
Qed.

(** *** One emitted account per account id *)

Lemma emission_cases txs nodes e a s :
  emission txs nodes e (a, s) = []
  \/ exists acc, emission txs nodes e (a, s) = [acc] /\ account_id acc = a.
Proof.
  unfold emission, emit_step.
  destruct (s <=? 0)%Z; [now left|].
  destruct (negb _ && _); [now left|]. right. eexists. split; reflexivity.
Qed.

Lemma emitted_ids_subset txs nodes e entries i :
  In i (map account_id (flat_map (emission txs nodes e) entries)) ->
  In i (map fst entries).
Proof.
  induction entries as [|[a s] entries IH]; cbn [flat_map map fst]; [tauto|].
  rewrite map_app, in_app_iff. intros [H|H]; [|right; auto].
  destruct (emission_cases txs nodes e a s) as [E|(acc & E & Hid)];
    rewrite E in H; simpl in H; [tauto|]. destruct H as [<-|[]]. now left.
Qed.

Lemma NoDup_emitted_ids txs nodes e entries :
  NoDup (map fst entries) ->
  NoDup (map account_id (flat_map (emission txs nodes e) entries)).
Proof.
  induction entries as [|[a s] entries IH]; cbn [flat_map map fst]; intros Hnd;
    [constructor|].
  inversion Hnd as [|? ? Hn Hnd']; subst. rewrite map_app.
  destruct (emission_cases txs nodes e a s) as [E|(acc & E & Hid)]; rewrite E;
    cbn [map app].
  - auto.
  - constructor; [|auto]. rewrite Hid. intros H. apply Hn.
    eapply emitted_ids_subset, H.
Qed.

Lemma NoDup_account_ids txs :
  NoDup (map account_id (suspicious_accounts (runDetection txs))).
Proof.
  unfold runDetection. cbv zeta. cbn [suspicious_accounts].
  eapply Permutation_NoDup.
  - apply Permutation_map. symmetry. apply stable_sort_perm.
  - rewrite emit_fold. simpl. apply NoDup_emitted_ids. apply NoDup_keys_scores.
Qed.

(** The score a ring takes for a member: the suspicion score of the
    emitted account of that id, zero when there is none. *)
Lemma member_score_emitted txs acc :
  In acc (suspicious_accounts (runDetection txs)) ->
  member_score (suspicious_accounts (runDetection txs)) (account_id acc)
  = suspicion_score acc.
Proof.
  intros Hacc. unfold member_score.
  destruct (find _ _) as [acc'|] eqn:E.
  - apply find_some in E. destruct E as [Hin Hid]. apply String.eqb_eq in Hid.
    now rewrite (NoDup_map_injective account_id _ acc' acc (NoDup_account_ids txs)).
  - apply find_none with (x := acc) in E; [|exact Hacc].
    now rewrite String.eqb_refl in E.
Qed.

Lemma member_score_absent accounts a :
  (forall acc, In acc accounts -> account_id acc <> a) ->
  member_score accounts a = 0%Q.
Proof.
  intros H. unfold member_score. destruct (find _ _) as [acc|] eqn:E; [|reflexivity].
  apply find_some in E. destruct E as [Hin Hid]. apply String.eqb_eq in Hid.
  now destruct (H acc Hin).
Qed.

Lemma member_score_bounds txs a :
  (0 <= member_score (suspicious_accounts (runDetection txs)) a)%Q
  /\ (member_score (suspicious_accounts (runDetection txs)) a <= 100)%Q.
Proof.
  unfold member_score. destruct (find _ _) as [acc|] eqn:E.
  - apply find_some in E. now apply (emitted_score_bounds txs).
  - split; lra.
Qed.

Lemma rescored_ring txs ring :
  In ring (fraud_rings (runDetection txs)) ->
  let ms := map (member_score (suspicious_accounts (runDetection txs)))
                (member_accounts ring) in
  ms <> [] /\ risk_score ring = ring_formula ms.
Proof.
  rewrite fraud_rings_runDetection. intros Hin. apply in_map_iff in Hin.
  destruct Hin as (r & <- & Hr).
  pose proof (proj1 (Forall_forall _ _) (rings_have_members txs) r Hr) as Hne.
  unfold rescore_ring.
  assert (Hlen : (0 <? List.length
                         (map (member_score (suspicious_accounts (runDetection txs)))
                              (member_accounts r))) = true).
  { apply Nat.ltb_lt. rewrite length_map.
    destruct (member_accounts r) eqn:E; [congruence | simpl; lia]. }
  rewrite Hlen. cbn [member_accounts risk_score]. split; [|reflexivity].
  destruct (member_accounts r) eqn:E; [congruence | discriminate].
Qed.

(** The risk score in exact arithmetic. *)
Lemma ring_risk_exact txs :
  Forall
    (fun ring =>
       let ms := map (member_score (suspicious_accounts (runDetection txs)))
                     (member_accounts ring) in
       exists m,
         In m ms /\ (forall x, In x ms -> (x <= m)%Q)
         /\ (risk_score ring
             == Qmin100
                  (round1 ((6 # 10) * m
                           + (4 # 10)
                             * (Qsum ms / inject_Z (Z.of_nat (List.length ms))))))%Q
         /\ (0 <= risk_score ring)%Q /\ (risk_score ring <= 100)%Q)
    (fraud_rings (runDetection txs)).
Proof.
  apply Forall_forall. intros ring Hring.
  destruct (rescored_ring txs ring Hring) as [Hne Hrisk]. cbv zeta in *.
  set (ms := map (member_score (suspicious_accounts (runDetection txs)))
                 (member_accounts ring)) in *.
  assert (Hms : forall x, In x ms -> (0 <= x)%Q /\ (x <= 100)%Q).
  { intros x Hx. apply in_map_iff in Hx. destruct Hx as (a & <- & _).
    apply member_score_bounds. }
  destruct (Qmax_of_spec ms Hne) as [Hin Hmax].
  destruct (ring_formula_bounds ms Hne Hms) as [H0 H100].
  exists (Qmax_of ms). rewrite Hrisk. repeat split; auto.
  assert (E : (ring_formula ms
               == round1 ((6 # 10) * Qmax_of ms
                          + (4 # 10)
                            * (Qsum ms / inject_Z (Z.of_nat (List.length ms)))))%Q).
  { unfold ring_formula. apply round1_compat. ring. }
  rewrite Qmin100_id; [exact E|]. rewrite <- E. exact H100.
Qed.

(** ** Pattern tags *)

Lemma isMalicious_structural p : structural_tag p -> isMalicious p = true.
Proof.
  intros [->|[->|[->|[->|[n ->]]]]]; reflexivity.
Qed.



Lemma tags_of_addPattern a b p e :
  tags_of a (addPattern b p e)
  = if String.eqb a b then JsSet.add p (tags_of a e) else tags_of a e.
Proof.
  unfold tags_of. rewrite get_patterns_addPattern.
  now destruct (String.eqb a b).
Qed.

Lemma tag_inv_addScore e b pts :
  (0 < pts)%Z -> tag_inv e ->
  tag_inv (addScore b pts e)
  /\ (0 < score_of b (scores (addScore b pts e)))%Z
  /\ forall c, (0 < score_of c (scores e))%Z ->
               (0 < score_of c (scores (addScore b pts e)))%Z.
Proof.
  intros Hpts (Hnn & Htags).
  assert (Hsc : forall c,
             score_of c (scores (addScore b pts e))
             = if String.eqb c b then Z.min 100 (score_of c (scores e) + pts)
               else score_of c (scores e)).
  { intros c. exact (score_of_award c (scores e) (b, pts)). }
  repeat split.
  - intros a. rewrite Hsc. specialize (Hnn a). destruct (String.eqb a b); lia.
  - now apply (Htags a p).
  - rewrite Hsc. destruct (Htags a p H) as [_ Hpos].
    destruct (String.eqb a b); lia.
  - rewrite Hsc, String.eqb_refl. specialize (Hnn b). lia.
  - intros c Hc. rewrite Hsc. destruct (String.eqb c b); lia.
Qed.

Lemma tag_inv_addPattern e b p :
  known_tag p -> (0 < score_of b (scores e))%Z -> tag_inv e ->
  tag_inv (addPattern b p e).
Proof.
  intros Hp Hb (Hnn & Htags). split; [exact Hnn|].
  intros a q Hq. rewrite tags_of_addPattern in Hq.
  destruct (String.eqb_spec a b) as [->|Hne]; [|now apply Htags].
  apply JsSetFacts.In_add in Hq. destruct Hq as [->|Hq].
  - split; [exact Hp | exact Hb].
  - now apply Htags.
Qed.

Lemma tag_inv_mark e b pts p :
  (0 < pts)%Z -> known_tag p -> tag_inv e ->
  tag_inv (addPattern b p (addScore b pts e)).
Proof.
  intros Hpts Hp He. destruct (tag_inv_addScore e b pts Hpts He) as (H1 & H2 & _).
  now apply tag_inv_addPattern.
Qed.

Lemma tag_inv_frame e e' :
  scores e' = scores e -> patterns e' = patterns e -> tag_inv e -> tag_inv e'.
Proof.
  unfold tag_inv, tags_of. intros -> ->. auto.
Qed.

Lemma cycle_tag_known n :
  known_tag (String.append "cycle_length_" (string_of_nat n)).
Proof. left. do 4 right. now exists n. Qed.

Lemma tag_inv_cycle_step e cycle : tag_inv e -> tag_inv (cycle_step e cycle).
Proof.
  intros He. unfold cycle_step. cbv zeta.
  match goal with |- tag_inv (pushRing _ ?x) =>
    apply (tag_inv_frame x); try reflexivity end.
  apply fold_left_inv; [|exact He].
  intros e1 a H1.
  match goal with |- tag_inv (setRing _ _ ?x) =>
    apply (tag_inv_frame x); try reflexivity end.
  apply tag_inv_mark; [lia | apply cycle_tag_known | exact H1].
Qed.

Lemma tag_inv_smurf_step e s : tag_inv e -> tag_inv (smurf_step e s).
Proof.
  intros He. unfold smurf_step. cbv zeta.
  assert (H : tag_inv
                (addPattern (smurf_account s)
                   match smurf_type s with
                   | fan_in => "fan_in_smurfing"
                   | fan_out => "fan_out_smurfing"
                   end (addScore (smurf_account s) 30 e))).
  { apply tag_inv_mark; [lia| |exact He].
    left. destruct (smurf_type s); [now left | right; now left]. }
  destruct (negb (truthy _)); exact H.
Qed.

Lemma patterns_fold_setRing ringId l : forall e,
  patterns (fold_left (fun e m => setRing m ringId e) l e) = patterns e.
Proof.
  induction l as [|m l IH]; simpl; intros e; [reflexivity|]. now rewrite IH.
Qed.

Lemma tag_inv_shell_step e chain : tag_inv e -> tag_inv (shell_step e chain).
Proof.
  intros He. unfold shell_step. cbv zeta.
  set (e1 := fold_left _ (slice_interior chain) e).
  assert (H1 : tag_inv e1).
  { subst e1. apply fold_left_inv; [|exact He]. intros e' a H'.
    apply tag_inv_mark; [lia| |exact H']. left. do 2 right. now left. }
  destruct (tag_inv_addScore e1 (chain_first chain) 20 ltac:(lia) H1)
    as (H2 & Hf & _).
  destruct (tag_inv_addScore _ (chain_last chain) 20 ltac:(lia) H2)
    as (H3 & Hl & Hkeep).
  assert (H4 : tag_inv
                 (addPattern (chain_first chain) "shell_chain"
                    (addScore (chain_last chain) 20
                       (addScore (chain_first chain) 20 e1)))).
  { apply tag_inv_addPattern; auto. left. do 3 right. now left. }
  assert (H5 : tag_inv
                 (addPattern (chain_last chain) "shell_chain"
                    (addPattern (chain_first chain) "shell_chain"
                       (addScore (chain_last chain) 20
                          (addScore (chain_first chain) 20 e1))))).
  { apply tag_inv_addPattern; auto. left. do 3 right. now left. }
  destruct (negb (JsMap.has _ _)); [|exact H5].
  match type of H5 with tag_inv ?x =>
    apply (tag_inv_frame x); [| |exact H5] end; cbn [scores patterns pushRing].
  - now rewrite scores_fold_setRing.
  - now rewrite patterns_fold_setRing.
Qed.

Lemma tag_inv_bonus_step txs e a : tag_inv e -> tag_inv (bonus_step txs e a).
Proof.
  intros He. unfold bonus_step.
  set (e1 := match JsMap.get a (patterns e) with
             | Some patternSet =>
                 if 2 <=? JsSet.size patternSet then addScore a 15 e else e
             | None => e
             end).
  assert (H1 : tag_inv e1).
  { subst e1. destruct (JsMap.get a (patterns e)) as [ps|]; [|exact He].
    destruct (2 <=? JsSet.size ps); [|exact He].
    now apply tag_inv_addScore. }
  destruct (hasHighVelocity a txs); [|exact H1].
  apply tag_inv_mark; [lia | now right | exact H1].
Qed.

Lemma tag_inv_accumulate txs : tag_inv (accumulate txs).
Proof.
  rewrite accumulate_eq.
  apply fold_left_inv; [intros; now apply tag_inv_bonus_step|].
  unfold detectors. cbv zeta.
  apply fold_left_inv; [intros; now apply tag_inv_shell_step|].
  apply fold_left_inv; [intros; now apply tag_inv_smurf_step|].
  apply fold_left_inv; [intros; now apply tag_inv_cycle_step|].
  split; [intros a; unfold score_of; simpl; lia | intros a p []].
Qed.

(** ** The false-positive filter *)

Lemma filter_nil_when {A} (f : A -> bool) l :
  (forall x, In x l -> f x = false) -> filter f l = [].
Proof.
  induction l as [|x l IH]; simpl; intros H; [reflexivity|].
  rewrite (H x) by now left. apply IH. intros y Hy. apply H. now right.
Qed.






Lemma emitted_iff txs a :
  (exists acc, In acc (suspicious_accounts (runDetection txs)) /\ account_id acc = a)
  <-> (0 < score_of a (scores (accumulate txs)))%Z
      /\ retained txs a (accumulate txs) = true.
Proof.
  split.
  - intros (acc & Hacc & <-). apply In_suspicious_accounts in Hacc.
    destruct Hacc as (s & Hget & Hs & Hret & _).
    unfold score_of. rewrite Hget. now split.
  - intros [Hpos Hret]. unfold score_of in Hpos.
    destruct (JsMap.get a (scores (accumulate txs))) as [s|] eqn:Hget; [|lia].
    exists (mkSuspiciousAccount a (round1 (inject_Z s))
              (tags_of a (accumulate txs)) (ring_of a (accumulate txs))).
    split; [|reflexivity]. apply In_suspicious_accounts. cbn [account_id].
    exists s. repeat split; auto.
Qed.




(** ** The risk score in double precision *)

Lemma upto_spec f k : forall lo,
  upto k f lo = true ->
  forall z, (lo <= z < lo + Z.of_nat k)%Z -> f z = true.
Proof.
  induction k as [|k IH]; intros lo H z Hz; [lia|].
  cbn [upto] in H. apply andb_prop in H. destruct H as [H0 H1].
  destruct (Z.eq_dec z lo) as [->|Hne]; [exact H0|].
  apply (IH (lo + 1)%Z H1). lia.
Qed.

Lemma doubles_agree_sizes :
  forallb doubles_agree [3; 4; 5; 6; 7; 11]%Z = true.
Proof. vm_compute. reflexivity. Qed.

(** For every ring size that occurs and all integer member scores in
    [0, 100], [Math.round] of the double-precision expression is the
    exactly rounded value. *)
Lemma double_agrees n m s :
  In n [3; 4; 5; 6; 7; 11]%Z ->
  (0 <= m <= 100)%Z -> (m <= s <= n * m)%Z ->
  rounds_to (risk_expression_double m s n) (exact_tenths m s n) = true.
Proof.
  intros Hn Hm Hs.
  pose proof (proj1 (forallb_forall _ _) doubles_agree_sizes n Hn) as H.
  unfold doubles_agree in H.
  pose proof (upto_spec _ _ _ H m ltac:(lia)) as H'. cbv beta in H'.
  apply (upto_spec _ _ _ H' s).
  assert (3 <= n)%Z by (simpl in Hn; lia).
  rewrite Z2Nat.id by nia. nia.
Qed.

Lemma fold_max_Z l : forall a,
  In (fold_left Z.max l a) (a :: l)
  /\ (a <= fold_left Z.max l a)%Z
  /\ forall x, In x l -> (x <= fold_left Z.max l a)%Z.
Proof.
  induction l as [|b l IH]; intros a; simpl.
  - split; [now left|]. split; [lia | intros x []].
  - destruct (IH (Z.max a b)) as (Hin & Hge & Hall). split; [|split].
    + destruct Hin as [Hin|Hin]; [|now right; right].
      rewrite <- Hin. destruct (Z.max_spec a b) as [[_ E]|[_ E]]; rewrite E; auto.
    + lia.
    + intros x [<-|Hx]; [lia | now apply Hall].
Qed.

Lemma max_of_spec l :
  l <> [] -> In (max_of l) l /\ forall x, In x l -> (x <= max_of l)%Z.
Proof.
  destruct l as [|a l]; [congruence|]. intros _. unfold max_of.
  destruct (fold_max_Z l a) as (Hin & Hge & Hall).
  split; [exact Hin|]. intros x [<-|Hx]; [exact Hge | now apply Hall].
Qed.

Lemma fold_add_bounds m l : forall acc,
  (forall x, In x l -> (0 <= x <= m)%Z) ->
  (acc <= fold_left Z.add l acc <= acc + Z.of_nat (List.length l) * m)%Z.
Proof.
  induction l as [|x l IH]; intros acc Hl.
  - simpl. lia.
  - specialize (IH (acc + x)%Z (fun y Hy => Hl y (or_intror Hy))).
    pose proof (Hl x (or_introl eq_refl)).
    cbn [fold_left List.length]. rewrite Nat2Z.inj_succ. nia.
Qed.

Lemma fold_add_member m l : forall acc,
  (forall x, In x l -> (0 <= x <= m)%Z) -> In m l ->
  (acc + m <= fold_left Z.add l acc)%Z.
Proof.
  induction l as [|x l IH]; intros acc Hl Hin; [destruct Hin|].
  cbn [fold_left].
  pose proof (Hl x (or_introl eq_refl)) as Hx.
  assert (Hl' : forall y, In y l -> (0 <= y <= m)%Z)
    by (intros y Hy; apply Hl; now right).
  destruct Hin as [->|Hin].
  - pose proof (fold_add_bounds m l (acc + m)%Z Hl'). lia.
  - specialize (IH (acc + x)%Z Hl' Hin). lia.
Qed.

Lemma integer_valued q k :
  (q == inject_Z k)%Q -> (q == inject_Z (Qfloor q))%Q /\ Qfloor q = k.
Proof.
  intros H. assert (E : Qfloor q = k).
  { rewrite (Qfloor_comp _ _ H). apply Qfloor_Z. }
  now rewrite E.
Qed.

(** Member scores are integers between 0 and 100. *)
Lemma member_score_integer txs a :
  (member_score (suspicious_accounts (runDetection txs)) a
   == inject_Z (member_points (suspicious_accounts (runDetection txs)) a))%Q
  /\ (0 <= member_points (suspicious_accounts (runDetection txs)) a <= 100)%Z.
Proof.
  unfold member_points.
  assert (H : exists k,
             (member_score (suspicious_accounts (runDetection txs)) a
              == inject_Z k)%Q /\ (0 <= k <= 100)%Z).
  { unfold member_score. destruct (find _ _) as [acc|] eqn:E.
    - apply find_some in E. destruct E as [Hin _].
      destruct (emitted_score txs acc Hin) as [Hpos ->].
      eexists. split; [apply round1_integer | lia].
    - exists 0%Z. split; [reflexivity | lia]. }
  destruct H as (k & Hk & Hrange).
  destruct (integer_valued _ k Hk) as [H1 H2]. rewrite H2 at 2 3.
  split; [exact H1 | exact Hrange].
Qed.

Section IntegerScores.
Variable f : string -> Q.
Variable g : string -> Z.
Hypothesis f_is_g : forall a, (f a == inject_Z (g a))%Q.

Lemma Qsum_integers l : forall acc z,
  (acc == inject_Z z)%Q ->
  (fold_left Qplus (map f l) acc == inject_Z (fold_left Z.add (map g l) z))%Q.
Proof.
  induction l as [|a l IH]; intros acc z Hacc; simpl; [exact Hacc|].
  apply IH. rewrite inject_Z_plus, Hacc, f_is_g. reflexivity.
Qed.

Lemma Qmax_integers l : forall acc z,
  (acc == inject_Z z)%Q ->
  (fold_left (fun a b => if Qle_bool a b then b else a) (map f l) acc
   == inject_Z (fold_left Z.max (map g l) z))%Q.
Proof.
  induction l as [|a l IH]; intros acc z Hacc; simpl; [exact Hacc|].
  apply IH. destruct (Qle_bool acc (f a)) eqn:E.
  - apply Qle_bool_iff in E. rewrite Hacc, f_is_g, <- Zle_Qle in E.
    rewrite f_is_g. now rewrite Z.max_r.
  - assert (Hlt : (g a < z)%Z).
    { destruct (Z.lt_ge_cases (g a) z) as [H|H]; [exact H|].
      assert (E' : Qle_bool acc (f a) = true).
      { apply Qle_bool_iff. rewrite Hacc, f_is_g, <- Zle_Qle. lia. }
      congruence. }
    rewrite Hacc. now rewrite Z.max_l by lia.
Qed.

Lemma Qmax_of_integers l :
  l <> [] -> (Qmax_of (map f l) == inject_Z (max_of (map g l)))%Q.
Proof.
  destruct l as [|a l]; [congruence|]. intros _. unfold Qmax_of, max_of.
  cbn [map]. apply Qmax_integers, f_is_g.
Qed.

Lemma Qsum_of_integers l : (Qsum (map f l) == inject_Z (Zsum (map g l)))%Q.
Proof. unfold Qsum, Zsum. now apply Qsum_integers. Qed.
End IntegerScores.

Lemma Qfloor_quotient a b : (0 < b)%Z -> Qfloor (inject_Z a / inject_Z b) = (a / b)%Z.
Proof.
  intros Hb. destruct b as [|p|p]; try lia.
  unfold Qfloor, Qdiv, Qmult, Qinv, inject_Z. cbn [Qnum Qden].
  now rewrite Z.mul_1_r, Pos.mul_1_l.
Qed.

(** The exact rounding of the risk expression, in integers. *)
Lemma exact_tenths_spec m s n :
  (0 < n)%Z ->
  js_round ((inject_Z m * (6 # 10) + (inject_Z s / inject_Z n) * (4 # 10)) * 10)
  = exact_tenths m s n.
Proof.
  intros Hn. unfold js_round, exact_tenths.
  assert (E : ((inject_Z m * (6 # 10) + inject_Z s / inject_Z n * (4 # 10)) * 10
               + (1 # 2)
               == inject_Z (2 * (6 * m * n + 4 * s) + n) / inject_Z (2 * n))%Q).
  { repeat (rewrite inject_Z_plus || rewrite inject_Z_mult).
    assert (Hn' : ~ (inject_Z n == 0)%Q).
    { change 0%Q with (inject_Z 0). rewrite inject_Z_injective. lia. }
    change (inject_Z 2) with 2%Q. change (inject_Z 6) with 6%Q.
    change (inject_Z 4) with 4%Q. field. exact Hn'. }
  rewrite (Qfloor_comp _ _ E). apply Qfloor_quotient. lia.
Qed.

(** The risk score of every ring is what the source expression gives
    in double precision: with [m] the maximum, [s] the sum and [n] the
    number of the members' integer scores, [Math.round] of
    [(m * 0.6 + (s / n) * 0.4) * 10] computed on doubles is the integer
    [R] with [risk_score = R / 10]. *)
Lemma ring_risk_in_binary64 txs :
  Forall
    (fun ring =>
       let ks := map (member_points (suspicious_accounts (runDetection txs)))
                     (member_accounts ring) in
       let n := Z.of_nat (List.length ks) in
       rounds_to (risk_expression_double (max_of ks) (Zsum ks) n)
                 (exact_tenths (max_of ks) (Zsum ks) n) = true
       /\ (risk_score ring
           == inject_Z (exact_tenths (max_of ks) (Zsum ks) n) / 10)%Q)
    (fraud_rings (runDetection txs)).
Proof.
  apply Forall_forall. intros ring Hring. cbv zeta.
  destruct (rescored_ring txs ring Hring) as [Hne Hrisk]. cbv zeta in Hne, Hrisk.
  set (accounts := suspicious_accounts (runDetection txs)) in *.
  set (members := member_accounts ring) in *.
  assert (Hmem : members <> []) by (intros E; rewrite E in Hne; now apply Hne).
  assert (Hsize : In (Z.of_nat (List.length members)) [3; 4; 5; 6; 7; 11]%Z).
  { rewrite fraud_rings_runDetection in Hring. apply in_map_iff in Hring.
    destruct Hring as (r & <- & Hr).
    pose proof (proj1 (Forall_forall _ _) (ring_sizes txs) r Hr) as Hok.
    unfold ring_size_ok in Hok. subst members.
    rewrite (proj1 (proj2 (rescore_ring_same _ r))).
    exact (in_map Z.of_nat _ _ Hok). }
  assert (Hpts : forall a, (member_score accounts a
                            == inject_Z (member_points accounts a))%Q)
    by (intros a; apply member_score_integer).
  assert (Hrange : forall k, In k (map (member_points accounts) members) ->
                             (0 <= k <= 100)%Z).
  { intros k Hk. apply in_map_iff in Hk. destruct Hk as (a & <- & _).
    apply member_score_integer. }
  set (ks := map (member_points accounts) members) in *.
  assert (Hks : ks <> []) by (subst ks; destruct members; [congruence | discriminate]).
  destruct (max_of_spec ks Hks) as [Hin Hmax].
  assert (Hlen : List.length ks = List.length members)
    by (subst ks; apply length_map).
  rewrite Hlen.
  assert (Hbound : forall x, In x ks -> (0 <= x <= max_of ks)%Z).
  { intros x Hx. split; [apply (Hrange x Hx) | now apply Hmax]. }
  pose proof (fold_add_bounds (max_of ks) ks 0 Hbound) as Hs1.
  pose proof (fold_add_member (max_of ks) ks 0 Hbound Hin) as Hs2.
  fold (Zsum ks) in Hs1, Hs2. rewrite Hlen in Hs1.
  split.
  - apply double_agrees; [exact Hsize | apply (Hrange _ Hin) | lia].
  - rewrite Hrisk. unfold ring_formula.
    assert (Hn : (0 < Z.of_nat (List.length members))%Z)
      by (destruct members; [congruence | simpl; lia]).
    rewrite <- (exact_tenths_spec _ _ _ Hn). unfold round1.
    assert (E : (Qmax_of (map (member_score accounts) members) * (6 # 10)
                 + Qsum (map (member_score accounts) members)
                   / inject_Z (Z.of_nat
                       (List.length (map (member_score accounts) members)))
                   * (4 # 10)
                 == inject_Z (max_of ks) * (6 # 10)
                    + inject_Z (Zsum ks) / inject_Z (Z.of_nat (List.length members))
                      * (4 # 10))%Q).
    { rewrite (Qmax_of_integers _ _ Hpts members Hmem).
      rewrite (Qsum_of_integers _ _ Hpts members).
      now rewrite length_map. }
    apply (round1_compat _ _ E).
Qed.

(** C7: the final risk score of every fraud ring is 0.6 times the
    maximum plus 0.4 times the mean of its members' final suspicion
    scores, rounded to one decimal and capped at 100 (it lies between 0
    and 100), and the double-precision evaluation of the expression
    rounds to the same tenths; a member counts with the suspicion score
    of the emitted account of that id, and with 0 when no such account
    was emitted. *)
Theorem ring_risk_is_weighted_score txs :
  Forall
    (fun ring =>
       (let ms := map (member_score (suspicious_accounts (runDetection txs)))
                      (member_accounts ring) in
        exists m,
          In m ms /\ (forall x, In x ms -> (x <= m)%Q)
          /\ (risk_score ring
              == Qmin100
                   (round1 ((6 # 10) * m
                            + (4 # 10)
                              * (Qsum ms / inject_Z (Z.of_nat (List.length ms))))))%Q
          /\ (0 <= risk_score ring)%Q /\ (risk_score ring <= 100)%Q)
       /\ (let ks := map (member_points (suspicious_accounts (runDetection txs)))
                         (member_accounts ring) in
           let n := Z.of_nat (List.length ks) in
           rounds_to (risk_expression_double (max_of ks) (Zsum ks) n)
                     (exact_tenths (max_of ks) (Zsum ks) n) = true
           /\ (risk_score ring
               == inject_Z (exact_tenths (max_of ks) (Zsum ks) n) / 10)%Q))
    (fraud_rings (runDetection txs))
  /\ (forall acc,
        In acc (suspicious_accounts (runDetection txs)) ->
        member_score (suspicious_accounts (runDetection txs)) (account_id acc)
        = suspicion_score acc)
  /\ (forall a,
        (forall acc, In acc (suspicious_accounts (runDetection txs)) ->
                     account_id acc <> a) ->
        member_score (suspicious_accounts (runDetection txs)) a = 0%Q).
Proof.
  split; [|split; [apply member_score_emitted | apply member_score_absent]].
  pose proof (ring_risk_exact txs) as H1.
  pose proof (ring_risk_in_binary64 txs) as H2.
  rewrite Forall_forall in *. intros ring Hring.
  split; [exact (H1 ring Hring) | exact (H2 ring Hring)].
Qed.

Lemma ring_risk_is_weighted_score_witness :
  exists ring,
    In ring (fraud_rings (runDetection two_triangles))
    /\ fr_ring_id ring = "RING_001"
    /\ member_accounts ring = ["A"; "B"; "C"]
    /\ (member_score (suspicious_accounts (runDetection two_triangles)) "A"
        == 100)%Q
    /\ (member_score (suspicious_accounts (runDetection two_triangles)) "B"
        == 80)%Q
    /\ (member_score (suspicious_accounts (runDetection two_triangles)) "C"
        == 95)%Q
    /\ (risk_score ring == 967 # 10)%Q
    /\ (let ms := map (member_score (suspicious_accounts
                                       (runDetection two_triangles)))
                      (member_accounts ring) in
        exists m,
          In m ms /\ (forall x, In x ms -> (x <= m)%Q)
          /\ (risk_score ring
              == Qmin100
                   (round1 ((6 # 10) * m
                            + (4 # 10)
                              * (Qsum ms / inject_Z (Z.of_nat (List.length ms))))))%Q
          /\ (0 <= risk_score ring)%Q /\ (risk_score ring <= 100)%Q).
Proof.
  exists (mkFraudRing "RING_001" ["A"; "B"; "C"] "cycle" (967 # 10)).
  assert (Hin : In (mkFraudRing "RING_001" ["A"; "B"; "C"] "cycle" (967 # 10))
                   (fraud_rings (runDetection two_triangles)))
    by (vm_compute; left; reflexivity).
  split; [exact Hin|]. split; [reflexivity|]. split; [reflexivity|].
  split; [vm_compute; reflexivity|]. split; [vm_compute; reflexivity|].
  split; [vm_compute; reflexivity|]. split; [reflexivity|].
  exact (proj1 (proj1 (Forall_forall _ _)
                  (proj1 (ring_risk_is_weighted_score two_triangles)) _ Hin)).
Defined.

(* ================================================================== *)
(** * Further properties of the engine *)

(** ** The graph builder *)

Lemma has_keys {V} k (m : JsMap.t V) : JsMap.has k m = JsSet.has k (JsMap.keys m).
Proof.
  unfold JsMap.has. induction m as [|[k' v] m IH]; simpl; [reflexivity|].
  destruct (String.eqb k k'); [reflexivity | exact IH].
Qed.

Lemma keys_getOrCreate_add k nodes :
  JsMap.keys (getOrCreate k nodes) = JsSet.add k (JsMap.keys nodes).
Proof.
  unfold getOrCreate, JsSet.add. rewrite <- has_keys.
  destruct (JsMap.has k nodes) eqn:E; [reflexivity|].
  rewrite JsMapFacts.keys_set. now rewrite E.
Qed.

Lemma keys_buildGraph_step nodes t :
  JsMap.keys (buildGraph_step nodes t)
  = JsSet.add (receiver_id t) (JsSet.add (sender_id t) (JsMap.keys nodes)).
Proof.
  unfold buildGraph_step. rewrite !JsMapFacts.keys_modify.
  now rewrite !keys_getOrCreate_add.
Qed.

Lemma keys_fold_buildGraph txs : forall nodes,
  JsMap.keys (fold_left buildGraph_step txs nodes)
  = fold_left (fun s x => JsSet.add x s) (flat_map ends txs) (JsMap.keys nodes).
Proof.
  induction txs as [|t txs IH]; intros nodes; simpl; [reflexivity|].
  now rewrite IH, keys_buildGraph_step.
Qed.

Lemma node_of_step nodes t a :
  node_of (buildGraph_step nodes t) a = touch t a (node_of nodes a).
Proof.
  unfold node_of, touch, buildGraph_step.
  rewrite !JsMapFacts.get_modify, !get_getOrCreate.
  rewrite (String.eqb_sym a (sender_id t)), (String.eqb_sym a (receiver_id t)).
  destruct (String.eqb_spec (sender_id t) a) as [Hs|Hs],
           (String.eqb_spec (receiver_id t) a) as [Hr|Hr];
    destruct (JsMap.get a nodes); simpl; try rewrite Hs; try rewrite Hr;
    reflexivity.
Qed.


Lemma node_of_fold txs a : forall nodes,
  node_of (fold_left buildGraph_step txs nodes) a
  = fold_left (fun n t => touch t a n) txs (node_of nodes a).
Proof.
  induction txs as [|t txs IH]; intros nodes; simpl; [reflexivity|].
  now rewrite IH, node_of_step.
Qed.

Lemma id_touch t a n : id (touch t a n) = id n.
Proof.
  unfold touch.
  destruct (String.eqb (sender_id t) a), (String.eqb (receiver_id t) a); reflexivity.
Qed.

Lemma total_touch t a n :
  totalTxCount (touch t a n)
  = totalTxCount n + tx_count a [t].
Proof.
  unfold touch, tx_count. simpl.
  destruct (String.eqb (sender_id t) a), (String.eqb (receiver_id t) a); simpl; lia.
Qed.

Lemma transactions_touch t a n :
  transactions (touch t a n) = transactions n ++ outgoing a [t].
Proof.
  unfold touch, outgoing. simpl.
  destruct (String.eqb (sender_id t) a), (String.eqb (receiver_id t) a); simpl;
    now rewrite ?app_nil_r.
Qed.

Lemma count_set b k v m :
  count_or_0 b (JsMap.set k v m) = if String.eqb b k then v else count_or_0 b m.
Proof.
  unfold count_or_0. rewrite JsMapFacts.get_set.
  now destruct (String.eqb b k).
Qed.

Lemma out_touch t a n b :
  count_or_0 b (outEdges (touch t a n))
  = count_or_0 b (outEdges n) + List.length (transfers a b [t]).
Proof.
  unfold touch, transfers. simpl.
  destruct (String.eqb_spec (sender_id t) a) as [Hs|Hs],
           (String.eqb (receiver_id t) a); simpl; rewrite ?count_set;
    rewrite ?(String.eqb_sym b (receiver_id t));
    destruct (String.eqb_spec (receiver_id t) b) as [Hr|Hr]; simpl; subst; lia.
Qed.

Lemma in_touch t a n b :
  count_or_0 b (inEdges (touch t a n))
  = count_or_0 b (inEdges n) + List.length (transfers b a [t]).
Proof.
  unfold touch, transfers. simpl.
  destruct (String.eqb (sender_id t) a),
           (String.eqb_spec (receiver_id t) a) as [Hr|Hr]; simpl; rewrite ?count_set;
    rewrite ?(String.eqb_sym b (sender_id t));
    destruct (String.eqb_spec (sender_id t) b) as [Hs|Hs]; simpl; subst; lia.
Qed.

Lemma out_keys_touch t a n b :
  In b (JsMap.keys (outEdges (touch t a n)))
  <-> In b (JsMap.keys (outEdges n)) \/ (sender_id t = a /\ receiver_id t = b).
Proof.
  unfold touch.
  destruct (String.eqb_spec (sender_id t) a) as [Hs|Hs],
           (String.eqb (receiver_id t) a); simpl;
    rewrite ?JsMapFacts.In_keys_set; intuition congruence.
Qed.

Section TouchFold.
Variable a : string.

Lemma touch_fold_fields txs : forall n,
  let n' := fold_left (fun n t => touch t a n) txs n in
  id n' = id n
  /\ totalTxCount n' = totalTxCount n + tx_count a txs
  /\ transactions n' = transactions n ++ outgoing a txs
  /\ (forall b, count_or_0 b (outEdges n')
                = count_or_0 b (outEdges n) + List.length (transfers a b txs))
  /\ (forall b, count_or_0 b (inEdges n')
                = count_or_0 b (inEdges n) + List.length (transfers b a txs))
  /\ (forall b, In b (JsMap.keys (outEdges n'))
                <-> In b (JsMap.keys (outEdges n))
                    \/ exists t, In t txs /\ sender_id t = a /\ receiver_id t = b).
Proof.
  induction txs as [|t txs IH]; intros n; cbn zeta.
  - simpl. unfold tx_count, outgoing, transfers. simpl.
    rewrite app_nil_r.
    split; [reflexivity|]. split; [lia|]. split; [reflexivity|].
    split; [intros b; lia|]. split; [intros b; lia|].
    intros b. split; [auto | intros [H|[t [[] _]]]; exact H].
  - simpl fold_left. specialize (IH (touch t a n)). cbn zeta in IH.
    destruct IH as (H1 & H2 & H3 & H4 & H5 & H6).
    split; [now rewrite H1, id_touch|].
    split.
    { rewrite H2, total_touch. unfold tx_count. simpl.
      destruct (String.eqb (sender_id t) a), (String.eqb (receiver_id t) a);
        simpl; lia. }
    split.
    { rewrite H3, transactions_touch. unfold outgoing. simpl.
      destruct (String.eqb (sender_id t) a); simpl;
        [now rewrite <- app_assoc | now rewrite app_nil_r]. }
    split.
    { intros b. rewrite H4, out_touch. unfold transfers. simpl.
      destruct (String.eqb (sender_id t) a && String.eqb (receiver_id t) b);
        simpl; lia. }
    split.
    { intros b. rewrite H5, in_touch. unfold transfers. simpl.
      destruct (String.eqb (sender_id t) b && String.eqb (receiver_id t) a);
        simpl; lia. }
    intros b. rewrite H6, out_keys_touch. split.
    + intros [[H|[Hs Hr]]|[t' [Hin H]]]; auto.
      * right. exists t. simpl. auto.
      * right. exists t'. simpl. auto.
    + intros [H|[t' [[<-|Hin] H]]]; auto.
      right. exists t'. auto.
Qed.
End TouchFold.

Lemma node_of_get nodes a node :
  JsMap.get a nodes = Some node -> node_of nodes a = node.
Proof. unfold node_of. now intros ->. Qed.

Lemma node_of_buildGraph txs a :
  node_of (buildGraph txs) a
  = fold_left (fun n t => touch t a n) txs
      (mkGraphNode a JsMap.empty JsMap.empty [] 0).
Proof. unfold buildGraph. now rewrite node_of_fold. Qed.

Lemma keys_buildGraph txs :
  JsMap.keys (buildGraph txs) = JsSet.of_list (flat_map ends txs).
Proof. unfold buildGraph. now rewrite keys_fold_buildGraph. Qed.

Lemma In_keys_buildGraph txs a :
  In a (JsMap.keys (buildGraph txs))
  <-> exists t, In t txs /\ (sender_id t = a \/ receiver_id t = a).
Proof.
  rewrite keys_buildGraph, JsSetFacts.In_of_list, in_flat_map.
  unfold ends. simpl. split; intros [t [Hin H]]; exists t; tauto.
Qed.

Lemma edge_buildGraph txs a b :
  edge (buildGraph txs) a b
  <-> exists t, In t txs /\ sender_id t = a /\ receiver_id t = b.
Proof.
  pose proof (touch_fold_fields a txs (mkGraphNode a JsMap.empty JsMap.empty [] 0))
    as H. cbn zeta in H. destruct H as (_ & _ & _ & _ & _ & H).
  rewrite <- node_of_buildGraph in H. split.
  - intros (node & Hg & Hin). apply node_of_get in Hg. subst node.
    apply H in Hin. destruct Hin as [[]|Hin]. exact Hin.
  - intros Ht. assert (Hk : In a (JsMap.keys (buildGraph txs))).
    { apply In_keys_buildGraph. destruct Ht as (t & Hin & Hs & _). eauto. }
    apply JsMapFacts.get_In_keys in Hk.
    destruct (JsMap.get a (buildGraph txs)) as [node|] eqn:Hg; [clear Hk|congruence].
    exists node. split; [exact Hg|].
    rewrite <- (node_of_get _ _ _ Hg). apply H. now right.
Qed.
(** X1: the node map of [buildGraph] holds one node per account that
    occurs in the transactions, in the order of first appearance (the
    sender of a transaction before its receiver), and every node is
    stored under its own [id]. *)
Theorem buildGraph_nodes_in_order_of_first_appearance (txs : list Transaction) :
  JsMap.keys (buildGraph txs) = JsSet.of_list (flat_map ends txs)
  /\ map (fun entry => id (snd entry)) (buildGraph txs) = JsMap.keys (buildGraph txs).
Proof.
  split; [apply keys_buildGraph|].
  unfold JsMap.keys. apply map_ext_in. intros [k node] Hin. simpl.
  apply JsMapFacts.In_get in Hin; [|apply NoDup_keys_buildGraph].
  apply node_of_get in Hin. rewrite <- Hin, node_of_buildGraph.
  now destruct (touch_fold_fields k txs (mkGraphNode k JsMap.empty JsMap.empty [] 0))
    as (-> & _).
Qed.

(** X2: the node of an account counts every transaction it takes part
    in, once as sender and once as receiver (a self-transfer counts
    twice), and its [transactions] are exactly the ones it sent, in
    input order. *)
Theorem buildGraph_node_totals (txs : list Transaction) (a : string)
    (node : GraphNode) :
  JsMap.get a (buildGraph txs) = Some node ->
  totalTxCount node = tx_count a txs
  /\ transactions node = outgoing a txs.
Proof.
  intros Hg. apply node_of_get in Hg. rewrite <- Hg, node_of_buildGraph.
  destruct (touch_fold_fields a txs (mkGraphNode a JsMap.empty JsMap.empty [] 0))
    as (_ & H2 & H3 & _).
  split; [exact H2 | exact H3].
Qed.

Lemma buildGraph_node_totals_witness :
  totalTxCount (node_of (buildGraph two_triangles) "A") = tx_count "A" two_triangles
  /\ transactions (node_of (buildGraph two_triangles) "A")
     = outgoing "A" two_triangles.
Proof.
  apply (buildGraph_node_totals two_triangles "A"). vm_compute. reflexivity.
Defined.

(** X3: edge weights are multiplicities.  The out-edge count of [a]
    towards [b] and the in-edge count of [b] from [a] both equal the
    number of transactions from [a] to [b], and [b] is a key of [a]'s
    out-edges exactly when there is such a transaction. *)
Theorem buildGraph_edge_counts (txs : list Transaction) (a b : string)
    (na nb : GraphNode) :
  JsMap.get a (buildGraph txs) = Some na ->
  JsMap.get b (buildGraph txs) = Some nb ->
  count_or_0 b (outEdges na) = List.length (transfers a b txs)
  /\ count_or_0 a (inEdges nb) = List.length (transfers a b txs)
  /\ (In b (JsMap.keys (outEdges na)) <-> transfers a b txs <> []).
Proof.
  intros Ha Hb. apply node_of_get in Ha, Hb. rewrite <- Ha, <- Hb, !node_of_buildGraph.
  destruct (touch_fold_fields a txs (mkGraphNode a JsMap.empty JsMap.empty [] 0))
    as (_ & _ & _ & H4 & _ & H6).
  destruct (touch_fold_fields b txs (mkGraphNode b JsMap.empty JsMap.empty [] 0))
    as (_ & _ & _ & _ & H5 & _).
  split; [now rewrite H4|]. split; [now rewrite H5|].
  rewrite H6. simpl. split.
  - intros [[]|(t & Hin & Hs & Hr)] E.
    assert (Ht : In t (transfers a b txs)).
    { apply filter_In. split; [exact Hin|].
      apply andb_true_iff. split; now apply String.eqb_eq. }
    rewrite E in Ht. exact Ht.
  - intros Hne. right. destruct (transfers a b txs) as [|t l] eqn:E; [congruence|].
    assert (Ht : In t (transfers a b txs)) by (rewrite E; now left).
    apply filter_In in Ht. destruct Ht as [Hin Ht].
    apply andb_true_iff in Ht. destruct Ht as [Hs Hr].
    exists t. split; [exact Hin|]. split; now apply String.eqb_eq.
Qed.

Lemma buildGraph_edge_counts_witness :
  count_or_0 "B" (outEdges (node_of (buildGraph two_triangles) "A"))
  = List.length (transfers "A" "B" two_triangles)
  /\ count_or_0 "A" (inEdges (node_of (buildGraph two_triangles) "B"))
     = List.length (transfers "A" "B" two_triangles)
  /\ (In "B" (JsMap.keys (outEdges (node_of (buildGraph two_triangles) "A")))
      <-> transfers "A" "B" two_triangles <> []).
Proof.
  apply (buildGraph_edge_counts two_triangles "A" "B");
    vm_compute; reflexivity.
Defined.

(** X4: [total_accounts_analyzed] is the number of distinct account
    ids among the senders and receivers of the input. *)
Theorem total_accounts_analyzed_counts_distinct_accounts (txs : list Transaction) :
  total_accounts_analyzed (runDetection txs) = distinct_count (flat_map ends txs).
Proof.
  unfold runDetection. cbn [total_accounts_analyzed].
  rewrite keys_buildGraph. apply size_of_list.
Qed.

(** ** Soundness and completeness of the cycle search *)

Lemma is_path_snoc nodes p x y :
  is_path nodes (p ++ [x]) -> edge nodes x y -> is_path nodes ((p ++ [x]) ++ [y]).
Proof.
  intros Hp He. induction p as [|a p IH]; simpl; [auto|].
  simpl in Hp. destruct (p ++ [x]) as [|b r] eqn:E.
  - now destruct p.
  - destruct Hp as [Hab Hr]. simpl. split; [exact Hab | now apply IH].
Qed.

Lemma is_path_flow txs p : is_path (buildGraph txs) p <-> flow txs p.
Proof.
  induction p as [|a [|b r] IH]; simpl; try tauto.
  simpl in IH. rewrite IH. unfold sends. now rewrite edge_buildGraph.
Qed.

(** Whatever [record_cycle] preserves, the search preserves. *)
Lemma cycle_dfs_preserves (P : CycleState -> Prop) nodes start :
  (forall path st, P st -> P (record_cycle path st)) ->
  forall depth current path visited st,
    P st -> P (cycle_dfs depth nodes start current path visited st).
Proof.
  intros Hrec. induction depth as [|d IH]; intros current path visited st Hst;
    rewrite cycle_dfs_eq; destruct (JsMap.get current nodes); auto;
    apply fold_left_inv; auto; clear Hst st; intros st neighbor Hst;
    (destruct (_ && _ && _); [now apply Hrec|]);
    destruct (_ && _); auto.
Qed.

Lemma cycle_dfs_sound nodes start depth : forall current q visited st,
  firstn 1 (q ++ [current]) = [start] ->
  is_path nodes (q ++ [current]) ->
  Forall (fun c => is_path nodes (c ++ firstn 1 c)) (cycles st) ->
  Forall (fun c => is_path nodes (c ++ firstn 1 c))
    (cycles (cycle_dfs depth nodes start current (q ++ [current]) visited st)).
Proof.
  induction depth as [|d IH]; intros current q visited st Hhd Hp Hst;
    rewrite cycle_dfs_eq;
    destruct (JsMap.get current nodes) as [node|] eqn:Hnode; auto;
    apply (fold_left_inv_in
             (fun st => Forall (fun c => is_path nodes (c ++ firstn 1 c)) (cycles st)));
    auto; clear Hst st; intros st neighbor Hin Hst;
    assert (He : edge nodes current neighbor) by (exists node; auto);
    (destruct (String.eqb neighbor start && (3 <=? List.length (q ++ [current]))
               && (List.length (q ++ [current]) <=? 5)) eqn:E;
     [ apply andb_prop in E; destruct E as [E _]; apply andb_prop in E;
       destruct E as [E _]; apply String.eqb_eq in E; subst neighbor;
       unfold record_cycle; destruct (JsSet.has _ _); auto; cbn [cycles];
       apply Forall_app; split; [exact Hst|]; constructor; [|constructor];
       rewrite Hhd; now apply is_path_snoc | ]);
    destruct (negb (JsSet.has neighbor visited)
              && (List.length (q ++ [current]) <? 5)); auto.
  apply (IH neighbor (q ++ [current])); auto.
  - destruct q; simpl in *; auto.
  - now apply is_path_snoc.
Qed.

Lemma detectCycles_sound nodes :
  Forall (fun c => is_path nodes (c ++ firstn 1 c)) (detectCycles nodes).
Proof.
  unfold detectCycles.
  apply (fold_left_inv
           (fun st => Forall (fun c => is_path nodes (c ++ firstn 1 c)) (cycles st)));
    [|constructor].
  intros st nodeId Hst. apply (cycle_dfs_sound nodes nodeId 5 nodeId []); simpl; auto.
Qed.

(** X5: every cycle the detector reports is a cycle of the
    transactions: each account sent at least one transaction to the
    next account, and the last account to the first. *)
Theorem detectCycles_reports_real_cycles (txs : list Transaction) :
  Forall (fun c => flow txs (c ++ firstn 1 c)) (detectCycles (buildGraph txs)).
Proof.
  eapply Forall_impl; [|apply detectCycles_sound].
  intros c H. now apply is_path_flow.
Qed.
Lemma fold_left_reach {A B} (P : A -> Prop) (f : A -> B -> A) l x :
  In x l -> (forall a, P (f a x)) -> (forall a b, P a -> P (f a b)) ->
  forall a, P (fold_left f l a).
Proof.
  intros Hin Hx Hf. induction l as [|b l IH]; simpl; [destruct Hin|].
  intros a. destruct Hin as [->|Hin]; [|now apply IH].
  apply fold_left_inv; [exact Hf | apply Hx].
Qed.

Lemma is_path_app nodes l1 l2 :
  is_path nodes (l1 ++ l2) -> is_path nodes l1 /\ is_path nodes l2.
Proof.
  induction l1 as [|a l1 IH]; simpl; [tauto|].
  destruct l1 as [|b l1]; simpl in *.
  - destruct l2; tauto.
  - tauto.
Qed.

Lemma is_path_step nodes p x y r :
  is_path nodes ((p ++ [x]) ++ y :: r) -> edge nodes x y.
Proof.
  rewrite <- app_assoc. intros H. apply is_path_app in H. simpl in H. tauto.
Qed.

Lemma record_cycle_mono k path st :
  In k (allCycleStrings st) -> In k (allCycleStrings (record_cycle path st)).
Proof.
  unfold record_cycle. destruct (JsSet.has _ _); [auto|]. simpl.
  intros H. apply JsSetFacts.In_add. now right.
Qed.

Lemma record_cycle_key path st :
  In (cycle_key path) (allCycleStrings (record_cycle path st)).
Proof.
  unfold record_cycle. destruct (JsSet.has _ _) eqn:E.
  - now apply JsSetFacts.has_In.
  - simpl. apply JsSetFacts.In_add. now left.
Qed.

(** Every recorded key is the key of a recorded cycle. *)
Lemma record_cycle_keys path st :
  (forall k, In k (allCycleStrings st) ->
             exists c, In c (cycles st) /\ cycle_key c = k) ->
  forall k, In k (allCycleStrings (record_cycle path st)) ->
            exists c, In c (cycles (record_cycle path st)) /\ cycle_key c = k.
Proof.
  intros H k. unfold record_cycle. destruct (JsSet.has _ _); [apply H|].
  simpl. rewrite JsSetFacts.In_add. intros [->|Hk].
  - exists path. split; [apply in_or_app; right; now left | reflexivity].
  - destruct (H k Hk) as (c & Hc & E). exists c.
    split; [apply in_or_app; now left | exact E].
Qed.

(** From a prefix of a simple cycle the search reaches its end and
    records it. *)
Lemma cycle_dfs_complete nodes start : forall post depth current q visited st,
  firstn 1 (q ++ [current]) = [start] ->
  NoDup ((q ++ [current]) ++ post) ->
  3 <= List.length ((q ++ [current]) ++ post) <= 5 ->
  is_path nodes (((q ++ [current]) ++ post) ++ [start]) ->
  (forall x, In x visited -> In x (q ++ [current])) ->
  List.length post <= depth ->
  In (cycle_key ((q ++ [current]) ++ post))
     (allCycleStrings
        (cycle_dfs depth nodes start current (q ++ [current]) visited st)).
Proof.
  induction post as [|n post IH];
    intros depth current q visited st Hhd Hnd Hlen Hp Hvis Hdepth.
  - rewrite app_nil_r in *.
    destruct (is_path_step nodes q current start [] Hp) as (node & Hnode & Hin).
    rewrite cycle_dfs_eq, Hnode.
    apply (fold_left_reach (fun st => In (cycle_key (q ++ [current]))
                                         (allCycleStrings st)) _ _ start Hin).
    + intros a. rewrite String.eqb_refl.
      destruct Hlen as [H3 H5]. apply Nat.leb_le in H3, H5. rewrite H3, H5. simpl.
      apply record_cycle_key.
    + intros a b Ha.
      destruct (_ && _ && _); [now apply record_cycle_mono|].
      destruct (_ && _); [|exact Ha].
      destruct depth; [exact Ha|].
      apply cycle_dfs_preserves; [|exact Ha].
      intros path' st'. apply record_cycle_mono.
  - assert (He : edge nodes current n).
    { rewrite <- app_assoc in Hp. simpl in Hp.
      exact (is_path_step nodes q current n _ Hp). }
    destruct He as (node & Hnode & Hin).
    assert (Hn : ~ In n (q ++ [current])).
    { apply NoDup_remove_2 in Hnd. rewrite in_app_iff in Hnd. tauto. }
    assert (Hs : In start (q ++ [current])).
    { destruct (q ++ [current]) as [|s l]; [discriminate|].
      simpl in Hhd. inversion Hhd. now left. }
    rewrite cycle_dfs_eq, Hnode.
    apply (fold_left_reach (fun st => In (cycle_key ((q ++ [current]) ++ n :: post))
                                         (allCycleStrings st)) _ _ n Hin).
    + intros a.
      destruct (String.eqb_spec n start) as [->|_]; [tauto|]. simpl.
      assert (Hv : JsSet.has n visited = false).
      { apply JsSetFacts.has_false. intros H. apply Hn, Hvis, H. }
      rewrite Hv. simpl.
      rewrite !length_app in Hlen. simpl in Hlen, Hdepth.
      assert (H5 : (List.length (q ++ [current]) <? 5) = true).
      { apply Nat.ltb_lt. rewrite length_app. simpl. lia. }
      rewrite H5. destruct depth as [|d]; [lia|].
      replace ((q ++ [current]) ++ n :: post)
        with (((q ++ [current]) ++ [n]) ++ post) in *
        by (now rewrite <- (app_assoc _ [n] post)).
      apply IH; auto.
      * destruct q; simpl in *; auto.
      * rewrite !length_app. simpl. lia.
      * intros x Hx. apply JsSetFacts.In_add in Hx. apply in_or_app.
        destruct Hx as [->|Hx]; [right; now left | left; auto].
      * lia.
    + intros a b Ha.
      destruct (_ && _ && _); [now apply record_cycle_mono|].
      destruct (_ && _); [|exact Ha].
      destruct depth; [exact Ha|].
      apply cycle_dfs_preserves; [|exact Ha].
      intros path' st'. apply record_cycle_mono.
Qed.

Lemma detectCycles_complete nodes c :
  NoDup c -> 3 <= List.length c <= 5 ->
  is_path nodes (c ++ firstn 1 c) ->
  exists c', In c' (detectCycles nodes) /\ cycle_key c' = cycle_key c.
Proof.
  intros Hnd Hlen Hp. destruct c as [|s post]; [simpl in Hlen; lia|].
  unfold detectCycles.
  set (final := fold_left _ _ _).
  assert (Hkeys : forall k, In k (allCycleStrings final) ->
                            exists c', In c' (cycles final) /\ cycle_key c' = k).
  { apply (fold_left_inv
             (fun st => forall k, In k (allCycleStrings st) ->
                                  exists c', In c' (cycles st) /\ cycle_key c' = k)).
    - intros st nodeId Hst. apply cycle_dfs_preserves; [|exact Hst].
      intros path st'. apply record_cycle_keys.
    - simpl. tauto. }
  apply Hkeys. unfold final.
  assert (Hs : In s (JsMap.keys nodes)).
  { destruct post as [|n post]; [simpl in Hlen; lia|].
    simpl in Hp. destruct Hp as [(node & Hnode & _) _].
    apply JsMapFacts.get_In_keys. congruence. }
  apply (fold_left_reach (fun st => In (cycle_key (s :: post)) (allCycleStrings st))
           _ _ s Hs).
  - intros a.
    apply (cycle_dfs_complete nodes s post 5 s [] (JsSet.of_list [s]) a);
      [reflexivity | exact Hnd | exact Hlen | exact Hp | |].
    + intros x Hx. now apply JsSetFacts.In_of_list in Hx.
    + simpl in Hlen. lia.
  - intros a b Ha. apply cycle_dfs_preserves; [|exact Ha].
    intros path' st'. apply record_cycle_mono.
Qed.



(** ** Soundness and completeness of the chain search *)

(** Whatever [record_chain] preserves, the search preserves. *)
Lemma shell_dfs_preserves (P : ShellState -> Prop) nodes :
  (forall path st, P st -> P (record_chain path st)) ->
  forall depth current path st, P st -> P (shell_dfs depth nodes current path st).
Proof.
  intros Hrec. induction depth as [|d IH]; intros current path st Hst;
    rewrite shell_dfs_eq; destruct (JsMap.get current nodes); auto;
    apply fold_left_inv; auto; clear Hst st; intros st neighbor Hst; cbv zeta;
    (destruct (includes neighbor path); [exact Hst|]);
    (destruct (_ && _); [exact Hst|]);
    assert (Hst' : P (if 3 <=? List.length (path ++ [neighbor])
                      then if forallb (fun k => total_or_0 nodes k <=? 3)
                                      (slice_interior (path ++ [neighbor]))
                           then record_chain (path ++ [neighbor]) st
                           else st
                      else st))
      by (destruct (3 <=? _); [destruct (forallb _ _); auto | exact Hst]);
    destruct (List.length (path ++ [neighbor]) <? 7); auto.
Qed.

Lemma shell_dfs_sound nodes depth : forall current q st,
  is_path nodes (q ++ [current]) ->
  Forall (is_path nodes) (chains st) ->
  Forall (is_path nodes) (chains (shell_dfs depth nodes current (q ++ [current]) st)).
Proof.
  induction depth as [|d IH]; intros current q st Hp Hst;
    rewrite shell_dfs_eq;
    destruct (JsMap.get current nodes) as [node|] eqn:Hnode; auto;
    apply (fold_left_inv_in (fun st => Forall (is_path nodes) (chains st)));
    auto; clear Hst st; intros st neighbor Hin Hst; cbv zeta;
    assert (Hp' : is_path nodes ((q ++ [current]) ++ [neighbor]))
      by (apply is_path_snoc; [exact Hp | exists node; auto]);
    (destruct (includes neighbor (q ++ [current])); [exact Hst|]);
    (destruct (_ && _); [exact Hst|]);
    assert (Hst' : Forall (is_path nodes)
                     (chains
                        (if 3 <=? List.length ((q ++ [current]) ++ [neighbor])
                         then if forallb (fun k => total_or_0 nodes k <=? 3)
                                   (slice_interior ((q ++ [current]) ++ [neighbor]))
                              then record_chain ((q ++ [current]) ++ [neighbor]) st
                              else st
                         else st)))
      by (destruct (3 <=? _); [|exact Hst]; destruct (forallb _ _); [|exact Hst];
          unfold record_chain; destruct (JsSet.has _ _); [exact Hst|];
          cbn [chains]; apply Forall_app; split; [exact Hst|];
          constructor; [exact Hp' | constructor]);
    destruct (List.length ((q ++ [current]) ++ [neighbor]) <? 7); auto.
Qed.

Lemma detectShellNetworks_sound nodes :
  Forall (is_path nodes) (detectShellNetworks nodes).
Proof.
  unfold detectShellNetworks.
  apply (fold_left_inv (fun st => Forall (is_path nodes) (chains st)));
    [|constructor].
  intros st nodeId Hst. apply (shell_dfs_sound nodes 7 nodeId []); simpl; auto.
Qed.

Lemma record_chain_distinct path st :
  NoDup (map chain_key (chains st))
  /\ (forall c, In c (chains st) -> In (chain_key c) (reportedChains st)) ->
  NoDup (map chain_key (chains (record_chain path st)))
  /\ (forall c, In c (chains (record_chain path st)) ->
                In (chain_key c) (reportedChains (record_chain path st))).
Proof.
  intros [Hnd Hkeys]. unfold record_chain.
  destruct (JsSet.has _ _) eqn:E; [now split|]. simpl.
  apply JsSetFacts.has_false in E. split.
  - rewrite map_app. simpl. apply NoDup_snoc; [exact Hnd|].
    intros Hin. apply in_map_iff in Hin. destruct Hin as (c & Hk & Hc).
    apply E. rewrite <- Hk. now apply Hkeys.
  - intros c Hc. apply JsSetFacts.In_add.
    apply in_app_or in Hc. destruct Hc as [Hc|[<-|[]]]; auto.
Qed.

Lemma detectShellNetworks_distinct nodes :
  NoDup (map chain_key (detectShellNetworks nodes)).
Proof.
  unfold detectShellNetworks.
  apply (fold_left_inv
           (fun st => NoDup (map chain_key (chains st))
                      /\ forall c, In c (chains st) ->
                                   In (chain_key c) (reportedChains st))).
  - intros st nodeId Hst. apply shell_dfs_preserves; [|exact Hst].
    intros path st'. apply record_chain_distinct.
  - split; [constructor | simpl; tauto].
Qed.

(** X7: every chain the shell detector reports is a path of the
    transactions through 3 to 7 distinct accounts, on which every
    account but the last -- the first one included -- has at most three
    transactions in all, sent plus received; and no chain is reported
    twice. *)
Theorem detectShellNetworks_reports_low_activity_paths (txs : list Transaction) :
  Forall
    (fun chain =>
       3 <= List.length chain <= 7 /\ NoDup chain /\ flow txs chain
       /\ Forall (fun a => tx_count a txs <= 3) (removelast chain))
    (detectShellNetworks (buildGraph txs))
  /\ NoDup (detectShellNetworks (buildGraph txs)).
Proof.
  split.
  - apply Forall_forall. intros chain Hin.
    pose proof (proj1 (Forall_forall _ _) (detectShellNetworks_ok (buildGraph txs))
                  chain Hin) as (Hlen & Hnd & Hlow).
    pose proof (proj1 (Forall_forall _ _) (detectShellNetworks_sound (buildGraph txs))
                  chain Hin) as Hp.
    split; [exact Hlen|]. split; [exact Hnd|]. split; [now apply is_path_flow|].
    eapply Forall_impl; [|exact Hlow].
    intros a Ha. now rewrite <- total_buildGraph.
  - apply (NoDup_map_inv chain_key). apply detectShellNetworks_distinct.
Qed.








(** ** The velocity check *)

Section VelocityScan.
Variable sorted : list Transaction.
Hypothesis sorted_by_time : time_sorted sorted.

Let W : Z := (24 * 60 * 60 * 1000)%Z.
Let T := time_at sorted.
Let stale (r l : nat) : Prop := forall i, i < l -> (T r - T i > W)%Z.

Lemma W_nonneg : (0 <= W)%Z.
Proof. unfold W. lia. Qed.

Lemma stale_next r l : S r < List.length sorted -> stale r l -> stale (S r) l.
Proof.
  intros Hr Hold i Hi. specialize (Hold i Hi).
  assert (T r <= T (S r))%Z by (apply sorted_by_time; lia). lia.
Qed.

Lemma velocity_scan_true k : forall r0 l0,
  velocity_scan sorted (seq r0 k) l0 = true ->
  l0 <= r0 -> r0 + k <= List.length sorted -> stale r0 l0 ->
  exists r l, l + 4 <= r < List.length sorted /\ (T r - T l <= W)%Z.
Proof.
  induction k as [|k IH]; intros r0 l0 Hscan Hl Hn Hold; [discriminate|].
  cbn [velocity_scan seq] in Hscan.
  destruct (advance_left_spec W W_nonneg sorted (S r0) r0 l0 Hl ltac:(lia) Hold)
    as (Hl' & Hin & Hold').
  fold W in Hscan.
  set (l' := advance_left (S r0) W sorted r0 l0) in *.
  destruct (5 <=? r0 - l' + 1) eqn:E.
  - apply Nat.leb_le in E. exists r0, l'. split; [lia | exact Hin].
  - destruct k as [|k]; [discriminate|].
    apply (IH (S r0) l' Hscan); try lia.
    apply stale_next; [lia | exact Hold'].
Qed.

Lemma velocity_scan_false k : forall r0 l0,
  velocity_scan sorted (seq r0 k) l0 = false ->
  l0 <= r0 -> r0 + k <= List.length sorted -> stale r0 l0 ->
  forall r i, r0 <= r < r0 + k -> i + 4 <= r -> (T r - T i > W)%Z.
Proof.
  induction k as [|k IH]; intros r0 l0 Hscan Hl Hn Hold r i Hr Hi; [lia|].
  cbn [velocity_scan seq] in Hscan.
  destruct (advance_left_spec W W_nonneg sorted (S r0) r0 l0 Hl ltac:(lia) Hold)
    as (Hl' & Hin & Hold').
  fold W in Hscan.
  set (l' := advance_left (S r0) W sorted r0 l0) in *.
  destruct (5 <=? r0 - l' + 1) eqn:E; [discriminate|].
  apply Nat.leb_gt in E.
  destruct (Nat.eq_dec r r0) as [->|Hne].
  - apply Hold'. lia.
  - destruct k as [|k]; [lia|].
    apply (IH (S r0) l' Hscan); try lia.
    apply stale_next; [lia | exact Hold'].
Qed.

(** The scan answers [true] exactly when five transactions that are
    consecutive in time order span at most 24 hours. *)
Lemma velocity_scan_iff :
  velocity_scan sorted (seq 0 (List.length sorted)) 0 = true
  <-> exists i, i + 4 < List.length sorted /\ (T (i + 4) - T i <= W)%Z.
Proof.
  split.
  - intros H.
    destruct (velocity_scan_true _ 0 0 H (le_n 0) (le_n _)) as (r & l & Hlr & Hspan).
    { intros i Hi. lia. }
    exists l. split; [lia|].
    assert (T (l + 4) <= T r)%Z by (apply sorted_by_time; lia). lia.
  - intros (i & Hi & Hspan).
    destruct (velocity_scan sorted (seq 0 (List.length sorted)) 0) eqn:E;
      [reflexivity|].
    pose proof (velocity_scan_false _ 0 0 E (le_n 0) (le_n _)
                  ltac:(intros j Hj; lia) (i + 4) i ltac:(lia) (le_n _)).
    lia.
Qed.
End VelocityScan.

Lemma filter_length_le {A} (f : A -> bool) l :
  List.length (filter f l) <= List.length l.
Proof.
  induction l as [|x l IH]; simpl; [lia|]. destruct (f x); simpl; lia.
Qed.

Lemma filter_all {A} (f : A -> bool) l :
  (forall x, In x l -> f x = true) -> filter f l = l.
Proof.
  induction l as [|x l IH]; simpl; intros H; [reflexivity|].
  rewrite (H x) by now left. f_equal. apply IH. intros y Hy. apply H. now right.
Qed.

Lemma filter_slice_length {A} (f : A -> bool) a b l :
  List.length (filter f (slice a b l)) <= List.length (filter f l).
Proof.
  unfold slice.
  rewrite <- (firstn_skipn a l) at 2.
  rewrite <- (firstn_skipn (b - a) (skipn a l)) at 2.
  rewrite !filter_app, !length_app. lia.
Qed.

Lemma filter_filter {A} (f g : A -> bool) l :
  filter f (filter g l) = filter (fun x => g x && f x) l.
Proof.
  induction l as [|x l IH]; simpl; [reflexivity|].
  destruct (g x); simpl; [destruct (f x); now rewrite IH | exact IH].
Qed.

Lemma Permutation_filter_length {A} (f : A -> bool) l l' :
  Permutation l l' -> List.length (filter f l) = List.length (filter f l').
Proof.
  induction 1 as [|x l l' _ IH|x y l|l l' l'' _ IH1 _ IH2]; simpl.
  - reflexivity.
  - destruct (f x); simpl; now rewrite IH.
  - destruct (f x), (f y); reflexivity.
  - now rewrite IH1.
Qed.

(** In a list sorted by time, the transactions stamped at most [hi]
    come first. *)
Lemma sorted_prefix hi l :
  StronglySorted (fun a b => (timestamp a <= timestamp b)%Z) l ->
  forall k, k < List.length (filter (fun t => (timestamp t <=? hi)%Z) l) ->
            k < List.length l /\ (time_at l k <= hi)%Z.
Proof.
  induction 1 as [|x l Hs IH Hx]; intros k Hk; simpl in Hk; [lia|].
  destruct (timestamp x <=? hi)%Z eqn:E.
  - destruct k as [|k]; simpl.
    + split; [lia|]. unfold time_at. simpl. now apply Z.leb_le.
    + simpl in Hk. destruct (IH k) as [H1 H2]; [lia|]. split; [lia | exact H2].
  - rewrite filter_nil_when in Hk; [simpl in Hk; lia|].
    intros y Hy. apply Z.leb_gt. apply Z.leb_gt in E.
    pose proof (proj1 (Forall_forall _ _) Hx y Hy) as Hy'. cbv beta in Hy'. lia.
Qed.

(** Five transactions stamped between [lo] and [hi]: five consecutive
    ones are. *)
Lemma sorted_block lo hi l :
  StronglySorted (fun a b => (timestamp a <= timestamp b)%Z) l ->
  5 <= List.length (filter (fun t => (lo <=? timestamp t)%Z
                                     && (timestamp t <=? hi)%Z) l) ->
  exists i, i + 4 < List.length l
            /\ (time_at l (i + 4) - time_at l i <= hi - lo)%Z.
Proof.
  induction 1 as [|x l Hs IH Hx]; intros H5; simpl in H5; [lia|].
  destruct (lo <=? timestamp x)%Z eqn:E.
  - apply Z.leb_le in E. exists 0.
    assert (Hall : filter (fun t => (lo <=? timestamp t)%Z && (timestamp t <=? hi)%Z)
                          (x :: l)
                   = filter (fun t => (timestamp t <=? hi)%Z) (x :: l)).
    { apply filter_ext_in. intros y [<-|Hy].
      - apply Z.leb_le in E. now rewrite E.
      - pose proof (proj1 (Forall_forall _ _) Hx y Hy) as Hy'. cbv beta in Hy'.
        replace (lo <=? timestamp y)%Z with true; [reflexivity|].
        symmetry. apply Z.leb_le. lia. }
    assert (H5' : 4 < List.length (filter (fun t => (timestamp t <=? hi)%Z) (x :: l))).
    { rewrite <- Hall. simpl.
      replace (lo <=? timestamp x)%Z with true by (symmetry; now apply Z.leb_le).
      simpl. exact H5. }
    destruct (sorted_prefix hi (x :: l) ltac:(now constructor) 4 H5') as [H1 H2].
    split; [exact H1|]. simpl.
    change (time_at (x :: l) 0) with (timestamp x). lia.
  - simpl in H5. destruct (IH H5) as (i & Hi & Hspan).
    exists (S i). split; [simpl; lia|]. exact Hspan.
Qed.

Lemma time_at_range l i x :
  time_sorted l -> i + 4 < List.length l ->
  In x (slice i (i + 5) l) ->
  (time_at l i <= timestamp x <= time_at l (i + 4))%Z.
Proof.
  intros Hs Hi Hx. apply In_slice in Hx. destruct Hx as (j & Hj & Hnth).
  rewrite <- (time_at_nth _ _ _ Hnth). split; apply Hs; lia.
Qed.

(** X9: an account has high velocity exactly when some period of 24
    hours holds at least five of its transactions, sent or received. *)
Theorem hasHighVelocity_iff_five_in_a_day (account : string)
    (txs : list Transaction) :
  hasHighVelocity account txs = true
  <-> exists t0, 5 <= List.length (busy_day account t0 txs).
Proof.
  unfold hasHighVelocity, busy_day.
  set (own := filter (involves account) txs).
  set (sorted := sort_by_time own).
  pose proof (sort_by_time_sorted own) as Hss. fold sorted in Hss.
  pose proof (strongly_sorted_time _ Hss) as Hs.
  assert (Hcount : forall f, List.length (filter f sorted)
                             = List.length (filter (fun t => involves account t && f t) txs)).
  { intros f. unfold sorted, sort_by_time.
    rewrite (Permutation_filter_length f _ own (stable_sort_perm later own)).
    unfold own. now rewrite filter_filter. }
  rewrite (velocity_scan_iff sorted Hs). split.
  - intros (i & Hi & Hspan). exists (time_at sorted i).
    rewrite <- Hcount.
    eapply Nat.le_trans; [|apply (filter_slice_length _ i (i + 5))].
    rewrite filter_all.
    + unfold slice. rewrite length_firstn, length_skipn. lia.
    + intros x Hx. destruct (time_at_range sorted i x Hs Hi Hx) as [H1 H2].
      apply andb_true_iff. split; apply Z.leb_le; lia.
  - intros (t0 & H5). rewrite <- Hcount in H5.
    destruct (sorted_block t0 (t0 + 24 * 60 * 60 * 1000)%Z sorted Hss H5)
      as (i & Hi & Hspan).
    exists i. split; [exact Hi | lia].
Qed.

(** ** The evidence of a smurfing flag *)

Lemma smurf_scan_window party sorted (Hs : time_sorted sorted) k : forall r0 l0 u,
  smurf_scan party sorted (seq r0 k) l0 = Some u ->
  l0 <= r0 -> r0 + k <= List.length sorted ->
  (forall i, i < l0 ->
             (time_at sorted r0 - time_at sorted i > SMURF_WINDOW_MS)%Z) ->
  exists r l,
    l <= r < List.length sorted
    /\ (time_at sorted r - time_at sorted l <= SMURF_WINDOW_MS)%Z
    /\ u = JsSet.of_list (map party (slice l (r + 1) sorted)).
Proof.
  induction k as [|k IH]; intros r0 l0 u Hscan Hl Hn Hold; [discriminate|].
  cbn [smurf_scan seq] in Hscan.
  destruct (advance_left_spec SMURF_WINDOW_MS SMURF_WINDOW_nonneg sorted
              (S r0) r0 l0 Hl ltac:(lia) Hold) as (Hl' & Hin & Hold').
  set (l' := advance_left (S r0) SMURF_WINDOW_MS sorted r0 l0) in *.
  destruct (SMURF_THRESHOLD <=? _) eqn:E.
  - inversion Hscan; subst u. exists r0, l'. repeat split; auto; lia.
  - destruct k as [|k]; [discriminate|].
    apply (IH (S r0) l' u Hscan); try lia.
    intros i Hi. specialize (Hold' i Hi).
    assert (time_at sorted r0 <= time_at sorted (S r0))%Z by (apply Hs; lia).
    lia.
Qed.

Lemma smurf_group_window party group u :
  smurf_group party group = Some u ->
  exists w, incl w group /\ within_window w /\ u = JsSet.of_list (map party w).
Proof.
  unfold smurf_group. set (sorted := sort_by_time group).
  pose proof (sort_by_time_time_sorted group) as Hsorted. fold sorted in Hsorted.
  intros Hu.
  destruct (smurf_scan_window party sorted Hsorted _ 0 0 u Hu)
    as (r & l & Hlr & Hspan & ->); try lia.
  exists (slice l (r + 1) sorted). split; [|split; [|reflexivity]].
  - intros x Hx. apply (stable_sort_In later). apply In_slice in Hx.
    destruct Hx as (i & _ & Hi). eapply nth_error_In, Hi.
  - intros t1 t2 H1 H2. apply In_slice in H1, H2.
    destruct H1 as (i1 & Hi1 & E1), H2 as (i2 & Hi2 & E2).
    rewrite <- (time_at_nth _ _ _ E1), <- (time_at_nth _ _ _ E2).
    assert (time_at sorted i1 <= time_at sorted r)%Z by (apply Hsorted; lia).
    assert (time_at sorted l <= time_at sorted i2)%Z by (apply Hsorted; lia).
    lia.
Qed.

Lemma In_grouped (groups : JsMap.t (list Transaction)) (txs_of : string -> list Transaction)
    k g :
  NoDup (JsMap.keys groups) ->
  (forall k, JsMap.get k groups = pushed None (txs_of k)) ->
  In (k, g) groups -> g = txs_of k.
Proof.
  intros Hnd Hget Hin. apply JsMapFacts.In_get in Hin; [|exact Hnd].
  rewrite Hget in Hin. destruct (txs_of k); simpl in Hin; [discriminate|].
  now inversion Hin.
Qed.

Lemma smurf_pass_evidence txs ty party groups (txs_of : string -> list Transaction) :
  NoDup (JsMap.keys groups) ->
  (forall k, JsMap.get k groups = pushed None (txs_of k)) ->
  (forall k u, flag_group (mkSmurfResult ty k u) txs = txs_of k) ->
  (forall k u, flag_party (mkSmurfResult ty k u) = party) ->
  forall results,
    Forall (flag_evidence txs) results ->
    Forall (flag_evidence txs) (smurf_pass ty party groups results).
Proof.
  intros Hnd Hget Hgroup Hparty results Hres. unfold smurf_pass.
  apply (fold_left_inv_in (Forall (flag_evidence txs))); [|exact Hres].
  intros res [k g] Hin Hacc. cbn [fst snd].
  destruct (smurf_group party g) as [u|] eqn:E; [|exact Hacc].
  apply Forall_app. split; [exact Hacc|]. constructor; [|constructor].
  destruct (smurf_group_window party g u E) as (w & Hincl & Hspan & Hu).
  pose proof (In_grouped groups txs_of k g Hnd Hget Hin) as Hg.
  unfold flag_evidence. cbn [counterparties]. split; [|split].
  - eapply smurf_group_ten, E.
  - rewrite Hu. apply JsSetFacts.NoDup_of_list.
  - exists w. rewrite Hgroup, Hparty, <- Hg. auto.
Qed.

Lemma detectSmurfing_evidence txs :
  Forall (flag_evidence txs) (detectSmurfing txs).
Proof.
  unfold detectSmurfing.
  destruct (byReceiver_spec txs) as [Hnd Hget].
  destruct (bySender_spec txs) as [Hnd' Hget'].
  apply (smurf_pass_evidence txs fan_out receiver_id _ (fun k => outgoing k txs));
    auto.
  apply (smurf_pass_evidence txs fan_in sender_id _ (fun k => incoming k txs));
    auto.
Qed.


(** ** The order of the output *)

Lemma lower_score_spec a b :
  lower_score a b = true <-> (suspicion_score a < suspicion_score b)%Q.
Proof.
  unfold lower_score. rewrite negb_true_iff.
  destruct (Qle_bool (suspicion_score b - suspicion_score a) 0) eqn:E.
  - apply Qle_bool_iff in E. split; [discriminate|]. intros H. exfalso. lra.
  - split; [intros _ | reflexivity].
    apply Qnot_le_lt. intros H.
    assert (E' : Qle_bool (suspicion_score b - suspicion_score a) 0 = true)
      by (apply Qle_bool_iff; lra).
    congruence.
Qed.

Lemma sort_insert_score x l :
  StronglySorted (fun a b => (suspicion_score b <= suspicion_score a)%Q) l ->
  StronglySorted (fun a b => (suspicion_score b <= suspicion_score a)%Q)
                 (sort_insert lower_score x l).
Proof.
  induction l as [|y l IH]; simpl; intros Hs.
  - repeat constructor.
  - inversion Hs as [|? ? Hs' Hy]; subst.
    destruct (lower_score x y) eqn:E.
    + apply lower_score_spec in E. constructor; [auto|].
      apply (Permutation_Forall (Permutation_sym (sort_insert_perm lower_score x l))).
      constructor; [lra | exact Hy].
    + assert (Hxy : (suspicion_score y <= suspicion_score x)%Q).
      { apply Qnot_lt_le. intros H. apply lower_score_spec in H. congruence. }
      constructor; [exact Hs|]. constructor; [exact Hxy|].
      eapply Forall_impl; [|exact Hy]. cbv beta. intros z Hz. lra.
Qed.

(** X11: the suspicious accounts come out in order of decreasing
    suspicion score, and the two counts of the summary are the lengths
    of the two lists. *)
Theorem runDetection_output_is_sorted_by_score (txs : list Transaction) :
  StronglySorted (fun a b => (suspicion_score b <= suspicion_score a)%Q)
                 (suspicious_accounts (runDetection txs))
  /\ suspicious_accounts_flagged (runDetection txs)
     = List.length (suspicious_accounts (runDetection txs))
  /\ fraud_rings_detected (runDetection txs)
     = List.length (fraud_rings (runDetection txs)).
Proof.
  split; [|split; reflexivity].
  unfold runDetection. cbv zeta. cbn [suspicious_accounts].
  generalize (fold_left (emit_step txs (buildGraph txs) (accumulate txs))
                        (scores (accumulate txs)) []).
  intros l. induction l as [|x l IH]; simpl; [constructor|].
  now apply sort_insert_score.
Qed.

(** ** Well-formedness of the emitted accounts *)

Lemma add_nonempty p s : JsSet.add p s <> [].
Proof.
  unfold JsSet.add. destruct (JsSet.has p s) eqn:E.
  - intros ->. discriminate.
  - destruct s; discriminate.
Qed.

Lemma marked_frame e e' :
  scores e' = scores e -> patterns e' = patterns e -> marked e -> marked e'.
Proof.
  unfold marked, tags_of. intros -> ->. auto.
Qed.

Lemma marked_mark e b pts p :
  marked e -> marked (addPattern b p (addScore b pts e)).
Proof.
  intros He a Ha. rewrite tags_of_addPattern.
  destruct (String.eqb a b) eqn:E; [apply add_nonempty|].
  change (tags_of a (addScore b pts e)) with (tags_of a e). apply He.
  change (scores (addPattern b p (addScore b pts e)))
    with (award (scores e) (b, pts)) in Ha.
  rewrite score_of_award in Ha. cbn [fst snd] in Ha. now rewrite E in Ha.
Qed.

Lemma marked_addScore e b pts :
  tags_of b e <> [] -> marked e -> marked (addScore b pts e).
Proof.
  intros Hb He a Ha.
  change (tags_of a (addScore b pts e)) with (tags_of a e).
  change (scores (addScore b pts e)) with (award (scores e) (b, pts)) in Ha.
  rewrite score_of_award in Ha. cbn [fst snd] in Ha.
  destruct (String.eqb_spec a b) as [E|Hne]; [subst a; exact Hb | now apply He].
Qed.

Lemma marked_cycle_step e cycle : marked e -> marked (cycle_step e cycle).
Proof.
  intros He. unfold cycle_step. cbv zeta.
  match goal with |- marked (pushRing _ ?x) =>
    apply (marked_frame x); try reflexivity end.
  apply fold_left_inv; [|exact He].
  intros e1 a H1.
  match goal with |- marked (setRing _ _ ?x) =>
    apply (marked_frame x); try reflexivity end.
  now apply marked_mark.
Qed.

Lemma marked_smurf_step e s : marked e -> marked (smurf_step e s).
Proof.
  intros He. unfold smurf_step. cbv zeta.
  assert (H : marked
                (addPattern (smurf_account s)
                   match smurf_type s with
                   | fan_in => "fan_in_smurfing"
                   | fan_out => "fan_out_smurfing"
                   end (addScore (smurf_account s) 30 e)))
    by now apply marked_mark.
  destruct (negb (truthy _)); exact H.
Qed.

Lemma marked_shell_step e chain : marked e -> marked (shell_step e chain).
Proof.
  intros He. unfold shell_step. cbv zeta.
  set (e1 := fold_left _ (slice_interior chain) e).
  assert (H1 : marked e1).
  { subst e1. apply fold_left_inv; [|exact He]. intros e' a H'.
    now apply marked_mark. }
  set (e5 := addPattern (chain_last chain) "shell_chain"
               (addPattern (chain_first chain) "shell_chain"
                  (addScore (chain_last chain) 20
                     (addScore (chain_first chain) 20 e1)))).
  assert (H5 : marked e5).
  { intros a Ha. unfold e5. rewrite !tags_of_addPattern.
    destruct (String.eqb a (chain_last chain)) eqn:El; [apply add_nonempty|].
    destruct (String.eqb a (chain_first chain)) eqn:Ef; [apply add_nonempty|].
    change (tags_of a (addScore (chain_last chain) 20
                         (addScore (chain_first chain) 20 e1)))
      with (tags_of a e1).
    apply H1.
    change (scores e5)
      with (award (award (scores e1) (chain_first chain, 20%Z))
                  (chain_last chain, 20%Z)) in Ha.
    rewrite !score_of_award in Ha. cbn [fst snd] in Ha.
    now rewrite El, Ef in Ha. }
  destruct (negb (JsMap.has _ _)); [|exact H5].
  apply (marked_frame e5); [| |exact H5]; cbn [scores patterns pushRing].
  - now rewrite scores_fold_setRing.
  - now rewrite patterns_fold_setRing.
Qed.

Lemma marked_bonus_step txs e a : marked e -> marked (bonus_step txs e a).
Proof.
  intros He. unfold bonus_step.
  set (e1 := match JsMap.get a (patterns e) with
             | Some patternSet =>
                 if 2 <=? JsSet.size patternSet then addScore a 15 e else e
             | None => e
             end).
  assert (H1 : marked e1).
  { subst e1. destruct (JsMap.get a (patterns e)) as [ps|] eqn:Hps; [|exact He].
    destruct (2 <=? JsSet.size ps) eqn:E; [|exact He].
    apply marked_addScore; [|exact He].
    unfold tags_of. rewrite Hps. intros ->. discriminate. }
  destruct (hasHighVelocity a txs); [|exact H1].
  now apply marked_mark.
Qed.

Lemma marked_accumulate txs : marked (accumulate txs).
Proof.
  rewrite accumulate_eq.
  apply fold_left_inv; [intros; now apply marked_bonus_step|].
  unfold detectors. cbv zeta.
  apply fold_left_inv; [intros; now apply marked_shell_step|].
  apply fold_left_inv; [intros; now apply marked_smurf_step|].
  apply fold_left_inv; [intros; now apply marked_cycle_step|].
  intros a Ha. unfold score_of in Ha. simpl in Ha. lia.
Qed.

(** *** The accounts of the detectors' findings *)

Lemma flow_accounts txs l :
  flow txs l -> 2 <= List.length l -> forall a, In a l -> known_account txs a.
Proof.
  induction l as [|x [|y r] IH]; intros Hf Hlen a Ha; simpl in Hlen; try lia.
  destruct Hf as [(t & Hin & Hs & Hr) Hrest].
  destruct Ha as [<-|Ha]; [exists t; auto|].
  destruct r as [|z r].
  - destruct Ha as [<-|[]]. exists t; auto.
  - apply IH; auto. simpl. lia.
Qed.

Lemma cycle_accounts txs c a :
  In c (detectCycles (buildGraph txs)) -> In a c -> known_account txs a.
Proof.
  intros Hc Ha.
  pose proof (proj1 (Forall_forall _ _) (detectCycles_sound (buildGraph txs)) c Hc)
    as Hp.
  apply is_path_flow in Hp.
  apply (flow_accounts txs (c ++ firstn 1 c) Hp).
  - destruct c as [|x c]; [destruct Ha|]. rewrite length_app. simpl. lia.
  - apply in_or_app. now left.
Qed.

Lemma chain_accounts txs chain a :
  In chain (detectShellNetworks (buildGraph txs)) -> In a chain ->
  known_account txs a.
Proof.
  intros Hc Ha.
  pose proof (proj1 (Forall_forall _ _) (detectShellNetworks_sound (buildGraph txs))
                chain Hc) as Hp.
  pose proof (proj1 (Forall_forall _ _) (detectShellNetworks_ok (buildGraph txs))
                chain Hc) as (Hlen & _).
  apply is_path_flow in Hp.
  apply (flow_accounts txs chain Hp); [lia | exact Ha].
Qed.

Lemma flag_accounts txs s :
  In s (detectSmurfing txs) -> known_account txs (smurf_account s).
Proof.
  intros Hs.
  pose proof (proj1 (Forall_forall _ _) (detectSmurfing_evidence txs) s Hs)
    as (Hten & _ & w & Hincl & _ & Hu).
  destruct w as [|t w].
  - rewrite Hu in Hten. discriminate.
  - assert (Ht : In t (flag_group s txs)) by (apply Hincl; now left).
    unfold flag_group, incoming, outgoing in Ht.
    destruct (smurf_type s); apply filter_In in Ht; destruct Ht as [Hin E];
      apply String.eqb_eq in E; exists t; auto.
Qed.
Lemma awarded_to_positive a aws :
  (0 < awarded_to a aws)%Z -> exists z, In (a, z) aws.
Proof.
  unfold awarded_to.
  destruct (filter (fun aw => String.eqb (fst aw) a) aws) as [|[b z] l] eqn:E;
    [simpl; lia|].
  intros _. assert (H : In (b, z) (filter (fun aw => String.eqb (fst aw) a) aws))
    by (rewrite E; now left).
  apply filter_In in H. destruct H as [Hin Hb]. apply String.eqb_eq in Hb.
  simpl in Hb. subst b. now exists z.
Qed.

Lemma In_slice_interior {A} (x : A) l : In x (slice_interior l) -> In x l.
Proof.
  unfold slice_interior. intros H. apply In_slice in H.
  destruct H as (i & _ & Hi). eapply nth_error_In, Hi.
Qed.

Lemma In_chain_ends chain :
  chain <> [] -> In (chain_first chain) chain /\ In (chain_last chain) chain.
Proof.
  intros Hne. split.
  - destruct chain; [congruence | now left].
  - unfold chain_last. destruct (exists_last Hne) as (l & x & ->).
    rewrite last_last. apply in_or_app. right. now left.
Qed.

Lemma contributions_known txs a z :
  In (a, z) (contributions txs) -> known_account txs a.
Proof.
  unfold contributions. cbv zeta. rewrite !in_app_iff, !in_flat_map.
  intros [(c & Hc & H)|[(s & Hs & H)|[(chain & Hc & H)|(x & Hx & H)]]].
  - apply in_map_iff in H. destruct H as (b & E & Hb). inversion E; subst.
    now apply (cycle_accounts txs c).
  - destruct H as [E|[]]. inversion E; subst. now apply flag_accounts.
  - pose proof (proj1 (Forall_forall _ _) (detectShellNetworks_ok (buildGraph txs))
                  chain Hc) as (Hlen & _).
    assert (Hne : chain <> []) by (intros ->; simpl in Hlen; lia).
    destruct (In_chain_ends chain Hne) as [Hf Hl].
    apply (chain_accounts txs chain a Hc).
    apply in_app_or in H. destruct H as [H|[E|[E|[]]]].
    + apply in_map_iff in H. destruct H as (b & E & Hb). inversion E; subst.
      now apply In_slice_interior.
    + inversion E; subst. exact Hf.
    + inversion E; subst. exact Hl.
  - assert (E : a = x).
    { unfold bonus_awards in H. apply in_app_or in H. destruct H as [H|H].
      - destruct (JsMap.get x _) as [ps|]; [|destruct H].
        destruct (2 <=? JsSet.size ps); [|destruct H].
        destruct H as [E|[]]. now inversion E.
      - destruct (hasHighVelocity x txs); [|destruct H].
        destruct H as [E|[]]. now inversion E. }
    subst x. now apply In_keys_buildGraph.
Qed.

(** X12: every emitted account is an account of the input, has a
    score above 0 and at most 100, and carries at least one pattern,
    each of them one of the tags the engine knows; and no account is
    emitted twice. *)
Theorem runDetection_accounts_are_well_formed (txs : list Transaction) :
  Forall
    (fun acc =>
       known_account txs (account_id acc)
       /\ (0 < suspicion_score acc)%Q /\ (suspicion_score acc <= 100)%Q
       /\ detected_patterns acc <> []
       /\ Forall known_tag (detected_patterns acc))
    (suspicious_accounts (runDetection txs))
  /\ NoDup (map account_id (suspicious_accounts (runDetection txs))).
Proof.
  split; [|apply NoDup_account_ids].
  apply Forall_forall. intros acc Hacc.
  destruct (emitted_score txs acc Hacc) as [Hpos Hscore]. cbv zeta in Hpos, Hscore.
  pose proof Hacc as Hrec. apply In_suspicious_accounts in Hrec.
  destruct Hrec as (s & Hget & Hs & _ & Hshape).
  assert (Hsc : score_of (account_id acc) (scores (accumulate txs)) = s)
    by (unfold score_of; now rewrite Hget).
  split; [|split; [|split; [|split]]].
  - destruct (awarded_to_positive (account_id acc) (contributions txs)) as [z Hz];
      [lia|].
    eapply contributions_known, Hz.
  - rewrite Hscore, round1_integer. change 0%Q with (inject_Z 0).
    rewrite <- Zlt_Qlt. exact Hpos.
  - rewrite Hscore, round1_integer. change 100%Q with (inject_Z 100).
    rewrite <- Zle_Qle. lia.
  - rewrite Hshape. cbn [detected_patterns].
    apply marked_accumulate. rewrite Hsc. exact Hs.
  - rewrite Hshape. cbn [detected_patterns]. apply Forall_forall. intros p Hp.
    destruct (tag_inv_accumulate txs) as [_ Htags].
    exact (proj1 (Htags _ _ Hp)).
Qed.

(** ** Tags and rings only accumulate *)

Lemma extends_refl e : extends e e.
Proof. split; auto. Qed.

Lemma extends_trans e1 e2 e3 : extends e1 e2 -> extends e2 e3 -> extends e1 e3.
Proof. intros [H1 H2] [H3 H4]. split; auto. Qed.

Lemma extends_frame e e' :
  patterns e' = patterns e -> fraudRings e' = fraudRings e -> extends e e'.
Proof.
  intros Hp Hr. split.
  - intros a p. unfold tags_of. now rewrite Hp.
  - intros r. now rewrite Hr.
Qed.

Lemma extends_addPattern e b p : extends e (addPattern b p e).
Proof.
  split; [|auto]. intros a q Hq. rewrite tags_of_addPattern.
  destruct (String.eqb a b); [|exact Hq]. apply JsSetFacts.In_add. now right.
Qed.

Lemma extends_pushRing e r : extends e (pushRing r e).
Proof.
  split; [auto|]. intros r' Hr. cbn [fraudRings pushRing].
  apply in_or_app. now left.
Qed.

Lemma extends_mark e b pts p : extends e (addPattern b p (addScore b pts e)).
Proof.
  apply (extends_trans _ (addScore b pts e)); [|apply extends_addPattern].
  now apply extends_frame.
Qed.

Lemma extends_fold {X} (f : Engine -> X -> Engine) l :
  (forall e x, extends e (f e x)) -> forall e, extends e (fold_left f l e).
Proof.
  intros Hf. induction l as [|x l IH]; intros e; simpl; [apply extends_refl|].
  eapply extends_trans; [apply Hf | apply IH].
Qed.

Lemma extends_cycle_step e cycle : extends e (cycle_step e cycle).
Proof.
  unfold cycle_step. cbv zeta.
  eapply extends_trans; [|apply extends_pushRing].
  apply (extends_trans _ (bumpCounter e)); [now apply extends_frame|].
  apply extends_fold. intros e1 a.
  eapply extends_trans; [apply extends_mark|]. now apply extends_frame.
Qed.

Lemma extends_smurf_step e s : extends e (smurf_step e s).
Proof.
  unfold smurf_step. cbv zeta.
  destruct (negb (truthy _)); [|apply extends_mark].
  eapply extends_trans; [apply extends_mark|].
  eapply extends_trans; [|apply extends_pushRing].
  now apply extends_frame.
Qed.

Lemma extends_shell_step e chain : extends e (shell_step e chain).
Proof.
  unfold shell_step. cbv zeta.
  set (e1 := fold_left _ (slice_interior chain) e).
  assert (H1 : extends e e1).
  { subst e1. apply extends_fold. intros e' a. apply extends_mark. }
  set (e5 := addPattern (chain_last chain) "shell_chain"
               (addPattern (chain_first chain) "shell_chain"
                  (addScore (chain_last chain) 20
                     (addScore (chain_first chain) 20 e1)))).
  assert (H5 : extends e e5).
  { apply (extends_trans _ e1); [exact H1|].
    eapply extends_trans; [|apply extends_addPattern].
    eapply extends_trans; [|apply extends_addPattern].
    now apply extends_frame. }
  destruct (negb (JsMap.has _ _)); [|exact H5].
  apply (extends_trans _ e5); [exact H5|].
  eapply extends_trans; [|apply extends_pushRing].
  apply (extends_trans _ (bumpCounter e5)); [now apply extends_frame|].
  apply extends_fold. intros e' m. now apply extends_frame.
Qed.

Lemma extends_bonus_step txs e a : extends e (bonus_step txs e a).
Proof.
  unfold bonus_step.
  set (e1 := match JsMap.get a (patterns e) with
             | Some patternSet =>
                 if 2 <=? JsSet.size patternSet then addScore a 15 e else e
             | None => e
             end).
  assert (H1 : extends e e1).
  { subst e1. destruct (JsMap.get a (patterns e)) as [ps|]; [|apply extends_refl].
    destruct (2 <=? JsSet.size ps); [now apply extends_frame | apply extends_refl]. }
  destruct (hasHighVelocity a txs); [|exact H1].
  eapply extends_trans; [exact H1 | apply extends_mark].
Qed.

(** What the cycle pass has built stays until the end. *)
Lemma after_cycles_extends txs : extends (after_cycles txs) (accumulate txs).
Proof.
  rewrite accumulate_eq. unfold detectors, after_cycles. cbv zeta.
  eapply extends_trans; [|apply extends_fold, extends_bonus_step].
  eapply extends_trans; [|apply extends_fold, extends_shell_step].
  apply extends_fold, extends_smurf_step.
Qed.

Lemma cycle_step_marks e cycle a :
  In a cycle ->
  In (String.append "cycle_length_" (string_of_nat (List.length cycle)))
     (tags_of a (cycle_step e cycle))
  /\ In (mkFraudRing (ring_name (ringCounter e)) (JsSet.of_list cycle) "cycle"
           (Qmin100 (45 + (if 4 <=? List.length cycle then 15 else 0))%Q))
        (fraudRings (cycle_step e cycle)).
Proof.
  intros Ha. unfold cycle_step. cbv zeta. split.
  - match goal with |- In ?t (tags_of a (pushRing _ ?x)) =>
      change (In t (tags_of a x)) end.
    apply (fold_left_reach
             (fun e => In (String.append "cycle_length_"
                             (string_of_nat (List.length cycle))) (tags_of a e))
             _ _ a Ha).
    + intros e1.
      match goal with |- In ?t (tags_of a (setRing _ _ ?x)) =>
        change (In t (tags_of a x)) end.
      rewrite tags_of_addPattern, String.eqb_refl. apply JsSetFacts.In_add. now left.
    + intros e1 b H1.
      match goal with |- In ?t (tags_of a (setRing _ _ ?x)) =>
        change (In t (tags_of a x)) end.
      now apply extends_mark.
  - cbn [fraudRings pushRing]. apply in_or_app. right. now left.
Qed.

Lemma of_list_NoDup l : NoDup l -> JsSet.of_list l = l.
Proof.
  unfold JsSet.of_list.
  assert (H : forall s, NoDup (s ++ l) ->
                        fold_left (fun s x => JsSet.add x s) l s = s ++ l).
  { induction l as [|y l IH]; intros s Hnd; simpl; [now rewrite app_nil_r|].
    assert (Hy : JsSet.has y s = false).
    { apply JsSetFacts.has_false. apply NoDup_remove_2 in Hnd.
      rewrite in_app_iff in Hnd. tauto. }
    unfold JsSet.add at 2. rewrite Hy.
    rewrite IH; rewrite <- app_assoc; [reflexivity | exact Hnd]. }
  intros Hnd. exact (H [] Hnd).
Qed.

Lemma last_assigning_found a rings r :
  In r rings -> includes a (assigned_by r) = true ->
  last_assigning a rings <> None.
Proof.
  induction rings as [|x rings IH] using rev_ind; intros Hin Hinc; [destruct Hin|].
  rewrite last_assigning_snoc.
  destruct (includes a (assigned_by x)) eqn:E; [discriminate|].
  apply in_app_or in Hin. destruct Hin as [Hin|[->|[]]]; [now apply IH | congruence].
Qed.

Lemma awarded_to_ge a z aws :
  Forall (fun aw => (0 <= snd aw)%Z) aws -> In (a, z) aws ->
  (z <= awarded_to a aws)%Z.
Proof.
  unfold awarded_to. induction aws as [|[b y] aws IH]; intros Hpos Hin; [destruct Hin|].
  inversion Hpos as [|? ? Hy Hpos']; subst. simpl in Hy.
  assert (Hrest : (0 <= fold_right Z.add 0
                         (map snd (filter (fun aw => String.eqb (fst aw) a) aws)))%Z).
  { clear -Hpos'. induction aws as [|x aws IH]; simpl; [lia|].
    inversion Hpos' as [|? ? Hx Hpos'']; subst.
    destruct (String.eqb (fst x) a); simpl; [|auto]. specialize (IH Hpos''). lia. }
  simpl. destruct Hin as [E|Hin].
  - inversion E; subst. rewrite String.eqb_refl. simpl. lia.
  - specialize (IH Hpos' Hin). destruct (String.eqb b a); simpl; lia.
Qed.

Lemma cycle_member_marked txs c a :
  In c (detectCycles (buildGraph txs)) -> In a c ->
  In (String.append "cycle_length_" (string_of_nat (List.length c)))
     (tags_of a (accumulate txs))
  /\ (exists r, In r (fraudRings (accumulate txs))
                /\ pattern_type r = "cycle" /\ member_accounts r = c)
  /\ (45 <= score_of a (scores (accumulate txs)))%Z.
Proof.
  intros Hc Ha.
  destruct (after_cycles_extends txs) as [Htags Hrings].
  assert (H : In (String.append "cycle_length_" (string_of_nat (List.length c)))
                 (tags_of a (after_cycles txs))
              /\ exists r, In r (fraudRings (after_cycles txs))
                           /\ pattern_type r = "cycle"
                           /\ member_accounts r = JsSet.of_list c).
  { unfold after_cycles.
    apply (fold_left_reach
             (fun e => In (String.append "cycle_length_"
                             (string_of_nat (List.length c))) (tags_of a e)
                       /\ exists r, In r (fraudRings e)
                                    /\ pattern_type r = "cycle"
                                    /\ member_accounts r = JsSet.of_list c)
             _ _ c Hc).
    - intros e. destruct (cycle_step_marks e c a Ha) as [H1 H2].
      split; [exact H1|]. eexists. split; [exact H2|]. split; reflexivity.
    - intros e x [H1 (r & Hr & Hp & Hm)].
      destruct (extends_cycle_step e x) as [Ht Hrs].
      split; [now apply Ht|]. exists r. auto. }
  destruct H as [H1 (r & Hr & Hp & Hm)].
  split; [now apply Htags|]. split.
  - exists r. split; [now apply Hrings|]. split; [exact Hp|].
    rewrite Hm. apply of_list_NoDup.
    exact (proj1 (proj1 (Forall_forall _ _) (proj1 (detectCycles_inv _)) c Hc)).
  - rewrite final_score.
    assert (H45 : (45 <= awarded_to a (contributions txs))%Z).
    { apply awarded_to_ge.
      - eapply Forall_impl; [|apply contributions_nonneg]. cbv beta. intros; lia.
      - unfold contributions. cbv zeta. apply in_or_app. left.
        apply in_flat_map. exists c. split; [exact Hc|].
        unfold cycle_awards. apply in_map_iff. now exists a. }
    lia.
Qed.

(** X13: every account of every detected cycle is in the output, with
    a score of at least 45, the tag of the cycle's length and a ring
    id; no filter removes it. *)
Theorem cycle_members_are_always_reported (txs : list Transaction)
    (c : list string) (a : string) :
  In c (detectCycles (buildGraph txs)) -> In a c ->
  exists acc,
    In acc (suspicious_accounts (runDetection txs))
    /\ account_id acc = a
    /\ (45 <= suspicion_score acc)%Q
    /\ In (String.append "cycle_length_" (string_of_nat (List.length c)))
          (detected_patterns acc)
    /\ ring_id acc <> None.
Proof.
  intros Hc Ha.
  destruct (cycle_member_marked txs c a Hc Ha) as (Htag & (r & Hr & Hp & Hm) & H45).
  assert (Hem : exists acc, In acc (suspicious_accounts (runDetection txs))
                            /\ account_id acc = a).
  { apply emitted_iff. split; [lia|].
    unfold retained. apply orb_true_iff. left.
    apply existsb_exists. eexists. split; [exact Htag|].
    apply isMalicious_structural. do 4 right. now eexists. }
  destruct Hem as (acc & Hacc & Hid). exists acc.
  split; [exact Hacc|]. split; [exact Hid|].
  pose proof Hacc as Hrec. apply In_suspicious_accounts in Hrec.
  destruct Hrec as (s & Hget & Hs & _ & Hshape). rewrite Hid in *.
  assert (Hsc : score_of a (scores (accumulate txs)) = s)
    by (unfold score_of; now rewrite Hget).
  rewrite Hshape. cbn [suspicion_score detected_patterns ring_id].
  split; [|split; [exact Htag|]].
  - rewrite round1_integer. change 45%Q with (inject_Z 45).
    rewrite <- Zle_Qle. lia.
  - rewrite (ring_of_last_assigning _ a (ring_inv_accumulate txs)).
    apply (last_assigning_found a _ r Hr).
    unfold assigned_by, is_smurf_ring. rewrite Hp, Hm. simpl.
    now apply JsSetFacts.has_In.
Qed.

Lemma cycle_members_are_always_reported_witness :
  exists acc,
    In acc (suspicious_accounts (runDetection two_triangles))
    /\ account_id acc = "B"
    /\ (45 <= suspicion_score acc)%Q
    /\ In (String.append "cycle_length_" (string_of_nat (List.length ["A"; "B"; "C"])))
          (detected_patterns acc)
    /\ ring_id acc <> None.
Proof.
  apply (cycle_members_are_always_reported two_triangles ["A"; "B"; "C"] "B").
  - vm_compute. now left.
  - simpl. tauto.
Defined.

(** ** Where the rings come from *)

Lemma origin_cycle_step txs e c :
  In c (detectCycles (buildGraph txs)) ->
  Forall (ring_origin txs) (fraudRings e) ->
  Forall (ring_origin txs) (fraudRings (cycle_step e c)).
Proof.
  intros Hc He. unfold cycle_step. cbv zeta. cbn [fraudRings pushRing].
  match goal with |- context [fold_left ?f c (bumpCounter e)] =>
    destruct (rings_cycle_members (ring_name (ringCounter e))
                (String.append "cycle_length_" (string_of_nat (List.length c)))
                c (bumpCounter e)) as [Hr _] end.
  cbv zeta in Hr. rewrite Hr. cbn [fraudRings bumpCounter].
  apply Forall_app. split; [exact He|]. constructor; [|constructor].
  left. cbn [pattern_type member_accounts]. split; [reflexivity|].
  rewrite of_list_NoDup; [exact Hc|].
  exact (proj1 (proj1 (Forall_forall _ _) (proj1 (detectCycles_inv _)) c Hc)).
Qed.

Lemma origin_smurf_step txs e s :
  In s (detectSmurfing txs) ->
  Forall (ring_origin txs) (fraudRings e) ->
  Forall (ring_origin txs) (fraudRings (smurf_step e s)).
Proof.
  intros Hs He. unfold smurf_step. cbv zeta.
  destruct (negb (truthy _)); [|exact He].
  cbn [fraudRings pushRing setRing bumpCounter addPattern addScore].
  apply Forall_app. split; [exact He|]. constructor; [|constructor].
  right. left. exists s. cbn [pattern_type member_accounts].
  split; [exact Hs|]. split; [|reflexivity].
  f_equal. unfold slice. cbn [skipn]. apply firstn_all2.
  rewrite (proj1 (Forall_forall _ _) (detectSmurfing_ten txs) s Hs).
  unfold SMURF_THRESHOLD. lia.
Qed.

Lemma origin_shell_step txs e chain :
  In chain (detectShellNetworks (buildGraph txs)) ->
  Forall (ring_origin txs) (fraudRings e) ->
  Forall (ring_origin txs) (fraudRings (shell_step e chain)).
Proof.
  intros Hc He. unfold shell_step. cbv zeta.
  destruct (shell_marks_frame (slice_interior chain) e) as (_ & H2 & _).
  cbv zeta in H2.
  set (e1 := fold_left _ (slice_interior chain) e) in *.
  set (e2 := addPattern (chain_last chain) "shell_chain"
               (addPattern (chain_first chain) "shell_chain"
                  (addScore (chain_last chain) 20
                     (addScore (chain_first chain) 20 e1)))).
  assert (H2' : fraudRings e2 = fraudRings e) by exact H2.
  destruct (negb (JsMap.has (chain_first chain) (ringMembership e2)));
    [|now rewrite H2'].
  destruct (rings_fold_setRing (ring_name (ringCounter e2)) chain (bumpCounter e2))
    as [Hr _].
  cbv zeta in Hr. cbn [fraudRings pushRing]. rewrite Hr.
  cbn [fraudRings bumpCounter]. rewrite H2'.
  apply Forall_app. split; [exact He|]. constructor; [|constructor].
  do 2 right. cbn [pattern_type member_accounts]. now split.
Qed.

Lemma origin_accumulate txs : Forall (ring_origin txs) (fraudRings (accumulate txs)).
Proof.
  rewrite accumulate_eq.
  apply fold_left_inv.
  { intros e a He. unfold bonus_step.
    destruct (hasHighVelocity a txs);
      (destruct (JsMap.get a (patterns e)) as [ps|];
       [destruct (2 <=? JsSet.size ps)|]); exact He. }
  unfold detectors. cbv zeta.
  apply fold_left_inv_in; [intros e x Hx; now apply origin_shell_step|].
  apply fold_left_inv_in; [intros e x Hx; now apply origin_smurf_step|].
  apply fold_left_inv_in; [intros e x Hx; now apply origin_cycle_step|].
  constructor.
Qed.

(** X14: the rings are numbered RING_001, RING_002, ... in the order
    of the output; every ring comes from a detected cycle (its
    accounts), a smurfing flag (the flagged account followed by its ten
    counterparties) or a shell chain (its accounts), with the matching
    pattern type; and every detected cycle has a ring of its own. *)
Theorem fraud_rings_are_numbered_findings (txs : list Transaction) :
  map fr_ring_id (fraud_rings (runDetection txs))
  = map ring_name (seq 1 (List.length (fraud_rings (runDetection txs))))
  /\ Forall (ring_origin txs) (fraud_rings (runDetection txs))
  /\ Forall
       (fun c => exists r, In r (fraud_rings (runDetection txs))
                           /\ pattern_type r = "cycle" /\ member_accounts r = c)
       (detectCycles (buildGraph txs)).
Proof.
  rewrite fraud_rings_runDetection.
  set (accounts := suspicious_accounts (runDetection txs)).
  split; [|split].
  - rewrite length_map, map_map.
    rewrite (map_ext _ fr_ring_id) by (intros r; apply (rescore_ring_same _ r)).
    apply ring_inv_accumulate.
  - apply Forall_map. eapply Forall_impl; [|apply origin_accumulate].
    intros r Hr. unfold ring_origin.
    destruct (rescore_ring_same accounts r) as (_ & -> & ->). exact Hr.
  - apply Forall_forall. intros c Hc.
    pose proof (proj1 (proj1 (Forall_forall _ _) (proj1 (detectCycles_inv _)) c Hc))
      as Hnd.
    destruct c as [|a c].
    { pose proof (proj2 (proj1 (Forall_forall _ _) (proj1 (detectCycles_inv _))
                           [] Hc)) as Hlen.
      simpl in Hlen. lia. }
    destruct (cycle_member_marked txs (a :: c) a Hc (or_introl eq_refl))
      as (_ & (r & Hr & Hp & Hm) & _).
    exists (rescore_ring accounts r). split; [now apply in_map|].
    destruct (rescore_ring_same accounts r) as (_ & -> & ->). now split.
Qed.

(** ** Flagged accounts and chain accounts in the output *)

Lemma pass_reach {X} (P : Engine -> Prop) (f : Engine -> X -> Engine) l x :
  In x l ->
  (forall e, P (f e x)) ->
  (forall e e', extends e e' -> P e -> P e') ->
  (forall e y, extends e (f e y)) ->
  forall e, P (fold_left f l e).
Proof.
  intros Hin Hx Hext Hf. apply (fold_left_reach P f l x Hin Hx).
  intros e y He. exact (Hext e (f e y) (Hf e y) He).
Qed.

Lemma tag_extends t a e e' :
  extends e e' -> In t (tags_of a e) -> In t (tags_of a e').
Proof. intros [H _]. apply H. Qed.

Lemma smurf_step_marks e s :
  In (match smurf_type s with
      | fan_in => "fan_in_smurfing"
      | fan_out => "fan_out_smurfing"
      end) (tags_of (smurf_account s) (smurf_step e s)).
Proof.
  unfold smurf_step. cbv zeta.
  assert (H : In (match smurf_type s with
                  | fan_in => "fan_in_smurfing"
                  | fan_out => "fan_out_smurfing"
                  end)
                 (tags_of (smurf_account s)
                    (addPattern (smurf_account s)
                       match smurf_type s with
                       | fan_in => "fan_in_smurfing"
                       | fan_out => "fan_out_smurfing"
                       end (addScore (smurf_account s) 30 e)))).
  { rewrite tags_of_addPattern, String.eqb_refl. apply JsSetFacts.In_add. now left. }
  destruct (negb (truthy _)); exact H.
Qed.

Lemma shell_step_marks e chain :
  (forall a, In a (slice_interior chain) ->
             In "shell_intermediary" (tags_of a (shell_step e chain)))
  /\ In "shell_chain" (tags_of (chain_first chain) (shell_step e chain))
  /\ In "shell_chain" (tags_of (chain_last chain) (shell_step e chain)).
Proof.
  unfold shell_step. cbv zeta.
  set (e1 := fold_left _ (slice_interior chain) e).
  set (e5 := addPattern (chain_last chain) "shell_chain"
               (addPattern (chain_first chain) "shell_chain"
                  (addScore (chain_last chain) 20
                     (addScore (chain_first chain) 20 e1)))).
  assert (H15 : extends e1 e5).
  { eapply extends_trans; [|apply extends_addPattern].
    eapply extends_trans; [|apply extends_addPattern].
    now apply extends_frame. }
  assert (Hout : extends e5
                   (if negb (JsMap.has (chain_first chain) (ringMembership e5))
                    then pushRing
                           (mkFraudRing (ring_name (ringCounter e5)) chain "shell_chain"
                              (Qmin100 (35 + inject_Z (Z.of_nat (List.length chain)) * 5)%Q))
                           (fold_left (fun e m => setRing m (ring_name (ringCounter e5)) e)
                                      chain (bumpCounter e5))
                    else e5)).
  { destruct (negb _); [|apply extends_refl].
    eapply extends_trans; [|apply extends_pushRing].
    apply (extends_trans _ (bumpCounter e5)); [now apply extends_frame|].
    apply extends_fold. intros e' m. now apply extends_frame. }
  split; [|split].
  - intros a Ha. apply (tag_extends _ _ e5); [exact Hout|].
    apply (tag_extends _ _ e1); [exact H15|]. unfold e1.
    apply (fold_left_reach (fun e => In "shell_intermediary" (tags_of a e))
             _ _ a Ha).
    + intros e'. rewrite tags_of_addPattern, String.eqb_refl.
      apply JsSetFacts.In_add. now left.
    + intros e' b H'. now apply extends_mark.
  - apply (tag_extends _ _ e5); [exact Hout|]. unfold e5.
    apply extends_addPattern.
    rewrite tags_of_addPattern, String.eqb_refl. apply JsSetFacts.In_add. now left.
  - apply (tag_extends _ _ e5); [exact Hout|]. unfold e5.
    rewrite tags_of_addPattern, String.eqb_refl. apply JsSetFacts.In_add. now left.
Qed.

Lemma detectors_extends txs : extends (detectors txs) (accumulate txs).
Proof. rewrite accumulate_eq. apply extends_fold, extends_bonus_step. Qed.

Lemma after_smurfing_extends txs : extends (after_smurfing txs) (accumulate txs).
Proof.
  eapply extends_trans; [|apply detectors_extends].
  unfold detectors, after_smurfing, after_cycles. cbv zeta.
  apply extends_fold, extends_shell_step.
Qed.

Lemma score_at_least txs a z :
  In (a, z) (contributions txs) ->
  (Z.min 100 z <= score_of a (scores (accumulate txs)))%Z.
Proof.
  intros Hin. rewrite final_score.
  assert (H : (z <= awarded_to a (contributions txs))%Z).
  { apply awarded_to_ge; [|exact Hin].
    eapply Forall_impl; [|apply contributions_nonneg]. cbv beta. intros; lia. }
  lia.
Qed.

(** An account with a structural tag and a score of at least [z] is
    emitted with them. *)
Lemma emitted_with txs a t z :
  In t (tags_of a (accumulate txs)) -> structural_tag t ->
  (0 < z)%Z -> (z <= score_of a (scores (accumulate txs)))%Z ->
  exists acc,
    In acc (suspicious_accounts (runDetection txs))
    /\ account_id acc = a
    /\ (inject_Z z <= suspicion_score acc)%Q
    /\ In t (detected_patterns acc).
Proof.
  intros Htag Hst Hz Hscore.
  assert (Hem : exists acc, In acc (suspicious_accounts (runDetection txs))
                            /\ account_id acc = a).
  { apply emitted_iff. split; [lia|].
    unfold retained. apply orb_true_iff. left.
    apply existsb_exists. exists t. split; [exact Htag|].
    now apply isMalicious_structural. }
  destruct Hem as (acc & Hacc & Hid). exists acc.
  split; [exact Hacc|]. split; [exact Hid|].
  pose proof Hacc as Hrec. apply In_suspicious_accounts in Hrec.
  destruct Hrec as (s & Hget & Hs & _ & Hshape). rewrite Hid in *.
  assert (Hsc : score_of a (scores (accumulate txs)) = s)
    by (unfold score_of; now rewrite Hget).
  rewrite Hshape. cbn [suspicion_score detected_patterns].
  split; [|exact Htag].
  rewrite round1_integer, <- Zle_Qle. lia.
Qed.

Lemma flag_marked txs s :
  In s (detectSmurfing txs) ->
  In (match smurf_type s with
      | fan_in => "fan_in_smurfing"
      | fan_out => "fan_out_smurfing"
      end) (tags_of (smurf_account s) (accumulate txs)).
Proof.
  intros Hs. apply (tag_extends _ _ _ _ (after_smurfing_extends txs)).
  unfold after_smurfing.
  apply (pass_reach (fun e => In _ (tags_of (smurf_account s) e)) _ _ s Hs).
  - intros e. apply smurf_step_marks.
  - intros e e' He. now apply tag_extends.
  - apply extends_smurf_step.
Qed.

Lemma chain_marked txs chain :
  In chain (detectShellNetworks (buildGraph txs)) ->
  (forall a, In a (slice_interior chain) ->
             In "shell_intermediary" (tags_of a (accumulate txs)))
  /\ In "shell_chain" (tags_of (chain_first chain) (accumulate txs))
  /\ In "shell_chain" (tags_of (chain_last chain) (accumulate txs)).
Proof.
  intros Hc. pose proof (detectors_extends txs) as Hext. unfold detectors in Hext.
  cbv zeta in Hext.
  split; [intros a Ha|split];
    apply (tag_extends _ _ _ _ Hext);
    match goal with |- In ?t (tags_of ?b _) =>
      apply (pass_reach (fun e => In t (tags_of b e)) _ _ chain Hc);
        [ intros e; destruct (shell_step_marks e chain) as (H1 & H2 & H3); auto
        | intros e e' He; now apply tag_extends
        | apply extends_shell_step ]
    end.
Qed.

(** X15: every account flagged for smurfing is in the output with a
    score of at least 30 and the tag of its flag; every interior
    account of a reported shell chain is in the output with at least 35
    and the tag shell_intermediary, and both ends of the chain with at
    least 20 and the tag shell_chain. *)
Theorem flagged_and_chain_accounts_are_reported (txs : list Transaction) :
  Forall
    (fun s =>
       exists acc,
         In acc (suspicious_accounts (runDetection txs))
         /\ account_id acc = smurf_account s
         /\ (30 <= suspicion_score acc)%Q
         /\ In (match smurf_type s with
                | fan_in => "fan_in_smurfing"
                | fan_out => "fan_out_smurfing"
                end) (detected_patterns acc))
    (detectSmurfing txs)
  /\ Forall
       (fun chain =>
          Forall
            (fun a =>
               exists acc,
                 In acc (suspicious_accounts (runDetection txs))
                 /\ account_id acc = a
                 /\ (35 <= suspicion_score acc)%Q
                 /\ In "shell_intermediary" (detected_patterns acc))
            (slice_interior chain)
          /\ Forall
               (fun a =>
                  exists acc,
                    In acc (suspicious_accounts (runDetection txs))
                    /\ account_id acc = a
                    /\ (20 <= suspicion_score acc)%Q
                    /\ In "shell_chain" (detected_patterns acc))
               [chain_first chain; chain_last chain])
       (detectShellNetworks (buildGraph txs)).
Proof.
  split.
  - apply Forall_forall. intros s Hs.
    apply (emitted_with txs (smurf_account s) _ 30).
    + now apply flag_marked.
    + destruct (smurf_type s); [now left | right; now left].
    + lia.
    + apply (score_at_least txs (smurf_account s) 30).
      unfold contributions. cbv zeta. apply in_or_app. right. apply in_or_app. left.
      apply in_flat_map. exists s. split; [exact Hs | now left].
  - apply Forall_forall. intros chain Hc.
    destruct (chain_marked txs chain Hc) as (Hi & Hf & Hl).
    assert (Haw : forall a z, In (a, z) (shell_awards chain) ->
                              In (a, z) (contributions txs)).
    { intros a z H. unfold contributions. cbv zeta.
      apply in_or_app. right. apply in_or_app. right. apply in_or_app. left.
      apply in_flat_map. exists chain. split; [exact Hc | exact H]. }
    split.
    + apply Forall_forall. intros a Ha.
      apply (emitted_with txs a "shell_intermediary" 35); [auto| |lia|].
      * do 2 right. now left.
      * apply (score_at_least txs a 35), Haw. unfold shell_awards.
        apply in_or_app. left. apply in_map_iff. now exists a.
    + constructor; [|constructor; [|constructor]].
      * apply (emitted_with txs _ "shell_chain" 20); [auto| |lia|].
        { do 3 right. now left. }
        apply (score_at_least txs _ 20), Haw. unfold shell_awards.
        apply in_or_app. right. now left.
      * apply (emitted_with txs _ "shell_chain" 20); [auto| |lia|].
        { do 3 right. now left. }
        apply (score_at_least txs _ 20), Haw. unfold shell_awards.
        apply in_or_app. right. right. now left.
Qed.

(** ** Splitting a CSV line *)

Lemma string_append_assoc s1 s2 s3 :
  String.append (String.append s1 s2) s3 = String.append s1 (String.append s2 s3).
Proof. induction s1 as [|c s1 IH]; simpl; [reflexivity | now rewrite IH]. Qed.

Lemma string_rev_onto_app s : forall acc,
  string_rev_onto s acc = String.append (string_rev s) acc.
Proof.
  unfold string_rev. induction s as [|c s IH]; intros acc; simpl; [reflexivity|].
  rewrite IH, (IH (String c "")). rewrite string_append_assoc. reflexivity.
Qed.

Lemma string_rev_cons c s :
  string_rev (String c s) = String.append (string_rev s) (String c "").
Proof. unfold string_rev at 1. simpl. apply string_rev_onto_app. Qed.

Lemma append_nil_r s : String.append s "" = s.
Proof. induction s as [|c s IH]; simpl; [reflexivity | now rewrite IH]. Qed.

Lemma has_char_append c s1 s2 :
  has_char c (String.append s1 s2) = has_char c s1 || has_char c s2.
Proof.
  induction s1 as [|a s1 IH]; simpl; [reflexivity|].
  rewrite IH. now rewrite orb_assoc.
Qed.

Lemma has_char_rev c s : has_char c (string_rev s) = has_char c s.
Proof.
  induction s as [|a s IH]; [reflexivity|].
  rewrite string_rev_cons, has_char_append, IH. simpl.
  rewrite orb_false_r. apply orb_comm.
Qed.

Lemma split_at_nonempty sep s : forall cur, split_at sep s cur <> [].
Proof.
  induction s as [|c s IH]; intros cur; simpl; [discriminate|].
  destruct (Ascii.eqb c sep); [discriminate | apply IH].
Qed.

Lemma split_at_length sep s : forall cur,
  List.length (split_at sep s cur) = S (count_char sep s).
Proof.
  induction s as [|c s IH]; intros cur; simpl; [reflexivity|].
  destruct (Ascii.eqb c sep); simpl; now rewrite IH.
Qed.

Lemma concat_cons sep x l :
  l <> [] ->
  String.concat sep (x :: l)
  = String.append x (String.append sep (String.concat sep l)).
Proof. destruct l; [congruence | reflexivity]. Qed.

(** Joining what [split] made gives the string back. *)
Lemma concat_split_at sep s : forall cur,
  String.concat (String sep "") (split_at sep s cur)
  = String.append (string_rev cur) s.
Proof.
  induction s as [|c s IH]; intros cur; cbn [split_at].
  - simpl. now rewrite append_nil_r.
  - destruct (Ascii.eqb_spec c sep) as [->|Hne].
    + rewrite concat_cons by apply split_at_nonempty. rewrite IH. reflexivity.
    + rewrite IH, string_rev_cons, string_append_assoc. reflexivity.
Qed.

(** Without quotes the loop of [parseCSVLine] is [split]. *)
Lemma parseCSVLine_loop_split line : forall acc cur,
  has_char dquote line = false ->
  parseCSVLine_loop line acc cur false = rev acc ++ split_at "," line cur.
Proof.
  induction line as [|ch rest IH]; intros acc cur Hq; simpl; [reflexivity|].
  simpl in Hq. apply orb_false_iff in Hq. destruct Hq as [Hch Hrest].
  rewrite Hch. simpl. rewrite andb_true_r.
  destruct (Ascii.eqb ch ","); [|now apply IH].
  rewrite IH by exact Hrest. simpl. now rewrite <- app_assoc.
Qed.

(** X16: on a line without double quotes [parseCSVLine] splits at
    every comma, so there is one field more than there are commas, and
    joining the fields with commas gives the line back. *)
Theorem parseCSVLine_without_quotes (line : string) :
  has_char dquote line = false ->
  parseCSVLine line = split "," line
  /\ List.length (parseCSVLine line) = S (count_char "," line)
  /\ join "," (parseCSVLine line) = line.
Proof.
  intros Hq. unfold parseCSVLine. rewrite (parseCSVLine_loop_split line [] "" Hq).
  simpl. unfold split, join. split; [reflexivity|].
  split; [apply split_at_length|]. apply (concat_split_at "," line "").
Qed.

Lemma parseCSVLine_without_quotes_witness :
  parseCSVLine "T1,A,B,100.50,2024-01-15 10:00:00"
  = split "," "T1,A,B,100.50,2024-01-15 10:00:00"
  /\ List.length (parseCSVLine "T1,A,B,100.50,2024-01-15 10:00:00")
     = S (count_char "," "T1,A,B,100.50,2024-01-15 10:00:00")
  /\ join "," (parseCSVLine "T1,A,B,100.50,2024-01-15 10:00:00")
     = "T1,A,B,100.50,2024-01-15 10:00:00".
Proof.
  apply (parseCSVLine_without_quotes "T1,A,B,100.50,2024-01-15 10:00:00").
  reflexivity.
Defined.

Lemma parseCSVLine_loop_fields line : forall acc cur inQuotes,
  Forall (fun f => has_char dquote f = false) acc ->
  has_char dquote cur = false ->
  let fields := parseCSVLine_loop line acc cur inQuotes in
  Forall (fun f => has_char dquote f = false) fields
  /\ List.length acc < List.length fields
  /\ List.length fields <= S (List.length acc + count_char "," line).
Proof.
  induction line as [|ch rest IH]; intros acc cur inQuotes Hacc Hcur; cbn zeta.
  - simpl. rewrite length_app, length_rev. simpl. split; [|lia].
    apply Forall_app. split; [now apply Forall_rev|].
    constructor; [|constructor]. now rewrite has_char_rev.
  - cbn [parseCSVLine_loop count_char].
    destruct (Ascii.eqb ch dquote) eqn:Eq.
    + destruct (IH acc cur (negb inQuotes) Hacc Hcur) as (H1 & H2 & H3).
      split; [exact H1|]. split; [exact H2|].
      destruct (Ascii.eqb ch ","); lia.
    + destruct (Ascii.eqb ch "," && negb inQuotes) eqn:Ec.
      * apply andb_prop in Ec. destruct Ec as [Ec _]. rewrite Ec.
        destruct (IH (string_rev cur :: acc) "" inQuotes) as (H1 & H2 & H3).
        { constructor; [now rewrite has_char_rev | exact Hacc]. }
        { reflexivity. }
        simpl in H2, H3. split; [exact H1|]. split; lia.
      * destruct (IH acc (String ch cur) inQuotes Hacc) as (H1 & H2 & H3).
        { simpl. now rewrite Eq. }
        split; [exact H1|]. split; [exact H2|].
        destruct (Ascii.eqb ch ","); lia.
Qed.

(** X17: [parseCSVLine] always returns at least one field and at most
    one more than the line has commas, and no field contains a double
    quote: quotes only switch the quoted mode and are dropped, a
    doubled quote included. *)
Theorem parseCSVLine_fields (line : string) :
  1 <= List.length (parseCSVLine line) <= S (count_char "," line)
  /\ Forall (fun f => has_char dquote f = false) (parseCSVLine line).
Proof.
  unfold parseCSVLine.
  destruct (parseCSVLine_loop_fields line [] "" false (Forall_nil _) eq_refl)
    as (H1 & H2 & H3).
  simpl in H2, H3. split; [lia | exact H1].
Qed.

(** ** The outcomes of [parseCSV] *)

Lemma count_char_has c s : has_char c s = negb (count_char c s =? 0).
Proof.
  induction s as [|a s IH]; simpl; [reflexivity|].
  destruct (Ascii.eqb a c); simpl; [reflexivity | exact IH].
Qed.

Lemma csv_lines_short csvText :
  (List.length (csv_lines csvText) <? 2) = negb (has_char newline (trim csvText)).
Proof.
  unfold csv_lines, split. rewrite split_at_length, count_char_has, negb_involutive.
  destruct (count_char newline (trim csvText)); reflexivity.
Qed.

(** X18: a text that has no line break once it is trimmed (an empty
    file, or a header without data rows) gives no transaction and the
    single row-0 error of an empty file. *)
Theorem parseCSV_without_data_rows (Date_getTime : string -> option Z)
    (csvText : string) :
  has_char newline (trim csvText) = false ->
  parseCSV Date_getTime csvText
  = mkParseResult [] [mkParseError 0 "CSV file is empty or has no data rows."].
Proof.
  intros H. unfold parseCSV. cbv zeta.
  change (split newline (trim csvText)) with (csv_lines csvText).
  now rewrite csv_lines_short, H.
Qed.

Lemma parseCSV_without_data_rows_witness :
  parseCSV utc_getTime "transaction_id,sender_id,receiver_id,amount,timestamp"
  = mkParseResult [] [mkParseError 0 "CSV file is empty or has no data rows."].
Proof.
  apply (parseCSV_without_data_rows utc_getTime
           "transaction_id,sender_id,receiver_id,amount,timestamp").
  reflexivity.
Defined.

Lemma fold_missing {A} (p : string -> bool) (g : string -> A) l : forall acc,
  fold_left (fun errs col => if p col then errs else errs ++ [g col]) l acc
  = acc ++ map g (filter (fun col => negb (p col)) l).
Proof.
  induction l as [|col l IH]; intros acc; simpl; [now rewrite app_nil_r|].
  rewrite IH. destruct (p col); simpl; [reflexivity|].
  now rewrite <- app_assoc.
Qed.

(** The header check of [parseCSV], then its row loop. *)
Lemma parseCSV_eq Date_getTime csvText :
  has_char newline (trim csvText) = true ->
  parseCSV Date_getTime csvText
  = match missing_columns csvText with
    | [] => parse_rows Date_getTime (csv_headers csvText) 1 (tl (csv_lines csvText))
              (mkParseResult [] [])
    | missing => mkParseResult [] (map missing_column_error missing)
    end.
Proof.
  intros H. unfold parseCSV. cbv zeta.
  change (split newline (trim csvText)) with (csv_lines csvText).
  rewrite csv_lines_short, H. cbn [negb].
  change (map (fun h => strip_quotes (toLowerCase (trim h)))
              (split "," (hd "" (csv_lines csvText))))
    with (csv_headers csvText).
  set (errs := fold_left _ REQUIRED_COLUMNS []).
  assert (He : errs = map missing_column_error (missing_columns csvText)).
  { exact (fold_missing (fun col => includes col (csv_headers csvText))
             missing_column_error REQUIRED_COLUMNS []). }
  rewrite He. destruct (missing_columns csvText); reflexivity.
Qed.



Lemma parse_row_error_row Date_getTime headers rowNum line err :
  parse_row Date_getTime headers rowNum line = inl err -> row err = rowNum.
Proof.
  unfold parse_row. cbv zeta.
  destruct (_ || _ || _); [intros H; now inversion H|].
  destruct (isNaN _); [intros H; now inversion H|].
  destruct (negb _); [intros H; now inversion H|].
  destruct (Date_getTime _); [discriminate | intros H; now inversion H].
Qed.

(** The row loop: one result per non-blank line, errors numbered by
    line. *)
Lemma parse_rows_account Date_getTime headers rows : forall i res,
  let r := parse_rows Date_getTime headers i rows res in
  List.length (parsed r) + List.length (errors r)
  = List.length (parsed res) + List.length (errors res)
    + List.length (filter (fun l => negb (is_empty (trim l))) rows)
  /\ exists more,
       errors r = errors res ++ more
       /\ Forall (fun e => i < row e <= i + List.length rows) more
       /\ StronglySorted lt (map row more).
Proof.
  induction rows as [|l rows IH]; intros i res; cbn zeta.
  - simpl. split; [lia|]. exists []. rewrite app_nil_r.
    split; [reflexivity|]. split; constructor.
  - cbn [parse_rows filter List.length].
    destruct (is_empty (trim l)) eqn:E; cbn [negb].
    + destruct (IH (S i) res) as (H1 & more & H2 & H3 & H4). cbv zeta in *.
      split; [exact H1|]. exists more. split; [exact H2|]. split; [|exact H4].
      eapply Forall_impl; [|exact H3]. cbv beta. intros; lia.
    + destruct (parse_row Date_getTime headers (i + 1) (trim l)) as [err|t] eqn:Er.
      * destruct (IH (S i) (mkParseResult (parsed res) (errors res ++ [err])))
          as (H1 & more & H2 & H3 & H4). cbv zeta in *.
        cbn [parsed errors] in H1, H2. rewrite length_app in H1. simpl in H1.
        split; [simpl; lia|].
        exists (err :: more). rewrite H2, <- app_assoc.
        split; [reflexivity|].
        apply parse_row_error_row in Er. split.
        -- constructor; [lia|].
           eapply Forall_impl; [|exact H3]. cbv beta. intros; lia.
        -- simpl. constructor; [exact H4|].
           apply Forall_map. eapply Forall_impl; [|exact H3]. cbv beta. intros; lia.
      * destruct (IH (S i) (mkParseResult (parsed res ++ [t]) (errors res)))
          as (H1 & more & H2 & H3 & H4). cbv zeta in *.
        cbn [parsed errors] in H1, H2. rewrite length_app in H1. simpl in H1.
        split; [simpl; lia|].
        exists more. split; [exact H2|]. split; [|exact H4].
        eapply Forall_impl; [|exact H3]. cbv beta. intros; lia.
Qed.

(** ** The rows of a file and what each of them gives *)

Lemma parse_rows_rows Date_getTime headers rows : forall i res,
  let rs := filter (fun r => negb (is_empty (snd r)))
                   (combine (seq (i + 1) (List.length rows)) (map trim rows)) in
  let outcome := fun r : nat * string =>
                   parse_row Date_getTime headers (fst r) (snd r) in
  parse_rows Date_getTime headers i rows res
  = mkParseResult
      (parsed res ++ flat_map (fun r => transaction_of (outcome r)) rs)
      (errors res ++ flat_map (fun r => error_of (outcome r)) rs).
Proof.
  induction rows as [|l rows IH]; intros i res; cbv zeta.
  - simpl. rewrite !app_nil_r. now destruct res.
  - cbn [parse_rows List.length seq map combine filter snd].
    replace (S (i + 1)) with (S i + 1) by lia.
    destruct (is_empty (trim l)); cbn [negb].
    + apply IH.
    + cbn [flat_map fst snd].
      destruct (parse_row Date_getTime headers (i + 1) (trim l)) as [err|t];
        rewrite IH; cbn [parsed errors error_of transaction_of app];
        now rewrite <- ?app_assoc.
Qed.

Lemma parseCSV_rows Date_getTime csvText :
  has_char newline (trim csvText) = true ->
  missing_columns csvText = [] ->
  parseCSV Date_getTime csvText
  = mkParseResult
      (flat_map (fun r => transaction_of
                            (parse_row Date_getTime (csv_headers csvText)
                                       (fst r) (snd r)))
                (numbered_rows csvText))
      (flat_map (fun r => error_of
                            (parse_row Date_getTime (csv_headers csvText)
                                       (fst r) (snd r)))
                (numbered_rows csvText)).
Proof.
  intros H Hm. rewrite parseCSV_eq by exact H. rewrite Hm.
  exact (parse_rows_rows Date_getTime (csv_headers csvText)
           (tl (csv_lines csvText)) 1 (mkParseResult [] [])).
Qed.

Lemma In_combine_seq {A} (l : list A) : forall i n x,
  In (n, x) (combine (seq i (List.length l)) l) ->
  i <= n < i + List.length l /\ nth_error l (n - i) = Some x.
Proof.
  induction l as [|y l IH]; intros i n x H; simpl in H; [contradiction|].
  destruct H as [H|H].
  - inversion H; subst. rewrite Nat.sub_diag. simpl. split; [lia | reflexivity].
  - destruct (IH _ _ _ H) as (H1 & H2). split; [simpl; lia|].
    replace (n - i) with (S (n - S i)) by lia. exact H2.
Qed.

(** A numbered row is the trimmed text of the line of that number. *)
Lemma numbered_rows_line csvText n line :
  In (n, line) (numbered_rows csvText) ->
  2 <= n <= List.length (csv_lines csvText)
  /\ line <> ""
  /\ exists l, nth_error (csv_lines csvText) (n - 1) = Some l /\ line = trim l.
Proof.
  unfold numbered_rows. intros H. apply filter_In in H. destruct H as (H & Hne).
  cbn [snd] in Hne.
  rewrite <- (length_map trim) in H. apply In_combine_seq in H.
  destruct H as (Hn & Hnth). rewrite length_map in Hn.
  split; [destruct (csv_lines csvText); simpl in *; lia|].
  split; [intros ->; discriminate|].
  rewrite nth_error_map in Hnth.
  destruct (nth_error (tl (csv_lines csvText)) (n - 2)) as [l|] eqn:E;
    [|discriminate].
  exists l. cbn [option_map] in Hnth. inversion Hnth. split; [|reflexivity].
  replace (n - 1) with (S (n - 2)) by lia.
  destruct (csv_lines csvText); [destruct (n - 2); discriminate | exact E].
Qed.

Lemma In_flat_map_transaction {A} (f : A -> ParseError + Transaction) l t :
  In t (flat_map (fun r => transaction_of (f r)) l) <->
  exists r, In r l /\ f r = inr t.
Proof.
  rewrite in_flat_map. split; intros (r & Hr & H); exists r; (split; [exact Hr|]).
  - destruct (f r); simpl in H; [contradiction|]. destruct H as [->|[]]. reflexivity.
  - rewrite H. now left.
Qed.

Lemma In_flat_map_error {A} (f : A -> ParseError + Transaction) l e :
  In e (flat_map (fun r => error_of (f r)) l) <->
  exists r, In r l /\ f r = inl e.
Proof.
  rewrite in_flat_map. split; intros (r & Hr & H); exists r; (split; [exact Hr|]).
  - destruct (f r); simpl in H; [|contradiction]. destruct H as [->|[]]. reflexivity.
  - rewrite H. now left.
Qed.

(** The parsed transactions come from numbered rows, whatever the
    header. *)
Lemma parsed_from_rows Date_getTime csvText t :
  In t (parsed (parseCSV Date_getTime csvText)) ->
  exists n line,
    In (n, line) (numbered_rows csvText)
    /\ parse_row Date_getTime (csv_headers csvText) n line = inr t.
Proof.
  destruct (has_char newline (trim csvText)) eqn:H.
  - destruct (missing_columns csvText) as [|m l] eqn:Hm.
    + rewrite (parseCSV_rows _ _ H Hm). cbn [parsed].
      intros Hin. apply In_flat_map_transaction in Hin.
      destruct Hin as ((n & line) & Hr & Ho). now exists n, line.
    + rewrite parseCSV_eq by exact H. rewrite Hm. intros [].
  - unfold parseCSV. cbv zeta.
    change (split newline (trim csvText)) with (csv_lines csvText).
    rewrite csv_lines_short, H. intros [].
Qed.

(** What [parse_row] does about the timestamp text [ts] of a row. *)
Lemma parse_row_timestamp_text Date_getTime headers n line :
  let field := fun name =>
                 trim (or_empty (nth_error (parseCSVLine line)
                                           (indexOf name headers))) in
  let ts := field "timestamp" in
  let iso := String.append (replace_space_T ts) "Z" in
  let complete := negb (is_empty (field "transaction_id")
                        || is_empty (field "sender_id")
                        || is_empty (field "receiver_id"))
                  && negb (isNaN (parseFloat (field "amount"))) in
  (forall t, parse_row Date_getTime headers n line = inr t ->
             complete = true
             /\ TIMESTAMP_REGEX_test ts = true
             /\ Date_getTime iso = Some (timestamp t))
  /\ (TIMESTAMP_REGEX_test ts = false ->
      exists e, parse_row Date_getTime headers n line = inl e
                /\ (complete = true -> e = invalid_timestamp n ts))
  /\ (TIMESTAMP_REGEX_test ts = true -> Date_getTime iso = None ->
      exists e, parse_row Date_getTime headers n line = inl e
                /\ (complete = true -> e = unreadable_timestamp n ts)).
Proof.
  cbv zeta. unfold parse_row. cbv zeta.
  destruct (_ || _ || _); cbn [negb andb].
  - split; [discriminate|]. split; intros; eexists; (split; [reflexivity | discriminate]).
  - destruct (isNaN _); cbn [negb].
    + split; [discriminate|].
      split; intros; eexists; (split; [reflexivity | discriminate]).
    + destruct (TIMESTAMP_REGEX_test _) eqn:Ets; cbn [negb].
      * destruct (Date_getTime _) as [ms|] eqn:Ed.
        -- split; [intros t H; inversion H; subst; cbn [timestamp]; auto|].
           split; discriminate.
        -- split; [discriminate|]. split; [discriminate|].
           intros _ _. eexists. split; reflexivity.
      * split; [discriminate|].
        split; [intros _; eexists; split; reflexivity | discriminate].
Qed.

Lemma combine_seq_In {A} (l : list A) : forall i k x,
  nth_error l k = Some x -> In (i + k, x) (combine (seq i (List.length l)) l).
Proof.
  induction l as [|y l IH]; intros i k x H; [destruct k; discriminate|].
  destruct k as [|k]; simpl in *.
  - inversion H; subst. left. f_equal. lia.
  - right. replace (i + S k) with (S i + k) by lia. now apply IH.
Qed.

Lemma numbered_rows_In csvText n l :
  2 <= n -> nth_error (csv_lines csvText) (n - 1) = Some l -> trim l <> "" ->
  In (n, trim l) (numbered_rows csvText).
Proof.
  intros Hn Hl Hne. unfold numbered_rows. apply filter_In. split.
  - rewrite <- (length_map trim).
    replace n with (2 + (n - 2)) at 1 by lia. apply combine_seq_In.
    rewrite nth_error_map.
    replace (n - 1) with (S (n - 2)) in Hl by lia.
    destruct (csv_lines csvText) as [|h tl']; [discriminate|].
    cbn [tl]. simpl in Hl. now rewrite Hl.
  - cbn [snd]. destruct (trim l); [congruence | reflexivity].
Qed.

(** X20: with all required columns in the header, every line after
    the header that is not blank gives exactly one transaction or one
    error: the transactions are those of the rows that pass, the
    errors those of the rows that fail, both in line order.  An error
    carries the number of its line in the file (the header is line 1,
    blank lines are counted), and that line, trimmed, is the row that
    gave it. *)
Theorem parseCSV_accounts_for_every_row (Date_getTime : string -> option Z)
    (csvText : string) :
  has_char newline (trim csvText) = true ->
  missing_columns csvText = [] ->
  let outcome := fun r : nat * string =>
                   parse_row Date_getTime (csv_headers csvText) (fst r) (snd r) in
  parsed (parseCSV Date_getTime csvText)
  = flat_map (fun r => transaction_of (outcome r)) (numbered_rows csvText)
  /\ errors (parseCSV Date_getTime csvText)
     = flat_map (fun r => error_of (outcome r)) (numbered_rows csvText)
  /\ (forall e,
        In e (errors (parseCSV Date_getTime csvText)) ->
        exists l,
          nth_error (csv_lines csvText) (row e - 1) = Some l
          /\ trim l <> ""
          /\ parse_row Date_getTime (csv_headers csvText) (row e) (trim l) = inl e)
  /\ (forall n l,
        2 <= n -> nth_error (csv_lines csvText) (n - 1) = Some l -> trim l <> "" ->
        match parse_row Date_getTime (csv_headers csvText) n (trim l) with
        | inl e => In e (errors (parseCSV Date_getTime csvText)) /\ row e = n
        | inr t => In t (parsed (parseCSV Date_getTime csvText))
        end)
  /\ List.length (parsed (parseCSV Date_getTime csvText))
     + List.length (errors (parseCSV Date_getTime csvText))
     = List.length (data_lines csvText)
  /\ Forall (fun e => 2 <= row e <= List.length (csv_lines csvText))
            (errors (parseCSV Date_getTime csvText))
  /\ StronglySorted lt (map row (errors (parseCSV Date_getTime csvText))).
Proof.
  intros H Hm. cbv zeta.
  pose proof (parseCSV_rows Date_getTime csvText H Hm) as Erows.
  split; [now rewrite Erows|]. split; [now rewrite Erows|].
  split; [|split].
  - intros e He. rewrite Erows in He. cbn [errors] in He.
    apply In_flat_map_error in He. destruct He as ((n & line) & Hr & Ho).
    cbn [fst snd] in Ho.
    pose proof (parse_row_error_row _ _ _ _ _ Ho) as Hrow.
    destruct (numbered_rows_line _ _ _ Hr) as (_ & Hne & l & Hl & ->).
    exists l. rewrite Hrow. auto.
  - intros n l Hn Hl Hne.
    assert (Hr : In (n, trim l) (numbered_rows csvText))
      by (apply numbered_rows_In; assumption).
    destruct (parse_row Date_getTime (csv_headers csvText) n (trim l))
      as [e|t] eqn:Ho.
    + split; [|exact (parse_row_error_row _ _ _ _ _ Ho)].
      rewrite Erows. cbn [errors]. apply In_flat_map_error.
      exists (n, trim l). auto.
    + rewrite Erows. cbn [parsed]. apply In_flat_map_transaction.
      exists (n, trim l). auto.
  - rewrite parseCSV_eq by exact H. rewrite Hm.
    destruct (parse_rows_account Date_getTime (csv_headers csvText)
                (tl (csv_lines csvText)) 1 (mkParseResult [] []))
      as (H1 & more & H2 & H3 & H4).
    cbv zeta in *. cbn [parsed errors List.length app] in H1, H2.
    split; [exact H1|]. rewrite H2. split; [|exact H4].
    eapply Forall_impl; [|exact H3]. cbv beta. intros e He.
    assert (Hlen : List.length (csv_lines csvText)
                   = S (List.length (tl (csv_lines csvText)))).
    { pose proof (csv_lines_short csvText) as Hs. rewrite H in Hs.
      apply Nat.ltb_ge in Hs. destruct (csv_lines csvText); simpl in *; lia. }
    lia.
Qed.

Lemma parseCSV_accounts_for_every_row_witness :
  (numbered_rows mixed_rows_csv
   = [ (2, "T1,A,B,10,2024-01-15 10:00:00");
       (4, "T2,A,,10,2024-01-15 11:00:00");
       (5, "T3,B,C,10,2024-01-15T12:00:00");
       (6, "T4,C,D,10,2024-13-15 12:00:00") ]
   /\ map row (errors (parseCSV utc_getTime mixed_rows_csv)) = [4; 5; 6]
   /\ map transaction_id (parsed (parseCSV utc_getTime mixed_rows_csv)) = ["T1"])
  /\ (forall e,
        In e (errors (parseCSV utc_getTime mixed_rows_csv)) ->
        exists l,
          nth_error (csv_lines mixed_rows_csv) (row e - 1) = Some l
          /\ trim l <> ""
          /\ parse_row utc_getTime (csv_headers mixed_rows_csv) (row e) (trim l)
             = inl e).
Proof.
  split; [repeat split; vm_compute; reflexivity|].
  refine (proj1 (proj2 (proj2
            (parseCSV_accounts_for_every_row utc_getTime mixed_rows_csv _ _))));
    vm_compute; reflexivity.
Defined.

(** ** The canonical rotation and the deduplication key *)

Lemma first_occurrence (m : string) l :
  In m l -> exists p q, l = p ++ m :: q /\ ~ In m p.
Proof.
  induction l as [|x l IH]; intros Hin; [destruct Hin|].
  destruct (string_dec x m) as [->|Hne].
  - exists [], l. split; [reflexivity | simpl; tauto].
  - destruct Hin as [E|Hin]; [congruence|].
    destruct (IH Hin) as (p & q & -> & Hp).
    exists (x :: p), q. split; [reflexivity|]. simpl. tauto.
Qed.

Lemma normalize_shape c :
  c <> [] ->
  exists p q,
    c = p ++ reduce_min c :: q
    /\ normalize c = reduce_min c :: q ++ p
    /\ ~ In (reduce_min c) p.
Proof.
  intros Hne. destruct (reduce_min_spec c Hne) as [Hin _].
  destruct (first_occurrence _ _ Hin) as (p & q & E & Hp).
  exists p, q. split; [exact E|]. split; [|exact Hp].
  rewrite E at 1. apply normalize_at; [now rewrite <- E | exact Hp].
Qed.

Lemma is_rotation_normalize c : is_rotation c (normalize c).
Proof.
  unfold normalize. set (i := indexOf (reduce_min c) c).
  exists (firstn i c), (skipn i c). split; [|reflexivity].
  symmetry. apply firstn_skipn.
Qed.

Lemma is_rotation_sym l1 l2 : is_rotation l1 l2 -> is_rotation l2 l1.
Proof. intros (a & b & -> & ->). now exists b, a. Qed.

Lemma is_rotation_trans l1 l2 l3 :
  is_rotation l1 l2 -> is_rotation l2 l3 -> is_rotation l1 l3.
Proof.
  intros (a & b & -> & ->) (c & d & E & ->).
  apply app_eq_app in E. destruct E as [l [[-> ->]|[-> ->]]].
  - exists (a ++ c), l. split; [now rewrite <- app_assoc|].
    now rewrite <- !app_assoc.
  - exists l, (d ++ b). split; [now rewrite <- app_assoc|].
    now rewrite <- !app_assoc.
Qed.

(** X22: [normalize] turns a cycle to start at the first occurrence of
    its smallest account id (in the order of [<] on strings), keeping
    the cyclic order. *)
Theorem normalize_rotates_to_the_smallest_id (c : list string) :
  c <> [] ->
  exists p q,
    c = p ++ reduce_min c :: q
    /\ normalize c = reduce_min c :: q ++ p
    /\ ~ In (reduce_min c) p
    /\ forall x, In x c -> String.ltb x (reduce_min c) = false.
Proof.
  intros Hne. destruct (normalize_shape c Hne) as (p & q & H1 & H2 & H3).
  exists p, q. repeat split; auto. apply (reduce_min_spec c Hne).
Qed.

Lemma normalize_rotates_to_the_smallest_id_witness :
  exists p q,
    ["C"; "A"; "B"] = p ++ reduce_min ["C"; "A"; "B"] :: q
    /\ normalize ["C"; "A"; "B"] = reduce_min ["C"; "A"; "B"] :: q ++ p
    /\ ~ In (reduce_min ["C"; "A"; "B"]) p
    /\ forall x, In x ["C"; "A"; "B"] ->
                 String.ltb x (reduce_min ["C"; "A"; "B"]) = false.
Proof.
  apply (normalize_rotates_to_the_smallest_id ["C"; "A"; "B"]). discriminate.
Defined.

(** *** Keys of comma-free account ids *)

Lemma comma_split x y r1 r2 :
  has_char "," x = false -> has_char "," y = false ->
  String.append x (String "," r1) = String.append y (String "," r2) ->
  x = y /\ r1 = r2.
Proof.
  revert y. induction x as [|a x IH]; intros y Hx Hy E.
  - destruct y as [|b y]; simpl in E.
    + inversion E. now split.
    + inversion E; subst. simpl in Hy. discriminate.
  - destruct y as [|b y]; simpl in E.
    + inversion E; subst. simpl in Hx. discriminate.
    + inversion E; subst. simpl in Hx, Hy.
      apply orb_false_iff in Hx, Hy.
      destruct (IH y (proj2 Hx) (proj2 Hy) H1) as [-> ->]. now split.
Qed.

Lemma join_comma_free l1 : forall l2,
  l1 <> [] -> l2 <> [] ->
  Forall (fun x => has_char "," x = false) l1 ->
  Forall (fun x => has_char "," x = false) l2 ->
  join "," l1 = join "," l2 -> l1 = l2.
Proof.
  unfold join.
  induction l1 as [|x l1 IH]; intros l2 H1 H2 F1 F2 E; [congruence|].
  destruct l2 as [|y l2]; [congruence|].
  inversion F1 as [|? ? Hx F1']; inversion F2 as [|? ? Hy F2']; subst.
  destruct l1 as [|x' l1], l2 as [|y' l2].
  - simpl in E. now subst.
  - rewrite (concat_cons _ y (y' :: l2)) in E by discriminate.
    simpl in E. subst x. rewrite has_char_append in Hx. simpl in Hx.
    rewrite orb_true_r in Hx. discriminate.
  - rewrite (concat_cons _ x (x' :: l1)) in E by discriminate.
    simpl in E. subst y. rewrite has_char_append in Hy. simpl in Hy.
    rewrite orb_true_r in Hy. discriminate.
  - rewrite (concat_cons _ x (x' :: l1)), (concat_cons _ y (y' :: l2)) in E
      by discriminate.
    destruct (comma_split x y _ _ Hx Hy E) as [-> E'].
    f_equal. apply IH; auto; discriminate.
Qed.

Lemma In_normalize x c : In x (normalize c) <-> In x c.
Proof.
  destruct (is_rotation_normalize c) as (a & b & E1 & E2).
  split; intros H.
  - rewrite E2 in H. rewrite E1. apply in_app_or in H. apply in_or_app. tauto.
  - rewrite E2. rewrite E1 in H. apply in_app_or in H. apply in_or_app. tauto.
Qed.

Lemma same_key_rotation c1 c2 :
  c1 <> [] -> c2 <> [] ->
  Forall (fun x => has_char "," x = false) c1 ->
  Forall (fun x => has_char "," x = false) c2 ->
  cycle_key c1 = cycle_key c2 -> is_rotation c1 c2.
Proof.
  intros H1 H2 F1 F2 E. unfold cycle_key in E.
  assert (Hn : normalize c1 = normalize c2).
  { apply join_comma_free; auto.
    - destruct (normalize_shape c1 H1) as (p & q & _ & -> & _). discriminate.
    - destruct (normalize_shape c2 H2) as (p & q & _ & -> & _). discriminate.
    - apply Forall_forall. intros x Hx. apply (proj1 (In_normalize _ _)) in Hx.
      exact (proj1 (Forall_forall _ _) F1 x Hx).
    - apply Forall_forall. intros x Hx. apply (proj1 (In_normalize _ _)) in Hx.
      exact (proj1 (Forall_forall _ _) F2 x Hx). }
  apply (is_rotation_trans _ (normalize c1)); [apply is_rotation_normalize|].
  rewrite Hn. apply is_rotation_sym, is_rotation_normalize.
Qed.

(** X23: when no account id contains a comma, the cycle detector
    reports a rotation of every closed flow of money through 3 to 5
    distinct accounts. *)
Theorem detectCycles_finds_a_rotation_of_every_cycle (txs : list Transaction)
    (c : list string) :
  Forall (fun t => has_char "," (sender_id t) = false
                   /\ has_char "," (receiver_id t) = false) txs ->
  NoDup c -> 3 <= List.length c <= 5 ->
  flow txs (c ++ firstn 1 c) ->
  exists c', In c' (detectCycles (buildGraph txs)) /\ is_rotation c c'.
Proof.
  intros Hids Hnd Hlen Hp.
  assert (Hfree : forall a, known_account txs a -> has_char "," a = false).
  { intros a (t & Hin & [<-|<-]);
      destruct (proj1 (Forall_forall _ _) Hids t Hin); assumption. }
  destruct (detectCycles_complete (buildGraph txs) c Hnd Hlen) as (c' & Hc' & Hk).
  { now apply is_path_flow. }
  exists c'. split; [exact Hc'|].
  pose proof (proj1 (Forall_forall _ _) (proj1 (detectCycles_inv _)) c' Hc')
    as [_ Hlen'].
  apply same_key_rotation; auto.
  - intros ->. simpl in Hlen. lia.
  - intros ->. simpl in Hlen'. lia.
  - apply Forall_forall. intros a Ha. apply Hfree.
    apply (flow_accounts txs (c ++ firstn 1 c) Hp).
    + rewrite length_app. lia.
    + apply in_or_app. now left.
  - apply Forall_forall. intros a Ha. apply Hfree.
    now apply (cycle_accounts txs c').
Qed.

Lemma detectCycles_finds_a_rotation_of_every_cycle_witness :
  exists c', In c' (detectCycles (buildGraph two_triangles))
             /\ is_rotation ["E"; "A"; "D"] c'.
Proof.
  apply (detectCycles_finds_a_rotation_of_every_cycle two_triangles ["E"; "A"; "D"]).
  - repeat constructor.
  - repeat constructor; simpl; intuition discriminate.
  - simpl. lia.
  - simpl. unfold sends.
    split; [exists (tx "T6" "E" "A" (500 * HOUR)); simpl; tauto|].
    split; [exists (tx "T4" "A" "D" (300 * HOUR)); simpl; tauto|].
    split; [exists (tx "T5" "D" "E" (400 * HOUR)); simpl; tauto|].
    exact I.
Defined.

(** ** What the false-positive filter can remove *)













(** ** The upload handler *)







(** ** The merchant test and the search budgets *)


Lemma cycle_dfs_more_budget nodes start k : forall current path visited st,
  1 <= List.length path ->
  cycle_dfs (5 + k) nodes start current path visited st
  = cycle_dfs 5 nodes start current path visited st.
Proof.
  induction k as [|k IH]; intros current path visited st Hlen.
  - now rewrite Nat.add_0_r.
  - replace (5 + S k) with (S (5 + k)) by lia.
    rewrite cycle_dfs_budget by lia. now apply IH.
Qed.

Lemma shell_dfs_more_budget nodes k : forall current path st,
  1 <= List.length path ->
  shell_dfs (7 + k) nodes current path st = shell_dfs 7 nodes current path st.
Proof.
  induction k as [|k IH]; intros current path st Hlen.
  - now rewrite Nat.add_0_r.
  - replace (7 + S k) with (S (7 + k)) by lia.
    rewrite shell_dfs_budget by lia. now apply IH.
Qed.

(** X27: both depth-first searches stop by their own path-length
    guards ([path.length < 5], [newPath.length < 7]): the recursion of
    the cycle search is never more than 5 calls deep and that of the
    chain search never more than 7, so a larger recursion budget
    changes no result. *)
Theorem searches_stop_by_their_guards (nodes : JsMap.t GraphNode) (k : nat) :
  cycles
    (fold_left
       (fun st nodeId =>
          cycle_dfs (5 + k) nodes nodeId nodeId [nodeId] (JsSet.of_list [nodeId]) st)
       (JsMap.keys nodes) (mkCycleState [] JsSet.empty))
  = detectCycles nodes
  /\ chains
       (fold_left (fun st nodeId => shell_dfs (7 + k) nodes nodeId [nodeId] st)
                  (JsMap.keys nodes) (mkShellState [] JsSet.empty))
     = detectShellNetworks nodes.
Proof.
  unfold detectCycles, detectShellNetworks. split.
  - apply (f_equal cycles). apply fold_left_pointwise. intros st nodeId.
    apply cycle_dfs_more_budget. simpl. lia.
  - apply (f_equal chains). apply fold_left_pointwise. intros st nodeId.
    apply shell_dfs_more_budget. simpl. lia.
Qed.

(** ** The timestamps of the parsed transactions *)

Lemma matches_mask_app m1 : forall s1 m2 s2,
  matches_mask m1 s1 = true -> matches_mask m2 s2 = true ->
  matches_mask (String.append m1 m2) (String.append s1 s2) = true.
Proof.
  induction m1 as [|m m1 IH]; intros s1 m2 s2 H1 H2; destruct s1 as [|c s1];
    simpl in *; try discriminate; [exact H2|].
  apply andb_prop in H1. destruct H1 as [Hc H1].
  rewrite Hc. simpl. now apply IH.
Qed.

(** The first space of a string that matches a mask with a space
    after a space-free part is that space. *)
Lemma replace_space_T_mask pre post : forall s,
  has_char " " pre = false ->
  matches_mask (String.append pre (String " " post)) s = true ->
  matches_mask (String.append pre (String "T" post)) (replace_space_T s) = true.
Proof.
  induction pre as [|m pre IH]; intros s Hpre H; destruct s as [|c s];
    cbn [String.append matches_mask] in H; try discriminate.
  - change (Ascii.eqb " " "d") with false in H. cbv iota in H.
    apply andb_prop in H. destruct H as [Hc H].
    apply Ascii.eqb_eq in Hc. subst c. cbn [replace_space_T String.append].
    change (Ascii.eqb " " " ") with true. cbv iota. cbn [matches_mask].
    change (Ascii.eqb "T" "d") with false. cbv iota.
    rewrite Ascii.eqb_refl. exact H.
  - simpl in Hpre. apply orb_false_iff in Hpre. destruct Hpre as [Hm Hpre].
    apply andb_prop in H. destruct H as [Hc H].
    assert (Hns : Ascii.eqb c " " = false).
    { destruct (Ascii.eqb m "d").
      - destruct (Ascii.eqb_spec c " ") as [->|]; [discriminate Hc | reflexivity].
      - apply Ascii.eqb_eq in Hc. now subst c. }
    cbn [replace_space_T]. rewrite Hns. cbn [String.append matches_mask].
    rewrite Hc. simpl. now apply IH.
Qed.

(** The string handed to [Date] has the form YYYY-MM-DDThh:mm:ssZ. *)
Lemma iso_of_timestamp s :
  TIMESTAMP_REGEX_test s = true ->
  matches_mask "dddd-dd-ddTdd:dd:ddZ" (String.append (replace_space_T s) "Z") = true.
Proof.
  unfold TIMESTAMP_REGEX_test. intros H.
  change "dddd-dd-ddTdd:dd:ddZ"
    with (String.append (String.append "dddd-dd-dd" (String "T" "dd:dd:dd")) "Z").
  apply matches_mask_app; [|reflexivity].
  apply replace_space_T_mask; [reflexivity | exact H].
Qed.

(** X28: every parsed transaction comes from a row of the file whose
    timestamp text has the form YYYY-MM-DD hh:mm:ss, and its timestamp
    is what the host's [Date] makes of that text with a T for the
    space and a Z at the end, that is, of that text read as UTC.  A
    row whose timestamp text has another form, or that [Date] cannot
    read, gives an error with the number of its line and no
    transaction; when its ids and its amount are good, the error is
    the one about the timestamp. *)
Theorem parseCSV_timestamps_are_utc_readings (Date_getTime : string -> option Z)
    (csvText : string) :
  let iso := fun line =>
               String.append
                 (replace_space_T (field_of csvText "timestamp" line)) "Z" in
  let complete := fun line =>
                    negb (is_empty (field_of csvText "transaction_id" line)
                          || is_empty (field_of csvText "sender_id" line)
                          || is_empty (field_of csvText "receiver_id" line))
                    && negb (isNaN (parseFloat (field_of csvText "amount" line))) in
  (forall t,
     In t (parsed (parseCSV Date_getTime csvText)) ->
     exists n line,
       In (n, line) (numbered_rows csvText)
       /\ parse_row Date_getTime (csv_headers csvText) n line = inr t
       /\ TIMESTAMP_REGEX_test (field_of csvText "timestamp" line) = true
       /\ matches_mask "dddd-dd-ddTdd:dd:ddZ" (iso line) = true
       /\ Date_getTime (iso line) = Some (timestamp t))
  /\ (has_char newline (trim csvText) = true ->
      missing_columns csvText = [] ->
      forall n line,
        In (n, line) (numbered_rows csvText) ->
        (TIMESTAMP_REGEX_test (field_of csvText "timestamp" line) = false ->
         exists e,
           In e (errors (parseCSV Date_getTime csvText)) /\ row e = n
           /\ parse_row Date_getTime (csv_headers csvText) n line = inl e
           /\ (complete line = true ->
               e = invalid_timestamp n (field_of csvText "timestamp" line)))
        /\ (TIMESTAMP_REGEX_test (field_of csvText "timestamp" line) = true ->
            Date_getTime (iso line) = None ->
            exists e,
              In e (errors (parseCSV Date_getTime csvText)) /\ row e = n
              /\ parse_row Date_getTime (csv_headers csvText) n line = inl e
              /\ (complete line = true ->
                  e = unreadable_timestamp n (field_of csvText "timestamp" line))))
  /\ (has_char newline (trim csvText) = true ->
      missing_columns csvText = [] ->
      parsed (parseCSV Date_getTime csvText)
      = flat_map
          (fun r => transaction_of
                      (parse_row Date_getTime (csv_headers csvText) (fst r) (snd r)))
          (numbered_rows csvText)).
Proof.
  cbv zeta. split; [|split].
  - intros t Ht. destruct (parsed_from_rows _ _ _ Ht) as (n & line & Hr & Ho).
    exists n, line. split; [exact Hr|]. split; [exact Ho|].
    destruct (parse_row_timestamp_text Date_getTime (csv_headers csvText) n line)
      as (H1 & _).
    cbv zeta in H1. destruct (H1 t Ho) as (_ & Hre & Hd).
    unfold field_of. split; [exact Hre|]. split; [|exact Hd].
    now apply iso_of_timestamp.
  - intros H Hm n line Hr.
    pose proof (parseCSV_rows Date_getTime csvText H Hm) as Erows.
    destruct (parse_row_timestamp_text Date_getTime (csv_headers csvText) n line)
      as (_ & H2 & H3).
    cbv zeta in H2, H3. unfold field_of.
    split.
    + intros Hre. destruct (H2 Hre) as (e & Ho & Hmsg). exists e.
      split; [|split; [exact (parse_row_error_row _ _ _ _ _ Ho) | auto]].
      rewrite Erows. cbn [errors]. apply In_flat_map_error.
      exists (n, line). auto.
    + intros Hre Hd. destruct (H3 Hre Hd) as (e & Ho & Hmsg). exists e.
      split; [|split; [exact (parse_row_error_row _ _ _ _ _ Ho) | auto]].
      rewrite Erows. cbn [errors]. apply In_flat_map_error.
      exists (n, line). auto.
  - intros H Hm. now rewrite (parseCSV_rows Date_getTime csvText H Hm).
Qed.

Lemma parseCSV_timestamps_are_utc_readings_witness :
  (exists t,
     parsed (parseCSV utc_getTime mixed_rows_csv) = [t]
     /\ transaction_id t = "T1"
     /\ field_of mixed_rows_csv "timestamp" "T1,A,B,10,2024-01-15 10:00:00"
        = "2024-01-15 10:00:00"
     /\ utc_getTime "2024-01-15T10:00:00Z" = Some (timestamp t)
     /\ timestamp t = 1705312800000%Z)
  /\ (exists e,
        In e (errors (parseCSV utc_getTime mixed_rows_csv)) /\ row e = 5
        /\ parse_row utc_getTime (csv_headers mixed_rows_csv) 5
             "T3,B,C,10,2024-01-15T12:00:00" = inl e
        /\ e = invalid_timestamp 5 "2024-01-15T12:00:00")
  /\ (exists e,
        In e (errors (parseCSV utc_getTime mixed_rows_csv)) /\ row e = 6
        /\ parse_row utc_getTime (csv_headers mixed_rows_csv) 6
             "T4,C,D,10,2024-13-15 12:00:00" = inl e
        /\ e = unreadable_timestamp 6 "2024-13-15 12:00:00").
Proof.
  pose proof (proj1 (proj2 (parseCSV_timestamps_are_utc_readings
                              utc_getTime mixed_rows_csv))) as H.
  cbv zeta in H.
  assert (H1 : has_char newline (trim mixed_rows_csv) = true)
    by (vm_compute; reflexivity).
  assert (H2 : missing_columns mixed_rows_csv = []) by (vm_compute; reflexivity).
  split; [|split].
  - exists (mkTransaction "T1" "A" "B" (JsFinite 10) 1705312800000).
    do 4 (split; [vm_compute; reflexivity|]). reflexivity.
  - assert (Hr : In (5, "T3,B,C,10,2024-01-15T12:00:00")
                    (numbered_rows mixed_rows_csv))
      by (vm_compute; tauto).
    destruct (proj1 (H H1 H2 _ _ Hr)) as (e & He & Hrow & Ho & Hmsg);
      [vm_compute; reflexivity|].
    exists e. split; [exact He|]. split; [exact Hrow|]. split; [exact Ho|].
    apply Hmsg. vm_compute. reflexivity.
  - assert (Hr : In (6, "T4,C,D,10,2024-13-15 12:00:00")
                    (numbered_rows mixed_rows_csv))
      by (vm_compute; tauto).
    destruct (proj2 (H H1 H2 _ _ Hr)) as (e & He & Hrow & Ho & Hmsg);
      [vm_compute; reflexivity | vm_compute; reflexivity|].
    exists e. split; [exact He|]. split; [exact Hrow|]. split; [exact Ho|].
    apply Hmsg. vm_compute. reflexivity.
Defined.

(** ** The graph view and the engine's output *)

Lemma find_app_first {A} (f : A -> bool) l1 l2 :
  find f (l1 ++ l2)
  = match find f l1 with
    | Some x => Some x
    | None => find f l2
    end.
Proof.
  induction l1 as [|x l1 IH]; simpl; [reflexivity|].
  destruct (f x); [reflexivity | exact IH].
Qed.

Lemma get_buildAccountMap accounts : forall m id,
  JsMap.get id
    (fold_left (fun map acc => JsMap.set (account_id acc) acc map) accounts m)
  = match find (fun a => String.eqb (account_id a) id) (rev accounts) with
    | Some acc => Some acc
    | None => JsMap.get id m
    end.
Proof.
  induction accounts as [|acc accounts IH]; intros m id; simpl; [reflexivity|].
  rewrite IH, find_app_first.
  destruct (find _ (rev accounts)); [reflexivity|]. simpl.
  rewrite JsMapFacts.get_set, (String.eqb_sym id).
  now destruct (String.eqb (account_id acc) id).
Qed.

Lemma find_unique (accounts : list SuspiciousAccount) acc :
  NoDup (map account_id accounts) -> In acc accounts ->
  find (fun a => String.eqb (account_id a) (account_id acc)) accounts = Some acc.
Proof.
  induction accounts as [|x l IH]; intros Hnd Hin; [destruct Hin|].
  inversion Hnd as [|? ? Hx Hnd']; subst. simpl.
  destruct Hin as [->|Hin]; [now rewrite String.eqb_refl|].
  destruct (String.eqb_spec (account_id x) (account_id acc)) as [E|_]; [|auto].
  exfalso. apply Hx. rewrite E. now apply in_map.
Qed.

Lemma existsb_none {A} (f : A -> bool) l x :
  existsb f l = false -> In x l -> f x = false.
Proof.
  intros H Hin. destruct (f x) eqn:E; [|reflexivity].
  assert (Ht : existsb f l = true) by (apply existsb_exists; now exists x).
  congruence.
Qed.

Lemma tag_class p :
  known_tag p ->
  (str_includes "cycle" p || str_includes "fan" p || str_includes "shell" p = false
   <-> p = "high_velocity")
  /\ (str_includes "cycle" p = true
      <-> exists n, p = String.append "cycle_length_" (string_of_nat n)).
Proof.
  intros [[->|[->|[->|[->|[n ->]]]]]| ->]; (split; split);
    try discriminate; try reflexivity; intros H;
    try match type of H with
        | exists _, _ => destruct H as [k H]; discriminate H
        end.
  now exists n.
Qed.

(** X29: in the graph view the account map returns, for the id of an
    emitted account, that account (ids are unique) and nothing for any
    other id, so a node shows the engine's score and an account that
    was not emitted shows 0; an edge out of an emitted account is
    drawn as a cycle edge exactly when the account has a cycle tag,
    and as a normal edge exactly when high_velocity is all it has. *)
Theorem graph_view_reads_the_engine_output (txs : list Transaction) :
  let accounts := suspicious_accounts (runDetection txs) in
  let accMap := GraphVisualization.buildAccountMap accounts in
  Forall
    (fun acc =>
       JsMap.get (account_id acc) accMap = Some acc
       /\ GraphVisualization.nodeScore accMap (account_id acc) = suspicion_score acc
       /\ (GraphVisualization.getEdgeType (Some acc) = GraphVisualization.cycle
           <-> exists n, In (String.append "cycle_length_" (string_of_nat n))
                            (detected_patterns acc))
       /\ (GraphVisualization.getEdgeType (Some acc) = GraphVisualization.normal
           <-> forall p, In p (detected_patterns acc) -> p = "high_velocity"))
    accounts
  /\ forall id,
       suppressed txs id ->
       JsMap.get id accMap = None
       /\ GraphVisualization.nodeScore accMap id = 0%Q
       /\ GraphVisualization.getEdgeType (JsMap.get id accMap)
          = GraphVisualization.normal.
Proof.
  cbv zeta. unfold GraphVisualization.buildAccountMap, GraphVisualization.nodeScore.
  set (accounts := suspicious_accounts (runDetection txs)).
  assert (Hnd : NoDup (map account_id (rev accounts))).
  { rewrite map_rev. apply NoDup_rev. apply NoDup_account_ids. }
  split.
  - apply Forall_forall. intros acc Hacc.
    assert (Hget : JsMap.get (account_id acc)
                     (fold_left (fun map a => JsMap.set (account_id a) a map)
                                accounts JsMap.empty) = Some acc).
    { rewrite get_buildAccountMap, find_unique; auto. now apply -> in_rev. }
    split; [exact Hget|]. rewrite Hget. split; [reflexivity|].
    assert (Hknown : forall p, In p (detected_patterns acc) -> known_tag p).
    { intros p Hp. pose proof Hacc as Hrec. apply In_suspicious_accounts in Hrec.
      destruct Hrec as (s & _ & _ & _ & Hshape). rewrite Hshape in Hp.
      cbn [detected_patterns] in Hp.
      destruct (tag_inv_accumulate txs) as [_ Htags]. exact (proj1 (Htags _ _ Hp)). }
    unfold GraphVisualization.getEdgeType. cbv zeta. split.
    + destruct (existsb (str_includes "cycle") (detected_patterns acc)) eqn:Ec.
      * split; [intros _ | reflexivity].
        apply existsb_exists in Ec. destruct Ec as (p & Hp & Hc).
        apply (proj2 (tag_class p (Hknown p Hp))) in Hc.
        destruct Hc as [n ->]. now exists n.
      * split.
        { destruct (existsb (str_includes "fan") _); [discriminate|].
          destruct (existsb (str_includes "shell") _); discriminate. }
        intros [n Hn]. exfalso.
        assert (E : existsb (str_includes "cycle") (detected_patterns acc) = true).
        { apply existsb_exists. eexists. split; [exact Hn | reflexivity]. }
        congruence.
    + split.
      * intros H p Hp. apply (proj1 (tag_class p (Hknown p Hp))).
        destruct (existsb (str_includes "cycle") (detected_patterns acc)) eqn:Ec;
          [discriminate|].
        destruct (existsb (str_includes "fan") (detected_patterns acc)) eqn:Ef;
          [discriminate|].
        destruct (existsb (str_includes "shell") (detected_patterns acc)) eqn:Es;
          [discriminate|].
        rewrite (existsb_none _ _ p Ec Hp), (existsb_none _ _ p Ef Hp),
                (existsb_none _ _ p Es Hp).
        reflexivity.
      * intros Hall.
        assert (Hno : forall needle,
                   str_includes needle "high_velocity" = false ->
                   existsb (str_includes needle) (detected_patterns acc) = false).
        { intros needle Hn. destruct (existsb _ _) eqn:E; [|reflexivity].
          apply existsb_exists in E. destruct E as (p & Hp & Hi).
          rewrite (Hall p Hp) in Hi. congruence. }
        rewrite !Hno by reflexivity. reflexivity.
  - intros id Hsup.
    assert (Hget : JsMap.get id
                     (fold_left (fun map a => JsMap.set (account_id a) a map)
                                accounts JsMap.empty) = None).
    { rewrite get_buildAccountMap.
      destruct (find _ (rev accounts)) as [acc|] eqn:E; [|reflexivity].
      apply find_some in E. destruct E as [Hin Hid].
      apply String.eqb_eq in Hid. apply in_rev in Hin.
      now destruct (Hsup acc Hin). }
    rewrite Hget. repeat split.
Qed.

Lemma nodeSet_fold txs : forall s,
  fold_left
    (fun nodeSet tx => JsSet.add (receiver_id tx) (JsSet.add (sender_id tx) nodeSet))
    txs s
  = fold_left (fun s x => JsSet.add x s) (flat_map ends txs) s.
Proof.
  induction txs as [|t txs IH]; intros s; simpl; [reflexivity|]. apply IH.
Qed.

Lemma involved_count txs id :
  List.length (filter (involves id) txs) + List.length (transfers id id txs)
  = tx_count id txs.
Proof.
  unfold tx_count, transfers, involves.
  induction txs as [|t txs IH]; simpl; [reflexivity|].
  destruct (String.eqb (sender_id t) id), (String.eqb (receiver_id t) id);
    simpl; lia.
Qed.

(** X30: the accounts drawn in the graph view are the accounts of the
    engine's graph of the first 2000 transactions, in the same order;
    the transaction count shown for a node counts a self-transfer
    once, where the engine's [totalTxCount] counts it twice. *)
Theorem graph_view_nodes_are_the_engine_accounts (txs : list Transaction) :
  GraphVisualization.nodeSet txs = JsMap.keys (buildGraph (slice 0 2000 txs))
  /\ forall id,
       GraphVisualization.totalTx txs id + List.length (transfers id id txs)
       = total_or_0 (buildGraph txs) id.
Proof.
  split.
  - unfold GraphVisualization.nodeSet. rewrite nodeSet_fold, keys_buildGraph.
    reflexivity.
  - intros id. rewrite total_buildGraph. apply involved_count.
Qed.
